(** * sentry-claude-auto-pr: webhook ingestion and the remote commit protocol

    A shallow embedding of the Go packages [internal/webhook] (signature
    gate, event normalizer, HTTP handler with its bounded job queue),
    [internal/gitprovider] (branch, commit and pull-request protocol of the
    GitHub binding) and [internal/config] (environment and repository
    mappings), and of the job processor of the server, followed by the
    properties the specification states about them and by further
    properties read off the code.

    Conventions.  A Go [string] is a [string], a [[]byte] is a [list byte];
    [uint32] and [uint8] values are [Z] with the wrap-around written out; a
    Go [map[string]T] is a [gmap string T]; a function returning
    [(T, error)] returns a [result T]. *)

From Stdlib Require Import ZArith Lia List Bool.
From Stdlib Require QArith Qround.
From Stdlib.Strings Require Import Ascii String Byte.
From stdpp Require Import base option list gmap strings pretty.
Import ListNotations.

Local Open Scope Z_scope.

(** ** The Go standard library pieces the signature gate calls *)

(** [crypto/sha256], block function and padding of the generic
    implementation. *)
Module sha256.

Definition u32 (x : Z) : Z := x mod 2 ^ 32.

(** [bits.RotateLeft32(x, -k)] *)
Definition rotr (x k : Z) : Z :=
  u32 (Z.lor (Z.shiftr x k) (Z.shiftl x (32 - k))).

(** The round constants [_K], written in decimal: [_K[0]] is 0x428a2f98
    and [_K[63]] is 0xc67178f2. *)
Definition _K : list Z :=
  [
    1116352408; 1899447441; 3049323471; 3921009573; 961987163; 1508970993;
    2453635748; 2870763221; 3624381080; 310598401; 607225278; 1426881987;
    1925078388; 2162078206; 2614888103; 3248222580; 3835390401; 4022224774;
    264347078; 604807628; 770255983; 1249150122; 1555081692; 1996064986;
    2554220882; 2821834349; 2952996808; 3210313671; 3336571891; 3584528711;
    113926993; 338241895; 666307205; 773529912; 1294757372; 1396182291;
    1695183700; 1986661051; 2177026350; 2456956037; 2730485921; 2820302411;
    3259730800; 3345764771; 3516065817; 3600352804; 4094571909; 275423344;
    430227734; 506948616; 659060556; 883997877; 958139571; 1322822218;
    1537002063; 1747873779; 1955562222; 2024104815; 2227730452; 2361852424;
    2428436474; 2756734187; 3204031479; 3329325298 ].

(** The eight chaining words [dig.h]. *)
Record digest := Digest {
  h0 : Z; h1 : Z; h2 : Z; h3 : Z; h4 : Z; h5 : Z; h6 : Z; h7 : Z }.

Definition init : digest :=
  Digest 0x6a09e667 0xbb67ae85 0x3c6ef372 0xa54ff53a
         0x510e527f 0x9b05688c 0x1f83d9ab 0x5be0cd19.

Definition byteZ (b : byte) : Z := Z.of_N (Byte.to_N b).

Definition Zbyte (z : Z) : byte :=
  match Byte.of_N (Z.to_N (z mod 256)) with
  | Some b => b
  | None => x00
  end.

Definition at_ (l : list Z) (i : nat) : Z := nth i l 0.

(** [w[i] = uint32(p[j])<<24 | uint32(p[j+1])<<16 | uint32(p[j+2])<<8 | uint32(p[j+3])] *)
Definition be32 (p : list byte) (j : nat) : Z :=
  let b k := byteZ (nth (j + k) p x00) in
  Z.lor (Z.lor (Z.lor (Z.shiftl (b 0%nat) 24) (Z.shiftl (b 1%nat) 16))
               (Z.shiftl (b 2%nat) 8)) (b 3%nat).

(** The second loop of the block function: [w[i]] for [i] in 16..63,
    [i] being the number of words already present. *)
Fixpoint schedule (n : nat) (w : list Z) : list Z :=
  match n with
  | O => w
  | S n' =>
      let i := length w in
      let v1 := at_ w (i - 2) in
      let t1 := Z.lxor (Z.lxor (rotr v1 17) (rotr v1 19)) (Z.shiftr v1 10) in
      let v2 := at_ w (i - 15) in
      let t2 := Z.lxor (Z.lxor (rotr v2 7) (rotr v2 18)) (Z.shiftr v2 3) in
      schedule n' (w ++ [u32 (t1 + at_ w (i - 7) + t2 + at_ w (i - 16))])
  end.

(** One round of the third loop, on the working variables [a..h]. *)
Definition round (s : digest) (kw : Z) : digest :=
  let '(Digest a b c d e f g h) := s in
  let t1 := u32 (h + Z.lxor (Z.lxor (rotr e 6) (rotr e 11)) (rotr e 25)
                   + Z.lxor (Z.land e f) (Z.land (u32 (Z.lnot e)) g) + kw) in
  let t2 := u32 (Z.lxor (Z.lxor (rotr a 2) (rotr a 13)) (rotr a 22)
                 + Z.lxor (Z.lxor (Z.land a b) (Z.land a c)) (Z.land b c)) in
  Digest (u32 (t1 + t2)) a b c (u32 (d + t1)) e f g.

Definition block1 (s : digest) (p : list byte) : digest :=
  let w := schedule 48 (map (fun i => be32 p (4 * i)) (seq 0 16)) in
  let kw := map (fun i => u32 (at_ _K i + at_ w i)) (seq 0 64) in
  let r := fold_left round kw s in
  Digest (u32 (h0 s + h0 r)) (u32 (h1 s + h1 r)) (u32 (h2 s + h2 r))
         (u32 (h3 s + h3 r)) (u32 (h4 s + h4 r)) (u32 (h5 s + h5 r))
         (u32 (h6 s + h6 r)) (u32 (h7 s + h7 r)).

(** [for len(p) >= chunk { ...; p = p[chunk:] }], one iteration per unit
    of [n]. *)
Fixpoint block (n : nat) (s : digest) (p : list byte) : digest :=
  match n with
  | O => s
  | S n' => block n' (block1 s p) (skipn 64 p)
  end.

(** Big-endian bytes of the low [8 * n] bits of [x]. *)
Fixpoint be_bytes (n : nat) (x : Z) : list byte :=
  match n with
  | O => []
  | S n' => Zbyte (Z.shiftr x (8 * Z.of_nat n')) :: be_bytes n' x
  end.

(** [checkSum]: a 0x80 byte, zeros up to 56 mod 64, the length in bits. *)
Definition pad (data : list byte) : list byte :=
  let len := length data in
  let t := (len mod 64)%nat in
  let zeros := (if (t <? 56)%nat then 55 - t else 119 - t)%nat in
  data ++ x80 :: repeat x00 zeros
       ++ be_bytes 8 ((Z.of_nat len * 8) mod 2 ^ 64).

Definition Sum256 (data : list byte) : list byte :=
  let p := pad data in
  let '(Digest a b c d e f g h) := block (length p / 64) init p in
  be_bytes 4 a ++ be_bytes 4 b ++ be_bytes 4 c ++ be_bytes 4 d
    ++ be_bytes 4 e ++ be_bytes 4 f ++ be_bytes 4 g ++ be_bytes 4 h.

Definition BlockSize : nat := 64.

End sha256.

(** [crypto/subtle] *)
Module subtle.

(** [int((uint32(x^y) - 1) >> 31)] *)
Definition ConstantTimeByteEq (x y : Z) : Z :=
  Z.shiftr ((Z.lxor x y - 1) mod 2 ^ 32) 31.

(** The loop [v |= x[i] ^ y[i]]; both slices have the same length when it
    runs. *)
Fixpoint accumulate (v : Z) (x y : list byte) : Z :=
  match x, y with
  | a :: x', b :: y' =>
      accumulate (Z.lor v (Z.lxor (sha256.byteZ a) (sha256.byteZ b))) x' y'
  | _, _ => v
  end.

Definition ConstantTimeCompare (x y : list byte) : Z :=
  if negb (length x =? length y)%nat then 0
  else ConstantTimeByteEq (accumulate 0 x y) 0.

End subtle.

(** [crypto/hmac] over SHA-256. *)
Module hmac.

Definition xor_byte (c : Z) (b : byte) : byte :=
  sha256.Zbyte (Z.lxor (sha256.byteZ b) c).

(** [hmac.New(sha256.New, key)]: a key longer than the block size is
    hashed first; the key is then zero-padded to the block size. *)
Definition block_key (key : list byte) : list byte :=
  let k := if (sha256.BlockSize <? length key)%nat
           then sha256.Sum256 key else key in
  k ++ repeat x00 (sha256.BlockSize - length k).

(** [mac.Write(body); mac.Sum(nil)] *)
Definition Sum (key body : list byte) : list byte :=
  let k := block_key key in
  let inner := sha256.Sum256 (map (xor_byte 0x36) k ++ body) in
  sha256.Sum256 (map (xor_byte 0x5c) k ++ inner).

(** [hmac.Equal]: [subtle.ConstantTimeCompare(mac1, mac2) == 1] *)
Definition Equal (mac1 mac2 : list byte) : bool :=
  subtle.ConstantTimeCompare mac1 mac2 =? 1.

End hmac.

(** [encoding/hex] *)
Module hex.

Definition hextable : string := "0123456789abcdef".

Definition digit (n : Z) : ascii :=
  match String.get (Z.to_nat n) hextable with
  | Some c => c
  | None => "0"%char
  end.

(** [dst[j] = hextable[v>>4]; dst[j+1] = hextable[v&0x0f]] *)
Fixpoint EncodeToString (src : list byte) : string :=
  match src with
  | [] => EmptyString
  | v :: rest =>
      String (digit (Z.shiftr (sha256.byteZ v) 4))
        (String (digit (Z.land (sha256.byteZ v) 0x0f))
           (EncodeToString rest))
  end.



Definition is_lower_hex (c : ascii) : bool :=
  let n := Z.of_nat (nat_of_ascii c) in
  ((48 <=? n) && (n <=? 57)) || ((97 <=? n) && (n <=? 102)).

(** An ASCII capital letter. *)
Definition is_upper (c : ascii) : bool :=
  let n := Z.of_nat (nat_of_ascii c) in
  (65 <=? n) && (n <=? 90).

End hex.

(** [[]byte(s)] *)
Definition bytes_of (s : string) : list byte := list_byte_of_string s.

(** The double-quote character, for JSON literals. *)
Definition dq : string := String "034"%char EmptyString.

(** ** Minimal [net/http] and [encoding/json] vocabulary *)
Module http.

Definition MethodPost : string := "POST".
Definition StatusOK : Z := 200.
Definition StatusAccepted : Z := 202.
Definition StatusBadRequest : Z := 400.
Definition StatusUnauthorized : Z := 401.
Definition StatusMethodNotAllowed : Z := 405.

(** [bodyReader] of the signature gate: a buffer and a read position. *)
Record bodyReader := { data : list byte; pos : nat }.

(** A request body: either the connection's own stream, described by the
    bytes it delivers and the error (if any) that ends the read, or a
    [bodyReader] wrapped by [io.NopCloser]. *)
Inductive ReadCloser :=
| wire (delivered : list byte) (err : option string)
| NopCloser (b : bodyReader).

(** [bodyReader.Read] with a destination of [n] bytes: the number of
    bytes copied (the bytes themselves), the advanced reader, and whether
    [io.EOF] is returned. *)
Definition Read (b : bodyReader) (n : nat) : list byte * bodyReader * bool :=
  if (length (data b) <=? pos b)%nat then ([], b, true)
  else
    let chunk := firstn n (skipn (pos b) (data b)) in
    (chunk, {| data := data b; pos := (pos b + length chunk)%nat |}, false).

(** The loop of [io.ReadAll] over a [bodyReader]: [Read] is called with
    [room] free bytes until it returns [io.EOF]; one iteration per unit of
    [fuel]. *)
Fixpoint read_loop (fuel room : nat) (b : bodyReader) (acc : list byte)
  : list byte :=
  match fuel with
  | O => acc
  | S fuel' =>
      let '(chunk, b', eof) := Read b room in
      if eof then acc else read_loop fuel' room b' (acc ++ chunk)
  end.

(** [io.ReadAll]: everything up to [io.EOF], or what was read before the
    error.  Over a [bodyReader] every call that is not the last yields at
    least one byte, so one more call than there are bytes suffices. *)
Definition ReadAll (r : ReadCloser) : list byte * option string :=
  match r with
  | wire d e => (d, e)
  | NopCloser b => (read_loop (S (length (data b))) 512 b [], None)
  end.

(** Successive calls of [Read] with destinations of the given sizes: the
    bytes obtained, in order, and the reader afterwards. *)
Fixpoint reads (b : bodyReader) (sizes : list nat) : list byte * bodyReader :=
  match sizes with
  | [] => ([], b)
  | n :: rest =>
      let '(chunk, b', _) := Read b n in
      let '(more, b'') := reads b' rest in
      (chunk ++ more, b'')
  end.

Record Request := {
  Method : string;
  Header : gmap string (list string);
  Body : ReadCloser }.

(** [Header.Get]: first value stored under the key, [""] if none. *)
Definition Get (h : gmap string (list string)) (key : string) : string :=
  match h !! key with
  | Some (v :: _) => v
  | _ => EmptyString
  end.

(** [httptest.ResponseRecorder]: status code and body written so far. *)
Record ResponseRecorder := {
  Code : Z;
  wroteHeader : bool;
  Written : string }.

Definition NewRecorder : ResponseRecorder :=
  {| Code := 200; wroteHeader := false; Written := EmptyString |}.

Definition WriteHeader (w : ResponseRecorder) (code : Z) : ResponseRecorder :=
  if wroteHeader w then w
  else {| Code := code; wroteHeader := true; Written := Written w |}.

Definition Write (w : ResponseRecorder) (b : string) : ResponseRecorder :=
  let w := WriteHeader w StatusOK in
  {| Code := Code w; wroteHeader := true; Written := Written w +:+ b |}.

(** [http.Error]: the status, then the message and a newline. *)
Definition Error (w : ResponseRecorder) (msg : string) (code : Z)
  : ResponseRecorder :=
  Write (WriteHeader w code) (msg +:+ String "010"%char EmptyString).

(** How a call of [ServeHTTP] ends, over a world [W] of shared state. *)
Inductive run (W : Type) :=
| Return (w : ResponseRecorder) (st : W)
| Panic (reason : string) (w : ResponseRecorder) (st : W).
Arguments Return {W}.
Arguments Panic {W}.

Definition Handler (W : Type) : Type :=
  ResponseRecorder -> Request -> W -> run W.

(** The shared state a call leaves behind, however it ended. *)
Definition state_of {W} (o : run W) : W :=
  match o with
  | Return _ st => st
  | Panic _ _ st => st
  end.

End http.

(** ** Package [webhook] *)
Module webhook.

(** *** signature.go *)

Record SignatureVerifier := { secret : list byte }.

Definition NewSignatureVerifier (secret : string) : SignatureVerifier :=
  {| secret := bytes_of secret |}.

Definition Verify (v : SignatureVerifier) (signature : string)
    (body : list byte) : bool :=
  if String.eqb signature "" then false
  else
    let expected := hex.EncodeToString (hmac.Sum (secret v) body) in
    hmac.Equal (bytes_of signature) (bytes_of expected).

(** [computeSignature] of signature_test.go: the signature a sender
    holding [secret] attaches to [body]. *)
Definition computeSignature (secret : string) (body : list byte) : string :=
  hex.EncodeToString (hmac.Sum (bytes_of secret) body).




Definition newBodyReader (data : list byte) : http.bodyReader :=
  {| http.data := data; http.pos := 0%nat |}.

Definition Middleware {W : Type} (v : SignatureVerifier)
    (next : http.Handler W) : http.Handler W :=
  fun w r st =>
    let signature := http.Get (http.Header r) "Sentry-Hook-Signature" in
    if String.eqb signature "" then
      http.Return (http.Error w "missing signature" http.StatusUnauthorized) st
    else
      let '(body, err) := http.ReadAll (http.Body r) in
      match err with
      | Some _ =>
          http.Return (http.Error w "failed to read body" http.StatusBadRequest) st
      | None =>
          if negb (Verify v signature body) then
            http.Return (http.Error w "invalid signature" http.StatusUnauthorized) st
          else
            next w {| http.Method := http.Method r;
                      http.Header := http.Header r;
                      http.Body := http.NopCloser (newBodyReader body) |} st
      end.

(** *** types.go and handler.go *)

Section Types.

(** Go's [float64], and the conversion [int(f)]. *)
Variable float64 : Type.
Variable int_of_float64 : float64 -> Z.

(** A decoded [interface{}] JSON value. *)
#[local] Set Warnings "-register-all".
Inductive jvalue :=
| JNull
| JBool (b : bool)
| JNumber (f : float64)
| JString (s : string)
| JArray (l : list jvalue)
| JObject (m : gmap string jvalue).

Record Project := {
  Project_ID : string; Project_Name : string;
  Slug : string; Project_Platform : string }.

Record Metadata := {
  Metadata_Type : string; Metadata_Value : string;
  Metadata_Filename : string; Metadata_Function : string }.

(** [Issue]; the two timestamps are not read by this package and are
    left out. *)
Record Issue := {
  ID : string; ShortID : string; Title : string; Culprit : string;
  Permalink : string; Logger : string; Level : string; Status : string;
  Platform : string; Issue_Project : Project; Issue_Metadata : Metadata;
  Count : string; UserCount : Z }.

Record Entry := { Entry_Type : string; Entry_Data : jvalue }.

(** [Event]; only [Entries] is read by this package. *)
Record Event := {
  EventID : string; Entries : list Entry; Message : string;
  Event_Platform : string; Event_Title : string; Event_Type : string }.

Record WebhookData := { Data_Issue : option Issue; Data_Event : option Event }.

Record Actor := { Actor_Type : string; Actor_ID : string; Actor_Name : string }.

Record SentryWebhook := {
  Action : string; Data : WebhookData; Webhook_Actor : Actor }.

Record Frame := {
  Filename : string; AbsPath : string; Module_ : string;
  Package : string; Frame_Platform : string; Function_ : string;
  InApp : bool; LineNo : Z; ColNo : Z;
  PreContext : list string; PostContext : list string }.

Record ParsedError := {
  IssueID : string; ProjectSlug : string; PE_Title : string;
  ErrorType : string; ErrorMessage : string; PE_Level : string;
  PE_Platform : string; PE_Culprit : string;
  Frames : list Frame; PE_Permalink : string }.

Definition getBool (m : gmap string jvalue) (key : string) : bool :=
  match m !! key with
  | Some (JBool v) => v
  | _ => false
  end.

(** The body of the innermost loop: a [Frame] literal carrying [InApp],
    then one guarded assignment per optional field; a field whose type
    assertion fails keeps its zero value. *)
Definition frame_of (fm : gmap string jvalue) : Frame :=
  {| InApp := getBool fm "inApp";
     Filename := match fm !! "filename" with Some (JString s) => s | _ => "" end;
     AbsPath := match fm !! "absPath" with Some (JString s) => s | _ => "" end;
     Function_ := match fm !! "function" with Some (JString s) => s | _ => "" end;
     LineNo := match fm !! "lineNo" with Some (JNumber f) => int_of_float64 f | _ => 0 end;
     ColNo := match fm !! "colNo" with Some (JNumber f) => int_of_float64 f | _ => 0 end;
     Module_ := match fm !! "module" with Some (JString s) => s | _ => "" end;
     Package := ""; Frame_Platform := "";
     PreContext := []; PostContext := [] |}.

(** [for _, f := range frames { if fm, ok := f.(map...); ok { ...;
    parsed.Frames = append(parsed.Frames, frame) } }] *)
Definition range_frames (acc : list Frame) (frames : list jvalue) : list Frame :=
  fold_left (fun acc f =>
               match f with
               | JObject fm => acc ++ [frame_of fm]
               | _ => acc
               end) frames acc.

(** [for _, v := range values { val -> val["stacktrace"] -> st["frames"] }] *)
Definition range_values (acc : list Frame) (values : list jvalue) : list Frame :=
  fold_left (fun acc v =>
               match v with
               | JObject val =>
                   match val !! "stacktrace" with
                   | Some (JObject st) =>
                       match st !! "frames" with
                       | Some (JArray frames) => range_frames acc frames
                       | _ => acc
                       end
                   | _ => acc
                   end
               | _ => acc
               end) values acc.

(** [for _, entry := range wh.Data.Event.Entries { ... }] *)
Definition range_entries (acc : list Frame) (entries : list Entry) : list Frame :=
  fold_left (fun acc entry =>
               if String.eqb (Entry_Type entry) "exception" then
                 match Entry_Data entry with
                 | JObject data =>
                     match data !! "values" with
                     | Some (JArray values) => range_values acc values
                     | _ => acc
                     end
                 | _ => acc
                 end
               else acc) entries acc.

(** [ParseWebhook]; [None] is the [nil] result. *)
Definition ParseWebhook (wh : SentryWebhook) : option ParsedError :=
  match Data_Issue (Data wh) with
  | None => None
  | Some issue =>
      Some {| IssueID := ID issue;
              ProjectSlug := Slug (Issue_Project issue);
              PE_Title := Title issue;
              ErrorType := Metadata_Type (Issue_Metadata issue);
              ErrorMessage := Metadata_Value (Issue_Metadata issue);
              PE_Level := Level issue;
              PE_Platform := Platform issue;
              PE_Culprit := Culprit issue;
              PE_Permalink := Permalink issue;
              Frames := match Data_Event (Data wh) with
                        | Some ev => range_entries [] (Entries ev)
                        | None => []
                        end |}
  end.

(** The frames an envelope carries under its exception entries, read
    off the payload in document order: for each entry of type
    ["exception"] whose data is an object, each object in its
    [values] array, and each object in the [frames] array of that
    value's [stacktrace] object. *)
Definition as_object (v : jvalue) : option (gmap string jvalue) :=
  match v with JObject m => Some m | _ => None end.

Definition as_array (v : option jvalue) : list jvalue :=
  match v with Some (JArray l) => l | _ => [] end.

Definition stack_frames (val : gmap string jvalue) : list (gmap string jvalue) :=
  match val !! "stacktrace" with
  | Some (JObject st) => omap as_object (as_array (st !! "frames"))
  | _ => []
  end.

Definition exception_values (entry : Entry) : list (gmap string jvalue) :=
  if String.eqb (Entry_Type entry) "exception" then
    match Entry_Data entry with
    | JObject data => omap as_object (as_array (data !! "values"))
    | _ => []
    end
  else [].

Definition exception_frames (wh : SentryWebhook) : list (gmap string jvalue) :=
  match Data_Event (Data wh) with
  | Some ev =>
      flat_map (fun entry => flat_map stack_frames (exception_values entry))
               (Entries ev)
  | None => []
  end.

(** *** handler.go *)

Record Job := { Webhook : SentryWebhook; Job_ParsedError : ParsedError }.

(** A [chan Job] as the runtime keeps it: the buffer (oldest first), its
    capacity, the number of receivers parked on the channel, and the
    jobs receivers have taken so far (oldest first).  The runtime keeps
    [buf = []] whenever a receiver is parked. *)
Record chan := {
  buf : list Job; cap : nat; recvq : nat; taken : list Job }.

Definition make_chan (n : nat) : chan :=
  {| buf := []; cap := n; recvq := 0; taken := [] |}.

Definition chan_ok (c : chan) : Prop :=
  (length (buf c) <= cap c)%nat /\ (recvq c = 0%nat \/ buf c = []).

(** [select { case c <- j: ...; default: ... }]: the send goes through
    when a receiver is parked (direct hand-off) or the buffer has room;
    otherwise the default branch runs and the channel is untouched. *)
Definition trySend (c : chan) (j : Job) : option chan :=
  match recvq c with
  | S n => Some {| buf := buf c; cap := cap c; recvq := n;
                   taken := taken c ++ [j] |}
  | O =>
      if (length (buf c) <? cap c)%nat
      then Some {| buf := buf c ++ [j]; cap := cap c; recvq := 0;
                   taken := taken c |}
      else None
  end.

(** The dispatcher's [job := <-jobs]: takes the oldest buffered job, or
    parks when the buffer is empty. *)
Definition recv (c : chan) : chan :=
  match buf c with
  | j :: rest => {| buf := rest; cap := cap c; recvq := recvq c;
                    taken := taken c ++ [j] |}
  | [] => {| buf := []; cap := cap c; recvq := S (recvq c);
             taken := taken c |}
  end.

(** [json.Unmarshal(body, &webhook)]; [None] is a decoding error. *)
Variable json_Unmarshal : list byte -> option SentryWebhook.

Definition status_queued : string :=
  "{" +:+ dq +:+ "status" +:+ dq +:+ ":" +:+ dq +:+ "queued" +:+ dq +:+ "}".

(** [Handler.ServeHTTP]; the world is the state of [h.jobQueue].  Log
    output is not modelled, the evaluation of the log arguments is: the
    first [log.Printf] after decoding reads [webhook.Data.Issue.ID]
    through the [*Issue] pointer. *)
Definition ServeHTTP : http.Handler chan :=
  fun w r q =>
    if negb (String.eqb (http.Method r) http.MethodPost) then
      http.Return (http.Error w "method not allowed" http.StatusMethodNotAllowed) q
    else
      let '(body, err) := http.ReadAll (http.Body r) in
      match err with
      | Some _ =>
          http.Return (http.Error w "failed to read body" http.StatusBadRequest) q
      | None =>
          match json_Unmarshal body with
          | None =>
              http.Return (http.Error w "invalid payload" http.StatusBadRequest) q
          | Some webhook =>
              match Data_Issue (Data webhook) with
              | None =>
                  http.Panic "invalid memory address or nil pointer dereference" w q
              | Some _ =>
                  if negb (String.eqb (Action webhook) "created")
                     && negb (String.eqb (Action webhook) "triggered")
                  then http.Return (http.WriteHeader w http.StatusAccepted) q
                  else
                    match ParseWebhook webhook with
                    | None =>
                        http.Return (http.WriteHeader w http.StatusAccepted) q
                    | Some parsed =>
                        let q' :=
                          match trySend q {| Webhook := webhook;
                                             Job_ParsedError := parsed |} with
                          | Some q' => q'
                          | None => q
                          end in
                        http.Return
                          (http.Write (http.WriteHeader w http.StatusAccepted)
                             status_queued) q'
                    end
              end
          end
      end.

End Types.

Arguments JNull {float64}.
Arguments JBool {float64}.
Arguments JNumber {float64}.
Arguments JString {float64}.
Arguments JArray {float64}.
Arguments JObject {float64}.
Arguments Entry_Type {float64}.
Arguments Entry_Data {float64}.
Arguments EventID {float64}.
Arguments Entries {float64}.
Arguments Message {float64}.
Arguments Event_Platform {float64}.
Arguments Event_Title {float64}.
Arguments Event_Type {float64}.
Arguments Data_Issue {float64}.
Arguments Data_Event {float64}.
Arguments Action {float64}.
Arguments Data {float64}.
Arguments Webhook_Actor {float64}.
Arguments getBool {float64}.
Arguments frame_of {float64}.
Arguments range_frames {float64}.
Arguments range_values {float64}.
Arguments range_entries {float64}.
Arguments ParseWebhook {float64}.
Arguments as_object {float64}.
Arguments as_array {float64}.
Arguments stack_frames {float64}.
Arguments exception_values {float64}.
Arguments exception_frames {float64}.
Arguments Webhook {float64}.
Arguments Job_ParsedError {float64}.
Arguments buf {float64}.
Arguments cap {float64}.
Arguments recvq {float64}.
Arguments taken {float64}.
Arguments chan_ok {float64}.
Arguments trySend {float64}.
Arguments recv {float64}.
Arguments ServeHTTP {float64}.

Definition status_ok : string :=
  "{" +:+ dq +:+ "status" +:+ dq +:+ ":" +:+ dq +:+ "ok" +:+ dq +:+ "}".

(** [HealthHandler] *)
Definition HealthHandler {W : Type} : http.Handler W :=
  fun w r st =>
    http.Return (http.Write (http.WriteHeader w http.StatusOK) status_ok) st.

End webhook.

(** [strings.ToUpper] on ASCII text. *)
Definition strings_ToUpper (s : string) : string :=
  string_of_list_ascii
    (map (fun c => let n := nat_of_ascii c in
                   if (97 <=? n)%nat && (n <=? 122)%nat
                   then ascii_of_nat (n - 32) else c)
         (list_ascii_of_string s)).

(** [s[n:]] *)
Fixpoint string_drop (n : nat) (s : string) : string :=
  match n, s with
  | S n', String _ s' => string_drop n' s'
  | _, _ => s
  end.

(** [strings.TrimPrefix] *)
Definition strings_TrimPrefix (s prefix : string) : string :=
  if String.prefix prefix s then string_drop (String.length prefix) s else s.

(** [strings.Contains] *)
Fixpoint strings_Contains (s substr : string) : bool :=
  if String.prefix substr s then true
  else match s with
       | EmptyString => false
       | String _ s' => strings_Contains s' substr
       end.

(** ** Package [gitprovider] *)
Module gitprovider.

(** *** provider.go *)

Record FileChange := { Path : string; Content : string; Mode : string }.

Record PRRequest := {
  Title : string; Body : string; Head : string; Base : string;
  Draft : bool; Labels : list string; Assignees : list string }.

Record PRResponse := { Number : Z; URL : string; HTMLURL : string }.

(** A Go [(T, error)] result; an error is its message. *)
Inductive result (A : Type) :=
| Ok (a : A)
| Err (e : string).
Arguments Ok {A}.
Arguments Err {A}.

(** *** The remote: the GitHub REST API as go-github exposes it

    The remote is outside the repository.  It is modelled as the object
    store of the one repository the provider is bound to, with the
    semantics of the Git Data, Pulls and Issues endpoints the provider
    relies on, a record of the calls received and a fault plan: [outage n]
    is the error (network, authorization) that makes the [n]-th call
    fail. *)
Module github.

Record TreeEntry := {
  te_Path : string; te_Mode : string; te_Type : string; te_Content : string }.

Record Blob := { blob_mode : string; blob_content : string }.

Record Reference := { Ref : string; Object_SHA : string }.

Record Tree := { Tree_SHA : string }.

Record Commit := {
  SHA : string; Message : string; Commit_Tree : Tree;
  Parents : list string }.

Record NewPullRequest := {
  np_Title : string; np_Body : string; np_Head : string;
  np_Base : string; np_Draft : bool }.

Record PullRequest := {
  pr_Number : Z; pr_URL : string; pr_HTMLURL : string;
  pr_New : NewPullRequest;
  pr_Labels : list string; pr_Assignees : list string }.

Inductive call :=
| GetRef (ref : string)
| GetCommit (sha : string)
| CreateTree (baseTree : string) (entries : list TreeEntry)
| CreateCommit (message tree : string) (parents : list string)
| UpdateRef (ref sha : string) (force : bool)
| CreateRef (ref sha : string)
| CreatePull (pull : NewPullRequest)
| AddLabelsToIssue (number : Z) (labels : list string)
| AddAssignees (number : Z) (assignees : list string).

Record remote := {
  refs : gmap string string;
  commits : gmap string Commit;
  trees : gmap string (gmap string Blob);
  pulls : list PullRequest;
  objects : nat;
  calls : list call;
  outage : nat -> option string }.

Definition M (A : Type) : Type := remote -> result A * remote.

Definition ret {A} (a : A) : M A := fun s => (Ok a, s).

Definition bind {A B} (m : M A) (k : A -> M B) : M B :=
  fun s => match m s with
           | (Ok a, s') => k a s'
           | (Err e, s') => (Err e, s')
           end.

(** [if err != nil { return ..., fmt.Errorf(prefix + "%w", err) }] *)
Definition wrap {A} (prefix : string) (m : M A) : M A :=
  fun s => match m s with
           | (Err e, s') => (Err (prefix +:+ e), s')
           | r => r
           end.

(** [if err != nil { fmt.Printf("warning: ...") }]: the error is
    dropped, the state the call left is kept. *)
Definition nonfatal {A} (m : M A) : M unit :=
  fun s => (Ok tt, snd (m s)).

Definition with_refs (s : remote) (r : gmap string string) : remote :=
  {| refs := r; commits := commits s; trees := trees s; pulls := pulls s;
     objects := objects s; calls := calls s; outage := outage s |}.

Definition with_commit (s : remote) (c : Commit) : remote :=
  {| refs := refs s; commits := <[SHA c := c]> (commits s);
     trees := trees s; pulls := pulls s; objects := S (objects s);
     calls := calls s; outage := outage s |}.

Definition with_tree (s : remote) (id : string) (t : gmap string Blob) : remote :=
  {| refs := refs s; commits := commits s; trees := <[id := t]> (trees s);
     pulls := pulls s; objects := S (objects s);
     calls := calls s; outage := outage s |}.

Definition with_pulls (s : remote) (p : list PullRequest) : remote :=
  {| refs := refs s; commits := commits s; trees := trees s; pulls := p;
     objects := objects s; calls := calls s; outage := outage s |}.

Definition logged (s : remote) (c : call) : remote :=
  {| refs := refs s; commits := commits s; trees := trees s;
     pulls := pulls s; objects := objects s; calls := calls s ++ [c];
     outage := outage s |}.

(** One round trip: the call is recorded, fails if the fault plan says
    so, and is otherwise served. *)
Definition request {A} (c : call) (serve : M A) : M A :=
  fun s => match outage s (length (calls s)) with
           | Some e => (Err e, logged s c)
           | None => serve (logged s c)
           end.

Definition api (owner repo : string) : string :=
  "https://api.github.com/repos/" +:+ owner +:+ "/" +:+ repo.

(** [ErrorResponse.Error()]: method, URL, status, message, errors. *)
Definition ErrorResponse (method url : string) (status : Z) (message : string)
  : string :=
  method +:+ " " +:+ url +:+ ": " +:+ pretty status +:+ " " +:+ message +:+ " []".

(** Name of the next object the store creates. *)
Definition fresh (s : remote) : string := pretty (objects s).

Definition overlay (base : gmap string Blob) (entries : list TreeEntry)
  : gmap string Blob :=
  fold_left (fun t e =>
               <[te_Path e := {| blob_mode := te_Mode e;
                                 blob_content := te_Content e |}]> t)
            entries base.

(** The tree a [base_tree] parameter denotes, if any. *)
Definition base_tree (s : remote) (baseTree : string) : option (gmap string Blob) :=
  if String.eqb baseTree "" then Some ∅ else trees s !! baseTree.

Section Endpoints.
Variables owner repo : string.

Definition Git_GetRef (ref : string) : M Reference :=
  request (GetRef ref) (fun s =>
    match refs s !! ref with
    | Some sha => (Ok {| Ref := ref; Object_SHA := sha |}, s)
    | None => (Err (ErrorResponse "GET"
                      (api owner repo +:+ "/git/ref/" +:+ strings_TrimPrefix ref "refs/")
                      404 "Not Found"), s)
    end).

Definition Git_GetCommit (sha : string) : M Commit :=
  request (GetCommit sha) (fun s =>
    match commits s !! sha with
    | Some c => (Ok c, s)
    | None => (Err (ErrorResponse "GET" (api owner repo +:+ "/git/commits/" +:+ sha)
                      404 "Not Found"), s)
    end).

(** With a base tree, entries are laid over it; an empty [baseTree]
    starts from the empty tree. *)
Definition Git_CreateTree (baseTree : string) (entries : list TreeEntry)
  : M Tree :=
  request (CreateTree baseTree entries) (fun s =>
    match base_tree s baseTree with
    | Some t =>
        (Ok {| Tree_SHA := fresh s |}, with_tree s (fresh s) (overlay t entries))
    | None => (Err (ErrorResponse "POST" (api owner repo +:+ "/git/trees")
                      404 "Not Found"), s)
    end).

(** [CreateCommit] sends the message, the tree's SHA and the parents'
    SHAs. *)
Definition Git_CreateCommit (message : string) (tree : Tree)
    (parents : list string) : M Commit :=
  request (CreateCommit message (Tree_SHA tree) parents) (fun s =>
    match trees s !! Tree_SHA tree with
    | Some _ =>
        let c := {| SHA := fresh s; Message := message;
                    Commit_Tree := tree; Parents := parents |} in
        (Ok c, with_commit s c)
    | None => (Err (ErrorResponse "POST" (api owner repo +:+ "/git/commits")
                      422 "Tree SHA does not exist"), s)
    end).

Definition Git_UpdateRef (ref : Reference) (force : bool) : M Reference :=
  request (UpdateRef (Ref ref) (Object_SHA ref) force) (fun s =>
    match refs s !! Ref ref with
    | Some _ => (Ok ref, with_refs s (<[Ref ref := Object_SHA ref]> (refs s)))
    | None => (Err (ErrorResponse "PATCH" (api owner repo +:+ "/git/" +:+ Ref ref)
                      422 "Reference does not exist"), s)
    end).

Definition Git_CreateRef (ref : Reference) : M Reference :=
  request (CreateRef (Ref ref) (Object_SHA ref)) (fun s =>
    match refs s !! Ref ref with
    | Some _ => (Err (ErrorResponse "POST" (api owner repo +:+ "/git/refs")
                        422 "Reference already exists"), s)
    | None =>
        match commits s !! Object_SHA ref with
        | Some _ => (Ok ref, with_refs s (<[Ref ref := Object_SHA ref]> (refs s)))
        | None => (Err (ErrorResponse "POST" (api owner repo +:+ "/git/refs")
                          422 "Object does not exist"), s)
        end
    end).

Definition PullRequests_Create (pull : NewPullRequest) : M PullRequest :=
  request (CreatePull pull) (fun s =>
    match refs s !! ("refs/heads/" +:+ np_Head pull),
          refs s !! ("refs/heads/" +:+ np_Base pull) with
    | Some _, Some _ =>
        let n := Z.of_nat (S (length (pulls s))) in
        let p := {| pr_Number := n;
                    pr_URL := api owner repo +:+ "/pulls/" +:+ pretty n;
                    pr_HTMLURL := "https://github.com/" +:+ owner +:+ "/"
                                    +:+ repo +:+ "/pull/" +:+ pretty n;
                    pr_New := pull; pr_Labels := []; pr_Assignees := [] |} in
        (Ok p, with_pulls s (pulls s ++ [p]))
    | _, _ => (Err (ErrorResponse "POST" (api owner repo +:+ "/pulls")
                      422 "Validation Failed"), s)
    end).

Definition amend (number : Z) (f : PullRequest -> PullRequest)
    (ps : list PullRequest) : list PullRequest :=
  map (fun p => if pr_Number p =? number then f p else p) ps.

Definition issue_exists (s : remote) (number : Z) : bool :=
  existsb (fun p => pr_Number p =? number) (pulls s).

Definition Issues_AddLabelsToIssue (number : Z) (labels : list string)
  : M (list string) :=
  request (AddLabelsToIssue number labels) (fun s =>
    if issue_exists s number then
      (Ok labels,
       with_pulls s (amend number (fun p =>
         {| pr_Number := pr_Number p; pr_URL := pr_URL p;
            pr_HTMLURL := pr_HTMLURL p; pr_New := pr_New p;
            pr_Labels := pr_Labels p ++ labels;
            pr_Assignees := pr_Assignees p |}) (pulls s)))
    else (Err (ErrorResponse "POST"
                 (api owner repo +:+ "/issues/" +:+ pretty number +:+ "/labels")
                 404 "Not Found"), s)).

Definition Issues_AddAssignees (number : Z) (assignees : list string)
  : M unit :=
  request (AddAssignees number assignees) (fun s =>
    if issue_exists s number then
      (Ok tt,
       with_pulls s (amend number (fun p =>
         {| pr_Number := pr_Number p; pr_URL := pr_URL p;
            pr_HTMLURL := pr_HTMLURL p; pr_New := pr_New p;
            pr_Labels := pr_Labels p;
            pr_Assignees := pr_Assignees p ++ assignees |}) (pulls s)))
    else (Err (ErrorResponse "POST"
                 (api owner repo +:+ "/issues/" +:+ pretty number +:+ "/assignees")
                 404 "Not Found"), s)).

End Endpoints.

End github.

Import github.

Notation "'let*' x ':=' m 'in' k" := (bind m (fun x => k))
  (at level 10, x name, m at level 100, k at level 200).

(** *** github.go *)

Record GitHubProvider := { owner : string; repo : string }.

Definition CreateBranch (g : GitHubProvider) (name baseSHA : string) : M unit :=
  fun s =>
    let ref := {| Ref := "refs/heads/" +:+ name; Object_SHA := baseSHA |} in
    match Git_CreateRef (owner g) (repo g) ref s with
    | (Err err, s') =>
        if strings_Contains err "Reference already exists" then (Ok tt, s')
        else (Err ("failed to create branch " +:+ name +:+ ": " +:+ err), s')
    | (Ok _, s') => (Ok tt, s')
    end.

(** The loop building [treeEntries]. *)
Definition tree_entries (files : list FileChange) : list TreeEntry :=
  fold_left (fun treeEntries file =>
               let mode := if String.eqb (Mode file) "" then "100644"
                           else Mode file in
               treeEntries ++ [ {| te_Path := Path file; te_Mode := mode;
                                   te_Type := "blob";
                                   te_Content := Content file |} ])
            files [].

Definition CommitFiles (g : GitHubProvider) (branch : string)
    (files : list FileChange) (message : string) : M string :=
  let* ref := wrap "failed to get branch ref: "
                (Git_GetRef (owner g) (repo g) ("refs/heads/" +:+ branch)) in
  let parentSHA := Object_SHA ref in
  let* parentCommit := wrap "failed to get parent commit: "
                         (Git_GetCommit (owner g) (repo g) parentSHA) in
  let baseTreeSHA := Tree_SHA (Commit_Tree parentCommit) in
  let treeEntries := tree_entries files in
  let* newTree := wrap "failed to create tree: "
                    (Git_CreateTree (owner g) (repo g) baseTreeSHA treeEntries) in
  let* newCommit := wrap "failed to create commit: "
                      (Git_CreateCommit (owner g) (repo g) message newTree [parentSHA]) in
  let ref := {| Ref := Ref ref; Object_SHA := SHA newCommit |} in
  let* _ := wrap "failed to update branch ref: "
              (Git_UpdateRef (owner g) (repo g) ref false) in
  ret (SHA newCommit).



Definition CreatePullRequest (g : GitHubProvider) (req : PRRequest)
  : M PRResponse :=
  let pr := {| np_Title := Title req; np_Body := Body req;
               np_Head := Head req; np_Base := Base req;
               np_Draft := Draft req |} in
  let* created := wrap "failed to create pull request: "
                    (PullRequests_Create (owner g) (repo g) pr) in
  let* _ := if (0 <? length (Labels req))%nat
            then nonfatal (Issues_AddLabelsToIssue (owner g) (repo g)
                             (pr_Number created) (Labels req))
            else ret tt in
  let* _ := if (0 <? length (Assignees req))%nat
            then nonfatal (Issues_AddAssignees (owner g) (repo g)
                             (pr_Number created) (Assignees req))
            else ret tt in
  ret {| Number := pr_Number created; URL := pr_URL created;
         HTMLURL := pr_HTMLURL created |}.

Definition GetLatestCommitSHA (g : GitHubProvider) (branch : string) : M string :=
  let* ref := wrap ("failed to get ref for branch " +:+ branch +:+ ": ")
                (Git_GetRef (owner g) (repo g) ("refs/heads/" +:+ branch)) in
  ret (Object_SHA ref).

(** A repository the store can keep serving: names the store will hand out
    are not taken yet, every reference points to a stored commit, every
    stored commit is filed under its own SHA and its tree is stored. *)
Definition names_free (s : remote) : Prop :=
  forall k, (objects s <= k)%nat ->
    commits s !! pretty k = None /\ trees s !! pretty k = None.

Definition closed (s : remote) : Prop :=
  (forall r sha, refs s !! r = Some sha -> is_Some (commits s !! sha))
  /\ (forall id c, commits s !! id = Some c ->
        SHA c = id /\ is_Some (trees s !! Tree_SHA (Commit_Tree c))).

Definition remote_ok (s : remote) : Prop := names_free s /\ closed s.

End gitprovider.

(** ** More of the Go standard library: UTF-8, spaces, splitting *)

(** [unicode/utf8] *)
Module utf8.

Definition RuneError : Z := 0xFFFD.
Definition RuneSelf : Z := 0x80.
Definition UTFMax : Z := 4.

Definition code (c : ascii) : Z := Z.of_N (N_of_ascii c).

(** The tables [first] and [acceptRanges] for the leading byte of a
    multi-byte sequence: the length of the sequence and the range its
    second byte must lie in; [None] for an ASCII or an invalid byte. *)
Definition first (b : Z) : option (nat * Z * Z) :=
  if (0xC2 <=? b) && (b <=? 0xDF) then Some (2%nat, 0x80, 0xBF)
  else if b =? 0xE0 then Some (3%nat, 0xA0, 0xBF)
  else if (0xE1 <=? b) && (b <=? 0xEC) then Some (3%nat, 0x80, 0xBF)
  else if b =? 0xED then Some (3%nat, 0x80, 0x9F)
  else if (0xEE <=? b) && (b <=? 0xEF) then Some (3%nat, 0x80, 0xBF)
  else if b =? 0xF0 then Some (4%nat, 0x90, 0xBF)
  else if (0xF1 <=? b) && (b <=? 0xF3) then Some (4%nat, 0x80, 0xBF)
  else if b =? 0xF4 then Some (4%nat, 0x80, 0x8F)
  else None.

(** A continuation byte, [locb <= b <= hicb]. *)
Definition cont (b : Z) : bool := (0x80 <=? b) && (b <=? 0xBF).

(** [DecodeRuneInString]: the rune and its width in bytes. *)
Definition DecodeRune (p : list ascii) : Z * nat :=
  match p with
  | [] => (RuneError, 0%nat)
  | c0 :: _ =>
      let s0 := code c0 in
      match first s0 with
      | None => if s0 <? RuneSelf then (s0, 1%nat) else (RuneError, 1%nat)
      | Some (sz, lo, hi) =>
          if (length p <? sz)%nat then (RuneError, 1%nat)
          else
            let s1 := code (nth 1 p zero) in
            if (s1 <? lo) || (hi <? s1) then (RuneError, 1%nat)
            else if (sz <=? 2)%nat
            then (Z.lor (Z.shiftl (Z.land s0 0x1F) 6) (Z.land s1 0x3F), 2%nat)
            else
              let s2 := code (nth 2 p zero) in
              if negb (cont s2) then (RuneError, 1%nat)
              else if (sz <=? 3)%nat
              then (Z.lor (Z.lor (Z.shiftl (Z.land s0 0x0F) 12)
                                 (Z.shiftl (Z.land s1 0x3F) 6))
                          (Z.land s2 0x3F), 3%nat)
              else
                let s3 := code (nth 3 p zero) in
                if negb (cont s3) then (RuneError, 1%nat)
                else (Z.lor (Z.lor (Z.lor (Z.shiftl (Z.land s0 0x07) 18)
                                          (Z.shiftl (Z.land s1 0x3F) 12))
                                   (Z.shiftl (Z.land s2 0x3F) 6))
                            (Z.land s3 0x3F), 4%nat)
      end
  end.

(** [RuneStart]: not a continuation byte. *)
Definition RuneStart (b : Z) : bool := negb (Z.land b 0xC0 =? 0x80).

(** The backward search of [DecodeLastRuneInString]:
    [for start--; start >= lim; start-- { if RuneStart(s[start]) { break } }],
    entered with [start] already decremented. *)
Fixpoint back (fuel : nat) (p : list ascii) (start lim : Z) : Z :=
  match fuel with
  | O => start
  | S fuel' =>
      if start <? lim then start
      else if RuneStart (code (nth (Z.to_nat start) p zero)) then start
      else back fuel' p (start - 1) lim
  end.

(** [DecodeLastRuneInString] *)
Definition DecodeLastRune (p : list ascii) : Z * nat :=
  let end_ := Z.of_nat (length p) in
  if end_ =? 0 then (RuneError, 0%nat)
  else
    let r := code (nth (Z.to_nat (end_ - 1)) p zero) in
    if r <? RuneSelf then (r, 1%nat)
    else
      let lim := Z.max 0 (end_ - UTFMax) in
      let start := back 4 p (end_ - 2) lim in
      let start := if start <? 0 then 0 else start in
      let '(r, size) := DecodeRune (skipn (Z.to_nat start) p) in
      if negb (start + Z.of_nat size =? end_) then (RuneError, 1%nat)
      else (r, size).

End utf8.

(** [unicode] *)
Module unicode.

(** [IsSpace]: the Latin-1 switch, then the [White_Space] table. *)
Definition IsSpace (r : Z) : bool :=
  if r <=? 0xFF
  then (r =? 0x09) || (r =? 0x0A) || (r =? 0x0B) || (r =? 0x0C) || (r =? 0x0D)
       || (r =? 0x20) || (r =? 0x85) || (r =? 0xA0)
  else (r =? 0x1680) || ((0x2000 <=? r) && (r <=? 0x200A))
       || (r =? 0x2028) || (r =? 0x2029) || (r =? 0x202F) || (r =? 0x205F)
       || (r =? 0x3000).

End unicode.

(** [strings.TrimLeftFunc]: [indexFunc(s, f, false)] walks the runes from
    the left; one rune per unit of [fuel]. *)
Fixpoint trim_left (f : Z -> bool) (fuel : nat) (p : list ascii) : list ascii :=
  match fuel with
  | O => []
  | S fuel' =>
      match p with
      | [] => []
      | _ :: _ =>
          let '(r, size) := utf8.DecodeRune p in
          if f r then trim_left f fuel' (skipn size p) else p
      end
  end.

Definition strings_TrimLeftFunc (f : Z -> bool) (p : list ascii) : list ascii :=
  trim_left f (length p) p.

(** [lastIndexFunc(s, f, false)] over [p = s[0:i]]: the index where the last
    rune not satisfying [f] starts. *)
Fixpoint last_index (f : Z -> bool) (fuel : nat) (p : list ascii) : option nat :=
  match fuel with
  | O => None
  | S fuel' =>
      match p with
      | [] => None
      | _ :: _ =>
          let '(r, size) := utf8.DecodeLastRune p in
          let i := (length p - size)%nat in
          if f r then last_index f fuel' (firstn i p) else Some i
      end
  end.

(** [strings.TrimRightFunc] *)
Definition strings_TrimRightFunc (f : Z -> bool) (p : list ascii) : list ascii :=
  match last_index f (length p) p with
  | Some i =>
      if utf8.RuneSelf <=? utf8.code (nth i p zero)
      then let '(_, wid) := utf8.DecodeRune (skipn i p) in firstn (i + wid) p
      else firstn (S i) p
  | None => []
  end.

Definition strings_TrimFunc (f : Z -> bool) (p : list ascii) : list ascii :=
  strings_TrimRightFunc f (strings_TrimLeftFunc f p).

(** The table [asciiSpace]. *)
Definition asciiSpace (b : Z) : bool :=
  (b =? 0x09) || (b =? 0x0A) || (b =? 0x0B) || (b =? 0x0C) || (b =? 0x0D)
  || (b =? 0x20).

(** One of the two loops of [strings.TrimSpace]: skip ASCII spaces; the
    flag tells that the loop stopped at a byte that is not ASCII. *)
Fixpoint skip_ascii_space (p : list ascii) : list ascii * bool :=
  match p with
  | [] => ([], false)
  | c :: p' =>
      if utf8.RuneSelf <=? utf8.code c then (p, true)
      else if asciiSpace (utf8.code c) then skip_ascii_space p'
      else (p, false)
  end.

(** [strings.TrimSpace] on the bytes of the string: the first loop runs
    from the left, the second from the right (on the reversed rest); a
    byte that is not ASCII hands over to the rune-aware functions. *)
Definition TrimSpace_bytes (p : list ascii) : list ascii :=
  let '(rest, slow) := skip_ascii_space p in
  if slow then strings_TrimFunc unicode.IsSpace rest
  else
    let '(tser, slow') := skip_ascii_space (rev rest) in
    if slow' then strings_TrimRightFunc unicode.IsSpace (rev tser)
    else rev tser.

Definition strings_TrimSpace (s : string) : string :=
  string_of_list_ascii (TrimSpace_bytes (list_ascii_of_string s)).

(** A string without an ASCII space character at either end. *)
Definition trimmed (s : string) : Prop :=
  forall c rest,
    list_ascii_of_string s = c :: rest \/ list_ascii_of_string s = rest ++ [c] ->
    asciiSpace (utf8.code c) = false.

(** [genSplit] for a one-byte separator, which is what every call in this
    repository passes: at most [cuts] cuts, the rest is left whole. *)
Fixpoint genSplit (cuts : nat) (s : string) (sep : ascii) : list string :=
  match s with
  | EmptyString => [EmptyString]
  | String c s' =>
      match cuts with
      | O => [s]
      | S cuts' =>
          if Ascii.eqb c sep then EmptyString :: genSplit cuts' s' sep
          else match genSplit cuts s' sep with
               | piece :: pieces => String c piece :: pieces
               | [] => [String c EmptyString]
               end
      end
  end.

(** [strings.Split(s, sep)]: [n = Count(s, sep) + 1] pieces; a string has
    at most [len(s)] separators. *)
Definition strings_Split (s : string) (sep : ascii) : list string :=
  genSplit (String.length s) s sep.

(** [strings.SplitN(s, sep, n)] *)
Definition strings_SplitN (s : string) (sep : ascii) (n : Z) : list string :=
  if n =? 0 then []
  else if n <? 0 then strings_Split s sep
  else genSplit (Z.to_nat (Z.min n (Z.of_nat (String.length s) + 1)) - 1) s sep.

(** [strings.Join] with a one-byte separator. *)
Fixpoint strings_Join (elems : list string) (sep : ascii) : string :=
  match elems with
  | [] => EmptyString
  | [e] => e
  | e :: rest => e +:+ String sep (strings_Join rest sep)
  end.

(** ** Package [config] *)
Module config.

Record RepoMapping := {
  SentryProject : string; Owner : string; Repo : string }.

Record Config := {
  Port : string; SentryWebhookSecret : string; GitHubToken : string;
  AnthropicAPIKey : string; RepoMappings : list RepoMapping }.

(** The errors of the package: [errors.New(text)] and the two
    [fmt.Errorf] of [parseRepoMappings], each with the value it quotes. *)
Inductive error :=
| errors_New (text : string)
| invalid_repo_mapping_format (pair1 : string)
| invalid_repo_path_format (repoPath : string).

Inductive result (A : Type) :=
| Ok (a : A)
| Err (e : error).
Arguments Ok {A}.
Arguments Err {A}.

(** [os.Getenv] over the process environment: [""] when unset. *)
Definition os_Getenv (env : gmap string string) (key : string) : string :=
  default EmptyString (env !! key).

Definition getEnv (env : gmap string string) (key defaultVal : string) : string :=
  let val := os_Getenv env key in
  if negb (String.eqb val "") then val else defaultVal.

(** The loop of [parseRepoMappings] over the pairs, [mappings] being what
    has been appended so far. *)
Fixpoint range_pairs (pairs : list string) (mappings : list RepoMapping)
  : result (list RepoMapping) :=
  match pairs with
  | [] => Ok mappings
  | pair0 :: rest =>
      let pair1 := strings_TrimSpace pair0 in
      if String.eqb pair1 "" then range_pairs rest mappings
      else
        match strings_SplitN pair1 ":" 2 with
        | [part0; part1] =>
            let sentryProject := strings_TrimSpace part0 in
            let repoPath := strings_TrimSpace part1 in
            match strings_SplitN repoPath "/" 2 with
            | [repoPart0; repoPart1] =>
                range_pairs rest
                  (mappings ++ [ {| SentryProject := sentryProject;
                                    Owner := strings_TrimSpace repoPart0;
                                    Repo := strings_TrimSpace repoPart1 |} ])
            | _ => Err (invalid_repo_path_format repoPath)
            end
        | _ => Err (invalid_repo_mapping_format pair1)
        end
  end.

Definition parseRepoMappings (s : string) : result (list RepoMapping) :=
  match range_pairs (strings_Split s ",") [] with
  | Ok [] => Err (errors_New "REPO_MAPPINGS must contain at least one mapping")
  | r => r
  end.

(** The loop of [GetRepoMapping]; [None] is the [nil] result. *)
Fixpoint first_mapping (mappings : list RepoMapping) (sentryProject : string)
  : option RepoMapping :=
  match mappings with
  | [] => None
  | m :: rest =>
      if String.eqb (SentryProject m) sentryProject then Some m
      else first_mapping rest sentryProject
  end.

Definition GetRepoMapping (c : Config) (sentryProject : string)
  : option RepoMapping :=
  first_mapping (RepoMappings c) sentryProject.

Definition Load (env : gmap string string) : result Config :=
  let port := getEnv env "PORT" "8080" in
  let secret := os_Getenv env "SENTRY_WEBHOOK_SECRET" in
  let token := os_Getenv env "GITHUB_TOKEN" in
  let key := os_Getenv env "ANTHROPIC_API_KEY" in
  if String.eqb secret "" then Err (errors_New "SENTRY_WEBHOOK_SECRET is required")
  else if String.eqb token "" then Err (errors_New "GITHUB_TOKEN is required")
  else
    let mappingsStr := os_Getenv env "REPO_MAPPINGS" in
    if String.eqb mappingsStr "" then Err (errors_New "REPO_MAPPINGS is required")
    else
      match parseRepoMappings mappingsStr with
      | Err err => Err err
      | Ok mappings =>
          Ok {| Port := port; SentryWebhookSecret := secret;
                GitHubToken := token; AnthropicAPIKey := key;
                RepoMappings := mappings |}
      end.

(** The text the configuration format prescribes for a list of mappings:
    [project:owner/repo] joined by commas. *)
Definition format_mapping (m : RepoMapping) : string :=
  SentryProject m +:+ ":" +:+ Owner m +:+ "/" +:+ Repo m.

Definition format_mappings (ms : list RepoMapping) : string :=
  strings_Join (map format_mapping ms) ",".

(** A printable ASCII character other than the space, and a field made of
    such characters without the given separators. *)
Definition graphic (c : ascii) : bool :=
  (0x21 <=? utf8.code c) && (utf8.code c <=? 0x7E).

Definition plain (seps : list ascii) (s : string) : Prop :=
  Forall (fun c => graphic c = true /\ ~ In c seps) (list_ascii_of_string s).

End config.

(** ** The job processor of the server ([main]) *)
Module server.

Section Dispatch.

Context {float64 : Type}.

(** The fix a pipeline run proposes, and [agent.Pipeline.Run] itself: the
    package [agent] is not among the sources, so the outcome of a run is
    taken as given ([None] is an error). *)
Variable Fix : Type.
Variable pipeline_Run : string -> string -> webhook.ParsedError -> option Fix.

(** What [processJob] asks of the [agent] package, in order. *)
Inductive action :=
| RunPipeline (repoURL token : string) (parsed : webhook.ParsedError)
| CreatePullRequest (provider : gitprovider.GitHubProvider)
    (parsed : webhook.ParsedError) (fix_ : Fix).

(** [processJob]; log output is not modelled. *)
Definition processJob (cfg : config.Config) (job : webhook.Job float64)
  : list action :=
  let parsed := webhook.Job_ParsedError job in
  match config.GetRepoMapping cfg (webhook.ProjectSlug parsed) with
  | None => []
  | Some repoMapping =>
      let repoURL := "https://github.com/" +:+ config.Owner repoMapping +:+ "/"
                       +:+ config.Repo repoMapping +:+ ".git" in
      RunPipeline repoURL (config.GitHubToken cfg) parsed
        :: match pipeline_Run repoURL (config.GitHubToken cfg) parsed with
           | None => []
           | Some fix_ =>
               [ CreatePullRequest
                   {| gitprovider.owner := config.Owner repoMapping;
                      gitprovider.repo := config.Repo repoMapping |}
                   parsed fix_ ]
           end
  end.

End Dispatch.

Arguments RunPipeline {Fix}.
Arguments CreatePullRequest {Fix}.
Arguments processJob {float64 Fix}.

End server.

(** ** Sample inputs, after the package's tests *)
Module fixtures.

Import webhook.

(** A JSON string literal. *)
Definition q (s : string) : string := dq +:+ s +:+ dq.

(** A downstream handler that records that it ran, as the test's does. *)
Definition handlerCalled : http.Handler bool :=
  fun w r _ => http.Return (http.Write w "ok") true.

Definition unsigned_broken_request : http.Request :=
  {| http.Method := "POST"; http.Header := ∅;
     http.Body := http.wire [] (Some "unexpected EOF"%string) |}.

Definition signed_request (signature : string) (body : http.ReadCloser)
  : http.Request :=
  {| http.Method := "POST";
     http.Header := {[ "Sentry-Hook-Signature"%string := [signature] ]};
     http.Body := body |}.

Definition test_secret : string := "test-secret-key".

(** [{"action":"created"}] and [{"action":"tampered"}] *)
Definition body_created : list byte :=
  bytes_of ("{" +:+ q "action" +:+ ":" +:+ q "created" +:+ "}").

(** Decoded JSON numbers as rationals; [int(f)] drops the fraction. *)
Definition float64 : Type := QArith_base.Q.

Definition int_of_float64 (f : float64) : Z :=
  if QArith_base.Qle_bool (QArith_base.Qmake 0 1) f
  then Qround.Qfloor f else Qround.Qceiling f.

Definition zeroProject : Project :=
  {| Project_ID := ""; Project_Name := ""; Slug := ""; Project_Platform := "" |}.

Definition zeroMetadata : Metadata :=
  {| Metadata_Type := ""; Metadata_Value := "";
     Metadata_Filename := ""; Metadata_Function := "" |}.

Definition zeroIssue : Issue :=
  {| ID := ""; ShortID := ""; Title := ""; Culprit := ""; Permalink := "";
     Logger := ""; Level := ""; Status := ""; Platform := "";
     Issue_Project := zeroProject; Issue_Metadata := zeroMetadata;
     Count := ""; UserCount := 0 |}.

Definition zeroActor : Actor :=
  {| Actor_Type := ""; Actor_ID := ""; Actor_Name := "" |}.

(** The issue of [validWebhookPayload]. *)
Definition testIssue : Issue :=
  {| ID := "12345"; ShortID := "PROJ-1"; Title := "Test Error"; Culprit := "";
     Permalink := ""; Logger := ""; Level := "error"; Status := "";
     Platform := "";
     Issue_Project := {| Project_ID := ""; Project_Name := "";
                         Slug := "test-project"; Project_Platform := "" |};
     Issue_Metadata := zeroMetadata; Count := ""; UserCount := 0 |}.

Definition envelope (action : string) (issue : option Issue)
    (event : option (Event float64)) : SentryWebhook float64 :=
  {| Action := action;
     Data := {| Data_Issue := issue; Data_Event := event |};
     Webhook_Actor := zeroActor |}.

(** An envelope whose issue object is present but empty:
    [{"action":"created","data":{"issue":{}}}]. *)
Definition empty_issue_envelope : SentryWebhook float64 :=
  envelope "created" (Some zeroIssue) None.

Definition frameA : gmap string (jvalue float64) :=
  {[ "filename"%string := JString "app.py"; "function"%string := JString "handle";
     "inApp"%string := JBool true;
     "lineNo"%string := JNumber (QArith_base.Qmake 42 1) ]}.

Definition frameB : gmap string (jvalue float64) :=
  {[ "inApp"%string := JBool false ]}.

Definition exception_entry (frames : list (jvalue float64)) : Entry float64 :=
  {| Entry_Type := "exception";
     Entry_Data := JObject {[ "values"%string :=
       JArray [ JObject {[ "stacktrace"%string :=
         JObject {[ "frames"%string := JArray frames ]} ]} ] ]} |}.

(** An event with a breadcrumbs entry and two exception entries; the
    frames repeat and one array element is not an object. *)
Definition framesEvent : Event float64 :=
  {| EventID := ""; Message := ""; Event_Platform := ""; Event_Title := "";
     Event_Type := "";
     Entries := [ {| Entry_Type := "breadcrumbs"; Entry_Data := JNull |};
                  exception_entry [JObject frameA; JObject frameB; JNull];
                  exception_entry [JObject frameA; JObject frameA] ] |}.

Definition frames_envelope : SentryWebhook float64 :=
  envelope "created" (Some testIssue) (Some framesEvent).

(** [{"action":"resolved"}]: an envelope without a data object. *)
Definition json_resolved : string :=
  "{" +:+ q "action" +:+ ":" +:+ q "resolved" +:+ "}".

(** The payload of [validWebhookPayload], zero-valued fields left out. *)
Definition json_valid (action : string) : string :=
  "{" +:+ q "action" +:+ ":" +:+ q action +:+ "," +:+ q "data" +:+ ":{"
    +:+ q "issue" +:+ ":{" +:+ q "id" +:+ ":" +:+ q "12345" +:+ ","
    +:+ q "shortId" +:+ ":" +:+ q "PROJ-1" +:+ ","
    +:+ q "title" +:+ ":" +:+ q "Test Error" +:+ ","
    +:+ q "level" +:+ ":" +:+ q "error" +:+ ","
    +:+ q "project" +:+ ":{" +:+ q "slug" +:+ ":" +:+ q "test-project"
    +:+ "}}}}".

(** What [json.Unmarshal] yields on the sample payloads; any other body
    is taken as undecodable. *)
Definition decode (body : list byte) : option (SentryWebhook float64) :=
  let s := string_of_list_byte body in
  if String.eqb s json_resolved then Some (envelope "resolved" None None)
  else if String.eqb s (json_valid "created")
  then Some (envelope "created" (Some testIssue) None)
  else if String.eqb s (json_valid "triggered")
  then Some (envelope "triggered" (Some testIssue) None)
  else if String.eqb s (json_valid "resolved")
  then Some (envelope "resolved" (Some testIssue) None)
  else None.

Definition post (payload : string) : http.Request :=
  {| http.Method := "POST"; http.Header := ∅;
     http.Body := http.wire (bytes_of payload) None |}.

Definition testJob : Job float64 :=
  {| Webhook := envelope "created" (Some testIssue) None;
     Job_ParsedError :=
       {| IssueID := "12345"; ProjectSlug := "test-project";
          PE_Title := "Test Error"; ErrorType := ""; ErrorMessage := "";
          PE_Level := "error"; PE_Platform := ""; PE_Culprit := "";
          Frames := []; PE_Permalink := "" |} |}.

(** A queue of capacity two holding two jobs. *)
Definition full_queue : chan float64 :=
  {| buf := [testJob; testJob]; cap := 2; recvq := 0; taken := [] |}.

(** A repository with one commit on [main] and a branch [fix] at the same
    commit. *)
Definition tree0 : gmap string gitprovider.github.Blob :=
  {[ "README.md"%string :=
       {| gitprovider.github.blob_mode := "100644";
          gitprovider.github.blob_content := "hello" |};
     "run.sh"%string :=
       {| gitprovider.github.blob_mode := "100755";
          gitprovider.github.blob_content := "exit 0" |} ]}.

Definition commit0 : gitprovider.github.Commit :=
  {| gitprovider.github.SHA := "c0"; gitprovider.github.Message := "initial";
     gitprovider.github.Commit_Tree := {| gitprovider.github.Tree_SHA := "t0" |};
     gitprovider.github.Parents := [] |}.

Definition repository (plan : nat -> option string) : gitprovider.github.remote :=
  {| gitprovider.github.refs :=
       {[ "refs/heads/main"%string := "c0"%string;
          "refs/heads/fix"%string := "c0"%string ]};
     gitprovider.github.commits := {[ "c0"%string := commit0 ]};
     gitprovider.github.trees := {[ "t0"%string := tree0 ]};
     gitprovider.github.pulls := [];
     gitprovider.github.objects := 0;
     gitprovider.github.calls := [];
     gitprovider.github.outage := plan |}.

Definition healthy : nat -> option string := fun _ => None.

(** The remote answers the first call and fails every later one. *)
Definition down_after_first : nat -> option string :=
  fun n => match n with O => None | _ => Some "connection reset"%string end.

(** The remote fails exactly the [k]-th call. *)
Definition down_at (k : nat) : nat -> option string :=
  fun n => if (n =? k)%nat then Some "connection reset"%string else None.

Definition provider : gitprovider.GitHubProvider :=
  {| gitprovider.owner := "acme"; gitprovider.repo := "shop" |}.

Definition change : list gitprovider.FileChange :=
  [ {| gitprovider.Path := "README.md"; gitprovider.Content := "fixed";
       gitprovider.Mode := "" |} ].

Definition pr_request : gitprovider.PRRequest :=
  {| gitprovider.Title := "Fix"; gitprovider.Body := "Fixes the issue";
     gitprovider.Head := "fix"; gitprovider.Base := "main";
     gitprovider.Draft := false; gitprovider.Labels := ["sentry"%string];
     gitprovider.Assignees := ["octocat"%string] |}.

(** The same repository with the object names the store itself hands out:
    tree ["0"], commit ["1"], two objects created so far. *)
Definition numbered_repository (plan : nat -> option string)
  : gitprovider.github.remote :=
  {| gitprovider.github.refs :=
       {[ "refs/heads/main"%string := "1"%string;
          "refs/heads/fix"%string := "1"%string ]};
     gitprovider.github.commits :=
       {[ "1"%string :=
            {| gitprovider.github.SHA := "1";
               gitprovider.github.Message := "initial";
               gitprovider.github.Commit_Tree :=
                 {| gitprovider.github.Tree_SHA := "0" |};
               gitprovider.github.Parents := [] |} ]};
     gitprovider.github.trees := {[ "0"%string := tree0 ]};
     gitprovider.github.pulls := [];
     gitprovider.github.objects := 2;
     gitprovider.github.calls := [];
     gitprovider.github.outage := plan |}.

(** A request with another method. *)
Definition get_request : http.Request :=
  {| http.Method := "GET"; http.Header := ∅; http.Body := http.wire [] None |}.

(** A mapping list in the documented format, and one spelled loosely:
    spaces around the separators and a trailing comma. *)
Definition repo_mappings : list config.RepoMapping :=
  [ {| config.SentryProject := "my-project"; config.Owner := "myorg";
       config.Repo := "myrepo" |};
    {| config.SentryProject := "test-project"; config.Owner := "acme";
       config.Repo := "shop" |} ].

Definition loose_mappings : string :=
  " my-project : myorg / myrepo , test-project:acme/shop ,".

Definition environment : gmap string string :=
  {[ "SENTRY_WEBHOOK_SECRET"%string := test_secret;
     "GITHUB_TOKEN"%string := "ghp_token"%string;
     "REPO_MAPPINGS"%string := loose_mappings ]}.

Definition configuration : config.Config :=
  {| config.Port := "8080"; config.SentryWebhookSecret := test_secret;
     config.GitHubToken := "ghp_token"; config.AnthropicAPIKey := "";
     config.RepoMappings := repo_mappings |}.

(** A pipeline that fails, and one that proposes a fix. *)
Definition failing_pipeline : string -> string -> ParsedError -> option string :=
  fun _ _ _ => None.

Definition fixing_pipeline : string -> string -> ParsedError -> option string :=
  fun repoURL _ _ => Some ("fix for " +:+ repoURL)%string.

End fixtures.

(** * Properties *)

(** ** Bytes, comparison and hex encoding *)
Section Bytes.

(** Known answers: FIPS 180-2 for "abc", RFC 4231 test case 2. *)
Example sha256_abc :
  hex.EncodeToString (sha256.Sum256 (bytes_of "abc"))
  = "ba7816bf8f01cfea414140de5dae2223b00361a396177a9cb410ff61f20015ad"%string.
Proof. vm_compute. reflexivity. Qed.

Example hmac_sha256_rfc4231_case2 :
  hex.EncodeToString
    (hmac.Sum (bytes_of "Jefe") (bytes_of "what do ya want for nothing?"))
  = "5bdcc146bf60754e6a042426089575c75a003f089d2739839dec58b964ec3843"%string.
Proof. vm_compute. reflexivity. Qed.

(** A key longer than the block size is hashed first (RFC 4231, case 6). *)
Example hmac_sha256_rfc4231_case6 :
  hex.EncodeToString
    (hmac.Sum (repeat xaa 131)
       (bytes_of "Test Using Larger Than Block-Size Key - Hash Key First"))
  = "60e431591ee0b67f0d8a26aacbf5b77f8e0bc6213728c5140546040f0ee37f54"%string.
Proof. vm_compute. reflexivity. Qed.

Lemma byteZ_range (b : byte) : 0 <= sha256.byteZ b < 256.
Proof.
  unfold sha256.byteZ. pose proof (Byte.to_N_bounded b). lia.
Qed.

Lemma byteZ_inj (a b : byte) : sha256.byteZ a = sha256.byteZ b -> a = b.
Proof.
  unfold sha256.byteZ. intros H. apply N2Z.inj in H.
  pose proof (Byte.of_to_N a) as Ha. rewrite H, Byte.of_to_N in Ha.
  congruence.
Qed.

Lemma Zbyte_byteZ (b : byte) : sha256.Zbyte (sha256.byteZ b) = b.
Proof.
  unfold sha256.Zbyte. pose proof (byteZ_range b).
  rewrite Z.mod_small by lia. unfold sha256.byteZ.
  rewrite N2Z.id, Byte.of_to_N. reflexivity.
Qed.

Lemma lt_pow2_log2 (a n : Z) : 0 < n -> 0 <= a -> (a < 2 ^ n <-> Z.log2 a < n).
Proof.
  intros Hn Ha. destruct (Z.eq_dec a 0) as [->|Hne].
  - simpl. split; intros _; [lia | apply Z.pow_pos_nonneg; lia].
  - apply Z.log2_lt_pow2. lia.
Qed.

Lemma lor_range (a b n : Z) :
  0 < n -> 0 <= a < 2 ^ n -> 0 <= b < 2 ^ n -> 0 <= Z.lor a b < 2 ^ n.
Proof.
  intros Hn [Ha0 Ha] [Hb0 Hb]. split; [apply Z.lor_nonneg; lia|].
  apply lt_pow2_log2; [lia | apply Z.lor_nonneg; lia |].
  rewrite Z.log2_lor by lia.
  apply lt_pow2_log2 in Ha; [|lia|lia]. apply lt_pow2_log2 in Hb; lia.
Qed.

Lemma lxor_range (a b n : Z) :
  0 < n -> 0 <= a < 2 ^ n -> 0 <= b < 2 ^ n -> 0 <= Z.lxor a b < 2 ^ n.
Proof.
  intros Hn [Ha0 Ha] [Hb0 Hb]. split; [apply Z.lxor_nonneg; lia|].
  apply lt_pow2_log2; [lia | apply Z.lxor_nonneg; lia |].
  pose proof (Z.log2_lxor a b Ha0 Hb0).
  apply lt_pow2_log2 in Ha; [|lia|lia]. apply lt_pow2_log2 in Hb; lia.
Qed.

Lemma accumulate_range (x y : list byte) (v : Z) :
  0 <= v < 2 ^ 8 -> 0 <= subtle.accumulate v x y < 2 ^ 8.
Proof.
  revert y v. induction x as [|a x IH]; intros [|b y] v Hv; simpl; try exact Hv.
  apply IH. apply lor_range; [lia | exact Hv |].
  apply lxor_range; [lia | apply byteZ_range | apply byteZ_range].
Qed.

(** The accumulator is zero at the end exactly when it was zero at the
    start and no pair of bytes differed. *)
Lemma accumulate_zero (x y : list byte) (v : Z) :
  length x = length y ->
  (subtle.accumulate v x y = 0 <-> v = 0 /\ x = y).
Proof.
  revert y v. induction x as [|a x IH]; intros [|b y] v Hlen;
    simpl in *; try discriminate.
  - intuition.
  - injection Hlen as Hlen. rewrite (IH y _ Hlen), Z.lor_eq_0_iff, Z.lxor_eq_0_iff.
    split.
    + intros [[-> Hab] ->]. apply byteZ_inj in Hab. subst; auto.
    + intros [-> Heq]. injection Heq as -> ->. auto.
Qed.

Lemma ConstantTimeByteEq_zero (v : Z) :
  0 <= v < 2 ^ 8 -> (subtle.ConstantTimeByteEq v 0 = 1 <-> v = 0).
Proof.
  intros Hv. unfold subtle.ConstantTimeByteEq.
  rewrite Z.lxor_0_r, Z.shiftr_div_pow2 by lia.
  destruct (Z.eq_dec v 0) as [->|Hne].
  - split; [reflexivity | intros _; vm_compute; reflexivity].
  - rewrite Z.mod_small by lia. rewrite Z.div_small by lia. lia.
Qed.

Lemma ConstantTimeCompare_eq (x y : list byte) :
  subtle.ConstantTimeCompare x y = 1 <-> x = y.
Proof.
  unfold subtle.ConstantTimeCompare.
  destruct (Nat.eqb_spec (length x) (length y)) as [Hlen|Hlen]; simpl.
  - rewrite ConstantTimeByteEq_zero by (apply accumulate_range; lia).
    rewrite accumulate_zero by exact Hlen. intuition.
  - split; [discriminate | intros ->; contradiction].
Qed.

Lemma Equal_eq (x y : list byte) : hmac.Equal x y = true <-> x = y.
Proof.
  unfold hmac.Equal. rewrite Z.eqb_eq. apply ConstantTimeCompare_eq.
Qed.

Lemma bytes_of_inj (s t : string) : bytes_of s = bytes_of t -> s = t.
Proof.
  unfold bytes_of. intros H.
  rewrite <- (string_of_list_byte_of_string s), H.
  apply string_of_list_byte_of_string.
Qed.



Lemma digit_lower_hex (n : Z) : hex.is_lower_hex (hex.digit n) = true.
Proof.
  unfold hex.digit. generalize (Z.to_nat n). intros k.
  do 17 (destruct k as [|k]; [reflexivity|]). reflexivity.
Qed.

End Bytes.

(** ** Signature gate *)
Section SignatureGate.

Import webhook.

Lemma Sum256_length (data : list byte) : length (sha256.Sum256 data) = 32%nat.
Proof.
  unfold sha256.Sum256. destruct (sha256.block _ _ _). reflexivity.
Qed.

Lemma hmac_Sum_length (key body : list byte) : length (hmac.Sum key body) = 32%nat.
Proof. apply Sum256_length. Qed.

Lemma computeSignature_nonempty (secret : string) (body : list byte) :
  computeSignature secret body <> EmptyString.
Proof.
  unfold computeSignature.
  pose proof (hmac_Sum_length (bytes_of secret) body) as Hlen.
  destruct (hmac.Sum _ _); [discriminate Hlen | discriminate].
Qed.

Lemma EncodeToString_lower_hex (src : list byte) :
  forallb hex.is_lower_hex (list_ascii_of_string (hex.EncodeToString src)) = true.
Proof.
  induction src as [|v src IH]; [reflexivity|].
  cbn [hex.EncodeToString list_ascii_of_string forallb].
  rewrite !digit_lower_hex, IH. reflexivity.
Qed.

Lemma lower_hex_not_upper (c : ascii) :
  hex.is_lower_hex c = true -> hex.is_upper c = false.
Proof.
  unfold hex.is_lower_hex, hex.is_upper. generalize (Z.of_nat (nat_of_ascii c)).
  intros n H. apply andb_false_iff.
  apply orb_true_iff in H as [H|H]; apply andb_true_iff in H; lia.
Qed.

Lemma forallb_lower_no_upper (l : list ascii) :
  forallb hex.is_lower_hex l = true -> existsb hex.is_upper l = false.
Proof.
  induction l as [|c l IH]; [reflexivity|]. simpl.
  intros H. apply andb_true_iff in H as [Hc Hl].
  rewrite (lower_hex_not_upper c Hc), (IH Hl). reflexivity.
Qed.

(** [Verify] accepts a signature exactly when it is the hex encoding of
    the HMAC-SHA256 of the body under the verifier's secret. *)
Lemma Verify_true_iff (v : SignatureVerifier) (signature : string) (body : list byte) :
  Verify v signature body = true <->
  signature = hex.EncodeToString (hmac.Sum (secret v) body).
Proof.
  unfold Verify. destruct (String.eqb_spec signature "") as [->|Hne].
  - split; [discriminate|]. intros H. exfalso.
    pose proof (hmac_Sum_length (secret v) body) as Hlen.
    destruct (hmac.Sum _ _); [discriminate Hlen | discriminate H].
  - rewrite Equal_eq. split; [apply bytes_of_inj | intros ->; reflexivity].
Qed.

Lemma Verify_false_iff (v : SignatureVerifier) (signature : string) (body : list byte) :
  Verify v signature body = false <->
  signature <> hex.EncodeToString (hmac.Sum (secret v) body).
Proof.
  rewrite <- Verify_true_iff. destruct (Verify v signature body); intuition congruence.
Qed.








(** C10.  [Verify] compares against the lowercase hexadecimal encoding
    byte for byte: a signature containing a capital letter (the uppercase
    or a mixed-case rendering of the digest) is rejected, and an accepted
    signature is the computed one and consists of the characters
    [0-9a-f] only. *)
Theorem Verify_accepts_only_lowercase_hex
    (secret : string) (body : list byte) (signature : string) :
  let v := NewSignatureVerifier secret in
  (existsb hex.is_upper (list_ascii_of_string signature) = true ->
   Verify v signature body = false)
  /\ (Verify v signature body = true ->
      signature = computeSignature secret body
      /\ forallb hex.is_lower_hex (list_ascii_of_string signature) = true).
Proof.
  intros v.
  assert (Verify v signature body = true ->
          signature = computeSignature secret body
          /\ forallb hex.is_lower_hex (list_ascii_of_string signature) = true) as Hacc.
  { intros H. apply Verify_true_iff in H. split; [exact H|].
    rewrite H. apply EncodeToString_lower_hex. }
  split; [|exact Hacc].
  intros Hup. destruct (Verify v signature body) eqn:E; [|reflexivity].
  destruct (Hacc eq_refl) as [_ Hlow].
  apply forallb_lower_no_upper in Hlow. congruence.
Qed.

(** The uppercase rendering of the valid test signature is rejected; the
    valid signature is made of lowercase hex digits. *)
Lemma Verify_accepts_only_lowercase_hex_witness :
  let secret := fixtures.test_secret in
  let body := fixtures.body_created in
  let v := NewSignatureVerifier secret in
  Verify v (strings_ToUpper (computeSignature secret body)) body = false
  /\ forallb hex.is_lower_hex
       (list_ascii_of_string (computeSignature secret body)) = true.
Proof.
  intros secret body v.
  destruct (Verify_accepts_only_lowercase_hex secret body
              (strings_ToUpper (computeSignature secret body))) as [Hupper _].
  destruct (Verify_accepts_only_lowercase_hex secret body
              (computeSignature secret body)) as [_ Hvalid].
  split.
  - apply Hupper. vm_compute. reflexivity.
  - apply Hvalid. vm_compute. reflexivity.
Defined.

End SignatureGate.

(** ** Signature middleware *)
Section SignatureMiddleware.

Import webhook.

Lemma Get_missing (h : gmap string (list string)) (key : string) :
  h !! key = None -> http.Get h key = EmptyString.
Proof. unfold http.Get. intros ->. reflexivity. Qed.

Lemma Error_Code (w : http.ResponseRecorder) (msg : string) (code : Z) :
  http.wroteHeader w = false -> http.Code (http.Error w msg code) = code.
Proof.
  intros Hw. unfold http.Error, http.Write, http.WriteHeader.
  rewrite Hw. reflexivity.
Qed.

Lemma firstn_then_rest {A} (l : list A) (n : nat) :
  firstn n l ++ skipn (length (firstn n l)) l = l.
Proof.
  rewrite length_firstn. destruct (Nat.le_ge_cases n (length l)) as [Hle|Hge].
  - rewrite Nat.min_l by exact Hle. apply firstn_skipn.
  - rewrite Nat.min_r by exact Hge.
    rewrite firstn_all2 by exact Hge. rewrite skipn_all. apply app_nil_r.
Qed.

Lemma read_loop_rest (fuel room : nat) (b : http.bodyReader) (acc : list byte) :
  (0 < room)%nat ->
  (length (http.data b) - http.pos b < fuel)%nat ->
  http.read_loop fuel room b acc = acc ++ skipn (http.pos b) (http.data b).
Proof.
  intros Hroom. revert b acc.
  induction fuel as [|fuel IH]; intros [data pos] acc Hfuel; cbn in *; [lia|].
  unfold http.Read; cbn.
  destruct (Nat.leb_spec (length data) pos) as [Hend|Hmore].
  - rewrite skipn_all2 by lia. rewrite app_nil_r. reflexivity.
  - pose proof (length_skipn pos data) as Hrest.
    assert (0 < length (firstn room (skipn pos data)))%nat as Hchunk.
    { rewrite length_firstn. lia. }
    assert (length (firstn room (skipn pos data)) <= length (skipn pos data))%nat
      as Hle by (rewrite length_firstn; lia).
    rewrite IH by (cbn; lia). cbn.
    rewrite <- app_assoc. f_equal.
    rewrite Nat.add_comm, <- skipn_skipn. apply firstn_then_rest.
Qed.

(** Reading a fresh [bodyReader] to the end gives back its buffer. *)
Lemma ReadAll_newBodyReader (body : list byte) :
  http.ReadAll (http.NopCloser (newBodyReader body)) = (body, None).
Proof.
  unfold http.ReadAll, newBodyReader.
  rewrite read_loop_rest by (cbn; lia). reflexivity.
Qed.

Context {W : Type}.
Variable v : SignatureVerifier.
Variable next : http.Handler W.

(** C7.  A request without a signature (header missing or empty) is
    answered 401; a request with a signature whose body cannot be read is
    answered 400; a request with a signature and a readable body whose
    signature is not the expected HMAC is answered 401.  In each case the
    result is the error response written on the incoming recorder with
    the shared state untouched, whatever [next] is: the downstream
    handler is not run. *)
Theorem Middleware_failure_responses
    (w : http.ResponseRecorder) (r : http.Request) (st : W) :
  let signature := http.Get (http.Header r) "Sentry-Hook-Signature" in
  (http.Header r !! "Sentry-Hook-Signature"%string = None -> signature = EmptyString)
  /\ (signature = EmptyString ->
      Middleware v next w r st
      = http.Return (http.Error w "missing signature" 401) st)
  /\ (signature <> EmptyString ->
      forall partial e, http.ReadAll (http.Body r) = (partial, Some e) ->
      Middleware v next w r st
      = http.Return (http.Error w "failed to read body" 400) st)
  /\ (signature <> EmptyString ->
      forall body, http.ReadAll (http.Body r) = (body, None) ->
      signature <> hex.EncodeToString (hmac.Sum (secret v) body) ->
      Middleware v next w r st
      = http.Return (http.Error w "invalid signature" 401) st)
  /\ (http.wroteHeader w = false ->
      forall msg code, http.Code (http.Error w msg code) = code).
Proof.
  intros signature. split; [apply Get_missing|].
  split; [|split; [|split]].
  - intros Hsig. unfold Middleware. fold signature. rewrite Hsig. reflexivity.
  - intros Hsig partial e Hread. unfold Middleware. fold signature.
    destruct (String.eqb_spec signature "") as [Heq|_]; [contradiction|].
    rewrite Hread. reflexivity.
  - intros Hsig body Hread Hbad. unfold Middleware. fold signature.
    destruct (String.eqb_spec signature "") as [Heq|_]; [contradiction|].
    rewrite Hread. apply Verify_false_iff in Hbad. rewrite Hbad. reflexivity.
  - intros Hw msg code. apply Error_Code, Hw.
Qed.

(** On success the downstream handler is run on the same request with a
    fresh reader over the bytes that were verified. *)
Lemma Middleware_rebuffers_body
    (w : http.ResponseRecorder) (r : http.Request) (st : W) (body : list byte) :
  http.ReadAll (http.Body r) = (body, None) ->
  Verify v (http.Get (http.Header r) "Sentry-Hook-Signature") body = true ->
  exists r',
    Middleware v next w r st = next w r' st
    /\ http.Method r' = http.Method r
    /\ http.Header r' = http.Header r
    /\ http.ReadAll (http.Body r') = (body, None).
Proof.
  intros Hread Hok. unfold Middleware. rewrite Hread.
  destruct (String.eqb_spec (http.Get (http.Header r) "Sentry-Hook-Signature") "")
    as [Hempty|_].
  - rewrite Hempty in Hok. discriminate Hok.
  - rewrite Hok. eexists. split; [reflexivity|].
    split; [reflexivity|]. split; [reflexivity|]. apply ReadAll_newBodyReader.
Qed.

End SignatureMiddleware.

(** The three failure responses on concrete requests, with a downstream
    handler that would flip the shared flag if it ran. *)
Lemma Middleware_failure_responses_witness :
  let handlerCalled := fixtures.handlerCalled in
  let unsigned_broken_request := fixtures.unsigned_broken_request in
  let signed_request := fixtures.signed_request in
  let v := webhook.NewSignatureVerifier "test-secret-key" in
  let body := bytes_of "payload" in
  let run r := webhook.Middleware v handlerCalled http.NewRecorder r false in
  run unsigned_broken_request
  = http.Return (http.Error http.NewRecorder "missing signature" 401) false
  /\ run (signed_request "invalid" (http.wire [] (Some "unexpected EOF"%string)))
     = http.Return (http.Error http.NewRecorder "failed to read body" 400) false
  /\ run (signed_request "invalid" (http.wire body None))
     = http.Return (http.Error http.NewRecorder "invalid signature" 401) false
  /\ http.Code (http.Error http.NewRecorder "invalid signature" 401) = 401.
Proof.
  intros handlerCalled unsigned_broken_request signed_request v body run.
  split; [|split; [|split]].
  - apply (Middleware_failure_responses v handlerCalled). reflexivity.
  - eapply (Middleware_failure_responses v handlerCalled);
      [vm_compute; discriminate | reflexivity].
  - eapply (Middleware_failure_responses v handlerCalled);
      [vm_compute; discriminate | reflexivity | vm_compute; discriminate].
  - apply (Middleware_failure_responses v handlerCalled http.NewRecorder
             unsigned_broken_request false). reflexivity.
Defined.

(** ** Event normalizer *)
Section Normalizer.

Import webhook.

Context {float64 : Type}.
Variable int_of_float64 : float64 -> Z.

Abbreviation object := (gmap string (jvalue float64)).
Abbreviation frame_of := (frame_of int_of_float64).

Lemma range_frames_spec (frames : list (jvalue float64)) (acc : list Frame) :
  range_frames int_of_float64 acc frames
  = acc ++ map frame_of (omap as_object frames).
Proof.
  unfold range_frames. revert acc.
  induction frames as [|f frames IH]; intros acc; cbn.
  - rewrite app_nil_r. reflexivity.
  - rewrite IH. destruct f; cbn; try reflexivity.
    rewrite <- app_assoc. reflexivity.
Qed.

Lemma range_values_spec (values : list (jvalue float64)) (acc : list Frame) :
  range_values int_of_float64 acc values
  = acc ++ map frame_of (flat_map stack_frames (omap as_object values)).
Proof.
  unfold range_values. revert acc.
  induction values as [|v values IH]; intros acc; cbn.
  - rewrite app_nil_r. reflexivity.
  - rewrite IH. destruct v as [| | | | |val]; cbn; try reflexivity.
    rewrite map_app, app_assoc. f_equal. unfold stack_frames.
    destruct (val !! "stacktrace"%string) as [[| | | | |st]|];
      try (rewrite app_nil_r; reflexivity).
    unfold as_array.
    destruct (st !! "frames"%string) as [[| | | |frames|]|]; cbn;
      try (rewrite app_nil_r; reflexivity).
    apply range_frames_spec.
Qed.

Lemma range_entries_spec (entries : list (Entry float64)) (acc : list Frame) :
  range_entries int_of_float64 acc entries
  = acc ++ map frame_of
             (flat_map (fun e => flat_map stack_frames (exception_values e)) entries).
Proof.
  unfold range_entries. revert acc.
  induction entries as [|e entries IH]; intros acc; cbn.
  - rewrite app_nil_r. reflexivity.
  - rewrite IH, map_app, app_assoc. f_equal. unfold exception_values.
    destruct (String.eqb (Entry_Type e) "exception");
      [|rewrite app_nil_r; reflexivity].
    destruct (Entry_Data e) as [| | | | |data]; try (rewrite app_nil_r; reflexivity).
    unfold as_array.
    destruct (data !! "values"%string) as [[| | | |values|]|]; cbn;
      try (rewrite app_nil_r; reflexivity).
    apply range_values_spec.
Qed.

(** The normalizer's frames are the payload's exception frames, converted
    one by one. *)
Lemma ParseWebhook_Frames (wh : SentryWebhook float64) (pe : ParsedError) :
  ParseWebhook int_of_float64 wh = Some pe ->
  Frames pe = map frame_of (exception_frames wh).
Proof.
  unfold ParseWebhook, exception_frames.
  destruct (Data_Issue (Data wh)); [|discriminate].
  intros [= <-]. cbn. destruct (Data_Event (Data wh)); [|reflexivity].
  apply (range_entries_spec _ []).
Qed.

Lemma lookup_map_frame (l : list object) (i : nat) (fm : object) :
  l !! i = Some fm -> map frame_of l !! i = Some (frame_of fm).
Proof.
  revert i. induction l as [|x l IH]; intros [|i]; cbn; try discriminate.
  - intros [= ->]. reflexivity.
  - apply IH.
Qed.

(** C3, as the code has it.  An envelope without an issue object yields no
    record; an envelope with one yields a record whose [IssueID] and
    [ProjectSlug] are the issue's id and its project's slug, copied as
    they are, empty or not. *)
Theorem ParseWebhook_record_iff_issue (wh : SentryWebhook float64) :
  (Data_Issue (Data wh) = None -> ParseWebhook int_of_float64 wh = None)
  /\ (forall issue, Data_Issue (Data wh) = Some issue ->
      exists pe, ParseWebhook int_of_float64 wh = Some pe
                 /\ IssueID pe = ID issue
                 /\ ProjectSlug pe = Slug (Issue_Project issue))
  /\ (forall pe, ParseWebhook int_of_float64 wh = Some pe ->
      exists issue, Data_Issue (Data wh) = Some issue
                    /\ (IssueID pe <> EmptyString <-> ID issue <> EmptyString)
                    /\ (ProjectSlug pe <> EmptyString
                        <-> Slug (Issue_Project issue) <> EmptyString)).
Proof.
  unfold ParseWebhook. split; [|split].
  - intros ->. reflexivity.
  - intros issue ->. eexists. split; [reflexivity|]. split; reflexivity.
  - intros pe. destruct (Data_Issue (Data wh)) as [issue|]; [|discriminate].
    intros [= <-]. exists issue. cbn. intuition.
Qed.

(** C6, for the envelopes that pass the issue guard.  Whenever the envelope
    has an issue object, [ParseWebhook] returns a record with exactly as
    many frames as the payload carries under its exception entries, the
    [i]-th frame coming from the [i]-th source frame: its [InApp] is the
    source's boolean [inApp] ([false] when that is absent), and each
    optional field the source frame lacks is left at its zero value. *)
Theorem ParseWebhook_preserves_frames
    (wh : SentryWebhook float64) (issue : Issue) :
  Data_Issue (Data wh) = Some issue ->
  exists pe,
    ParseWebhook int_of_float64 wh = Some pe
    /\ length (Frames pe) = length (exception_frames wh)
    /\ forall (i : nat) (fm : object),
         exception_frames wh !! i = Some fm ->
         exists fr,
           Frames pe !! i = Some fr
           /\ (forall b, fm !! "inApp"%string = Some (JBool b) -> InApp fr = b)
           /\ (fm !! "inApp"%string = None -> InApp fr = false)
           /\ (fm !! "filename"%string = None -> Filename fr = EmptyString)
           /\ (fm !! "absPath"%string = None -> AbsPath fr = EmptyString)
           /\ (fm !! "function"%string = None -> Function_ fr = EmptyString)
           /\ (fm !! "module"%string = None -> Module_ fr = EmptyString)
           /\ (fm !! "lineNo"%string = None -> LineNo fr = 0)
           /\ (fm !! "colNo"%string = None -> ColNo fr = 0).
Proof.
  intros Hissue.
  destruct (ParseWebhook int_of_float64 wh) as [pe|] eqn:Hparse.
  2:{ unfold ParseWebhook in Hparse. rewrite Hissue in Hparse. discriminate. }
  exists pe. split; [reflexivity|].
  rewrite (ParseWebhook_Frames wh pe Hparse).
  split; [apply length_map|].
  intros i fm Hi. exists (frame_of fm).
  split; [apply lookup_map_frame, Hi|].
  unfold webhook.frame_of, getBool; cbn.
  repeat split; intros; repeat match goal with H : _ !! _ = _ |- _ => rewrite H end;
    reflexivity.
Qed.

End Normalizer.

(** On the sample event the four object frames come out in document order,
    repetitions included; the second one lacks every optional field. *)
Lemma ParseWebhook_preserves_frames_witness :
  exists pe,
    webhook.ParseWebhook fixtures.int_of_float64 fixtures.frames_envelope = Some pe
    /\ length (webhook.Frames pe) = 4%nat
    /\ map webhook.InApp (webhook.Frames pe) = [true; false; true; true]
    /\ map webhook.LineNo (webhook.Frames pe) = [42; 0; 42; 42].
Proof.
  destruct (ParseWebhook_preserves_frames fixtures.int_of_float64
              fixtures.frames_envelope fixtures.testIssue eq_refl)
    as (pe & Hparse & Hlen & _).
  exists pe. split; [exact Hparse|].
  split; [rewrite Hlen; vm_compute; reflexivity|].
  vm_compute in Hparse. injection Hparse as <-. vm_compute. split; reflexivity.
Defined.

(** An envelope without an issue object yields no record, hence none of
    the frames its event carries. *)
Lemma ParseWebhook_no_frames_without_issue :
  ~ (forall wh : webhook.SentryWebhook fixtures.float64,
        length (from_option webhook.Frames []
                  (webhook.ParseWebhook fixtures.int_of_float64 wh))
        = length (webhook.exception_frames wh)).
Proof.
  intros H.
  specialize (H (fixtures.envelope "created" None (Some fixtures.framesEvent))).
  vm_compute in H. discriminate H.
Qed.

(** An envelope whose issue object is empty yields a record with an empty
    [IssueID] and an empty [ProjectSlug]. *)
Lemma ParseWebhook_empty_issue_fields :
  ~ (forall (wh : webhook.SentryWebhook fixtures.float64) (pe : webhook.ParsedError),
        webhook.ParseWebhook fixtures.int_of_float64 wh = Some pe ->
        webhook.IssueID pe <> EmptyString /\ webhook.ProjectSlug pe <> EmptyString).
Proof.
  intros H.
  destruct (H fixtures.empty_issue_envelope _ eq_refl) as [Hid _].
  apply Hid. reflexivity.
Qed.

Lemma ParseWebhook_record_iff_issue_witness :
  webhook.ParseWebhook fixtures.int_of_float64
    (fixtures.envelope "created" None None) = None
  /\ exists pe,
       webhook.ParseWebhook fixtures.int_of_float64
         (fixtures.envelope "created" (Some fixtures.testIssue) None) = Some pe
       /\ webhook.IssueID pe = "12345"%string
       /\ webhook.ProjectSlug pe = "test-project"%string.
Proof.
  destruct (ParseWebhook_record_iff_issue fixtures.int_of_float64
              (fixtures.envelope "created" None None)) as (Hnone & _ & _).
  destruct (ParseWebhook_record_iff_issue fixtures.int_of_float64
              (fixtures.envelope "created" (Some fixtures.testIssue) None))
    as (_ & Hsome & _).
  split; [apply Hnone; reflexivity|].
  exact (Hsome fixtures.testIssue eq_refl).
Defined.

(** ** Webhook handler and job queue *)
Section Handler.

Import webhook.

Context {float64 : Type}.
Variable int_of_float64 : float64 -> Z.
Variable json_Unmarshal : list byte -> option (SentryWebhook float64).

Abbreviation ServeHTTP := (ServeHTTP int_of_float64 json_Unmarshal).

Abbreviation accepted_queued w :=
  (http.Write (http.WriteHeader w http.StatusAccepted) status_queued).

Lemma accepted_queued_fresh (w : http.ResponseRecorder) :
  http.wroteHeader w = false ->
  http.Code (accepted_queued w) = 202
  /\ http.Written (accepted_queued w) = http.Written w +:+ status_queued.
Proof.
  intros Hw. unfold http.Write, http.WriteHeader.
  rewrite Hw. cbn. split; reflexivity.
Qed.

Lemma WriteHeader_fresh (w : http.ResponseRecorder) (code : Z) :
  http.wroteHeader w = false ->
  http.Code (http.WriteHeader w code) = code
  /\ http.Written (http.WriteHeader w code) = http.Written w.
Proof. unfold http.WriteHeader. intros ->. split; reflexivity. Qed.

(** A full buffer of positive capacity leaves no receiver parked, and the
    non-blocking send falls through to the default branch. *)
Lemma trySend_full (q : chan float64) (j : Job float64) :
  chan_ok q -> (0 < cap q)%nat -> length (buf q) = cap q ->
  trySend q j = None.
Proof.
  intros [_ Hrecv] Hcap Hfull. unfold trySend.
  destruct Hrecv as [->|Hempty].
  - rewrite Hfull, Nat.ltb_irrefl. reflexivity.
  - rewrite Hempty in Hfull. simpl in Hfull. lia.
Qed.

(** The path of a decodable POST whose envelope carries an issue. *)
Lemma ServeHTTP_decoded (w : http.ResponseRecorder) (r : http.Request)
    (q : chan float64) (body : list byte) (wh : SentryWebhook float64)
    (issue : Issue) :
  http.Method r = http.MethodPost ->
  http.ReadAll (http.Body r) = (body, None) ->
  json_Unmarshal body = Some wh ->
  Data_Issue (Data wh) = Some issue ->
  ServeHTTP w r q =
    if negb (String.eqb (Action wh) "created")
       && negb (String.eqb (Action wh) "triggered")
    then http.Return (http.WriteHeader w http.StatusAccepted) q
    else
      match ParseWebhook int_of_float64 wh with
      | None => http.Return (http.WriteHeader w http.StatusAccepted) q
      | Some parsed =>
          http.Return (accepted_queued w)
            (match trySend q {| Webhook := wh; Job_ParsedError := parsed |} with
             | Some q' => q'
             | None => q
             end)
      end.
Proof.
  intros Hm Hread Hjson Hissue. unfold webhook.ServeHTTP.
  rewrite Hm, Hread, Hjson, Hissue. reflexivity.
Qed.

(** C4.  A valid webhook (a decodable POST with an issue and action
    "created" or "triggered") arriving while the queue holds its full
    capacity is answered at once with 202 and the body
    [{"status":"queued"}], the very response given when there is room,
    and the channel is left exactly as it was: the job is neither
    buffered nor handed to the dispatcher. *)
Theorem ServeHTTP_full_queue_drops_job
    (w : http.ResponseRecorder) (r : http.Request) (q : chan float64)
    (body : list byte) (wh : SentryWebhook float64) (issue : Issue) :
  http.Method r = http.MethodPost ->
  http.ReadAll (http.Body r) = (body, None) ->
  json_Unmarshal body = Some wh ->
  Data_Issue (Data wh) = Some issue ->
  Action wh = "created"%string \/ Action wh = "triggered"%string ->
  chan_ok q -> (0 < cap q)%nat -> length (buf q) = cap q ->
  ServeHTTP w r q = http.Return (accepted_queued w) q
  /\ (forall q0, exists q0', ServeHTTP w r q0 = http.Return (accepted_queued w) q0')
  /\ (http.wroteHeader w = false ->
      http.Code (accepted_queued w) = 202
      /\ http.Written (accepted_queued w) = http.Written w +:+ status_queued).
Proof.
  intros Hm Hread Hjson Hissue Haction Hok Hcap Hfull.
  assert (negb (String.eqb (Action wh) "created")
          && negb (String.eqb (Action wh) "triggered") = false) as Hgate.
  { destruct Haction as [-> | ->]; reflexivity. }
  assert (exists parsed, ParseWebhook int_of_float64 wh = Some parsed) as [parsed Hparsed].
  { unfold ParseWebhook. rewrite Hissue. eexists. reflexivity. }
  split; [|split].
  - rewrite (ServeHTTP_decoded w r q body wh issue Hm Hread Hjson Hissue).
    rewrite Hgate, Hparsed, trySend_full by assumption. reflexivity.
  - intros q0.
    rewrite (ServeHTTP_decoded w r q0 body wh issue Hm Hread Hjson Hissue).
    rewrite Hgate, Hparsed. eexists. reflexivity.
  - apply accepted_queued_fresh.
Qed.

(** With room in the buffer and no receiver parked, the job of a valid
    webhook goes to the end of the buffer. *)
Lemma ServeHTTP_enqueues_when_room
    (w : http.ResponseRecorder) (r : http.Request) (q : chan float64)
    (body : list byte) (wh : SentryWebhook float64) (issue : Issue) :
  http.Method r = http.MethodPost ->
  http.ReadAll (http.Body r) = (body, None) ->
  json_Unmarshal body = Some wh ->
  Data_Issue (Data wh) = Some issue ->
  Action wh = "created"%string \/ Action wh = "triggered"%string ->
  recvq q = 0%nat -> (length (buf q) < cap q)%nat ->
  exists parsed q',
    ParseWebhook int_of_float64 wh = Some parsed
    /\ ServeHTTP w r q = http.Return (accepted_queued w) q'
    /\ buf q' = buf q ++ [ {| Webhook := wh; Job_ParsedError := parsed |} ]
    /\ taken q' = taken q.
Proof.
  intros Hm Hread Hjson Hissue Haction Hrecv Hroom.
  assert (exists parsed, ParseWebhook int_of_float64 wh = Some parsed) as [parsed Hparsed].
  { unfold ParseWebhook. rewrite Hissue. eexists. reflexivity. }
  exists parsed. eexists. split; [exact Hparsed|].
  rewrite (ServeHTTP_decoded w r q body wh issue Hm Hread Hjson Hissue), Hparsed.
  unfold trySend. rewrite Hrecv.
  apply Nat.ltb_lt in Hroom. rewrite Hroom.
  destruct Haction as [-> | ->]; cbn; repeat split.
Qed.

(** With an issue object in the envelope, an action other than "created"
    and "triggered" is answered 202 with an empty body and the channel is
    untouched. *)
Lemma ServeHTTP_ignores_other_actions
    (w : http.ResponseRecorder) (r : http.Request) (q : chan float64)
    (body : list byte) (wh : SentryWebhook float64) (issue : Issue) :
  http.Method r = http.MethodPost ->
  http.ReadAll (http.Body r) = (body, None) ->
  json_Unmarshal body = Some wh ->
  Data_Issue (Data wh) = Some issue ->
  Action wh <> "created"%string -> Action wh <> "triggered"%string ->
  ServeHTTP w r q = http.Return (http.WriteHeader w http.StatusAccepted) q.
Proof.
  intros Hm Hread Hjson Hissue Hc Ht.
  rewrite (ServeHTTP_decoded w r q body wh issue Hm Hread Hjson Hissue).
  apply String.eqb_neq in Hc, Ht. rewrite Hc, Ht. reflexivity.
Qed.

(** C5, where the code departs from it.  A decodable POST whose envelope
    has no issue object makes the handler panic on the nil [*Issue]
    before the action is looked at: nothing is written to the response
    (no 202) and the channel is untouched.  This holds for every action,
    "resolved" included. *)
Theorem ServeHTTP_panics_without_issue
    (w : http.ResponseRecorder) (r : http.Request) (q : chan float64)
    (body : list byte) (wh : SentryWebhook float64) :
  http.Method r = http.MethodPost ->
  http.ReadAll (http.Body r) = (body, None) ->
  json_Unmarshal body = Some wh ->
  Data_Issue (Data wh) = None ->
  ServeHTTP w r q
  = http.Panic "invalid memory address or nil pointer dereference" w q.
Proof.
  intros Hm Hread Hjson Hissue. unfold webhook.ServeHTTP.
  rewrite Hm, Hread, Hjson, Hissue. reflexivity.
Qed.

End Handler.

(** The overflow case of the specification on the sample queue. *)
Lemma ServeHTTP_full_queue_drops_job_witness :
  webhook.ServeHTTP fixtures.int_of_float64 fixtures.decode http.NewRecorder
    (fixtures.post (fixtures.json_valid "created")) fixtures.full_queue
  = http.Return
      {| http.Code := 202; http.wroteHeader := true;
         http.Written := webhook.status_queued |}
      fixtures.full_queue.
Proof.
  destruct (ServeHTTP_full_queue_drops_job fixtures.int_of_float64 fixtures.decode
              http.NewRecorder (fixtures.post (fixtures.json_valid "created"))
              fixtures.full_queue
              (bytes_of (fixtures.json_valid "created"))
              (fixtures.envelope "created" (Some fixtures.testIssue) None)
              fixtures.testIssue)
    as (Hrun & _ & _).
  - reflexivity.
  - reflexivity.
  - vm_compute. reflexivity.
  - reflexivity.
  - left. reflexivity.
  - split; [vm_compute; lia | left; reflexivity].
  - vm_compute. lia.
  - reflexivity.
  - exact Hrun.
Defined.

(** [{"action":"resolved"}] posted to the handler. *)
Lemma ServeHTTP_panics_without_issue_witness :
  webhook.ServeHTTP fixtures.int_of_float64 fixtures.decode http.NewRecorder
    (fixtures.post fixtures.json_resolved) (webhook.make_chan fixtures.float64 100)
  = http.Panic "invalid memory address or nil pointer dereference"
      http.NewRecorder (webhook.make_chan fixtures.float64 100).
Proof.
  apply (ServeHTTP_panics_without_issue fixtures.int_of_float64 fixtures.decode
           http.NewRecorder (fixtures.post fixtures.json_resolved)
           (webhook.make_chan fixtures.float64 100)
           (bytes_of fixtures.json_resolved)
           (fixtures.envelope "resolved" None None)).
  - reflexivity.
  - reflexivity.
  - vm_compute. reflexivity.
  - reflexivity.
Defined.

(** ** Remote repository protocol *)
Section RemoteProtocol.

Import gitprovider gitprovider.github.

Lemma prefix_append (s t : string) : String.prefix s (s +:+ t) = true.
Proof.
  induction s as [|c s IH]; simpl; [destruct t; reflexivity|].
  destruct (ascii_dec c c); [exact IH | contradiction].
Qed.

Lemma Contains_unfold (s sub : string) :
  strings_Contains s sub =
  if String.prefix sub s then true
  else match s with
       | EmptyString => false
       | String _ s' => strings_Contains s' sub
       end.
Proof. destruct s; reflexivity. Qed.

Lemma Contains_here (s t : string) : strings_Contains (s +:+ t) s = true.
Proof. rewrite Contains_unfold, prefix_append. reflexivity. Qed.

Lemma Contains_append (a s sub : string) :
  strings_Contains s sub = true -> strings_Contains (a +:+ s) sub = true.
Proof.
  intros H. induction a as [|c a IH]; [exact H|].
  change (String c a +:+ s) with (String c (a +:+ s)).
  rewrite Contains_unfold, IH.
  destruct (String.prefix sub _); reflexivity.
Qed.

Lemma ErrorResponse_contains_message (method url : string) (status : Z) (message : string) :
  strings_Contains (ErrorResponse method url status message) message = true.
Proof.
  unfold ErrorResponse. do 6 apply Contains_append. apply Contains_here.
Qed.

Lemma request_inv {A} (c : call) (serve : M A) (s s' : remote) (r : result A) :
  request c serve s = (r, s') ->
  (exists e, outage s (length (calls s)) = Some e /\ r = Err e /\ s' = logged s c)
  \/ (outage s (length (calls s)) = None /\ serve (logged s c) = (r, s')).
Proof.
  unfold request. destruct (outage s (length (calls s))) as [e|].
  - intros [= <- <-]. left. eauto.
  - intros H. right. auto.
Qed.

(** A successful call was served (no fault); a failed call left only its
    record in the log. *)
Ltac served H :=
  apply request_inv in H as [(? & _ & [=] & _)|[_ H]]; cbn in H.

Ltac failed H :=
  apply request_inv in H as [(? & _ & _ & ->)|[_ H]]; [reflexivity | cbn in H].

Section EndpointFacts.
Variables owner repo : string.

Lemma GetRef_ok ref s x s' :
  Git_GetRef owner repo ref s = (Ok x, s') ->
  s' = logged s (GetRef ref) /\ Ref x = ref /\ refs s !! ref = Some (Object_SHA x).
Proof.
  intros H. served H. destruct (refs s !! ref) as [sha|]; [|discriminate].
  injection H as <- <-. auto.
Qed.

Lemma GetRef_err ref s e s' :
  Git_GetRef owner repo ref s = (Err e, s') -> s' = logged s (GetRef ref).
Proof.
  intros H. failed H.
  destruct (refs s !! ref); [discriminate|]. injection H as _ <-. reflexivity.
Qed.

Lemma GetCommit_ok sha s c s' :
  Git_GetCommit owner repo sha s = (Ok c, s') ->
  s' = logged s (GetCommit sha) /\ commits s !! sha = Some c.
Proof.
  intros H. served H. destruct (commits s !! sha) as [c'|]; [|discriminate].
  injection H as <- <-. auto.
Qed.

Lemma GetCommit_err sha s e s' :
  Git_GetCommit owner repo sha s = (Err e, s') -> s' = logged s (GetCommit sha).
Proof.
  intros H. failed H.
  destruct (commits s !! sha); [discriminate|]. injection H as _ <-. reflexivity.
Qed.

Lemma CreateTree_ok bt entries s t s' :
  Git_CreateTree owner repo bt entries s = (Ok t, s') ->
  exists base, base_tree s bt = Some base
    /\ t = {| Tree_SHA := fresh s |}
    /\ s' = with_tree (logged s (CreateTree bt entries)) (fresh s) (overlay base entries).
Proof.
  intros H. apply request_inv in H as [(e & _ & [=] & _)|[_ H]].
  change (base_tree (logged s (CreateTree bt entries)) bt) with (base_tree s bt) in H.
  destruct (base_tree s bt) as [base|]; [|discriminate].
  injection H as <- <-. eauto.
Qed.

Lemma CreateTree_err bt entries s e s' :
  Git_CreateTree owner repo bt entries s = (Err e, s') ->
  s' = logged s (CreateTree bt entries).
Proof.
  intros H. apply request_inv in H as [(e' & _ & _ & ->)|[_ H]]; [reflexivity|].
  destruct (base_tree _ bt); [discriminate|]. injection H as _ <-. reflexivity.
Qed.

Lemma CreateCommit_ok message tree parents s c s' :
  Git_CreateCommit owner repo message tree parents s = (Ok c, s') ->
  c = {| SHA := fresh s; Message := message; Commit_Tree := tree; Parents := parents |}
  /\ s' = with_commit (logged s (CreateCommit message (Tree_SHA tree) parents)) c.
Proof.
  intros H. served H. destruct (trees s !! Tree_SHA tree); [|discriminate].
  injection H as <- <-. auto.
Qed.

Lemma CreateCommit_err message tree parents s e s' :
  Git_CreateCommit owner repo message tree parents s = (Err e, s') ->
  s' = logged s (CreateCommit message (Tree_SHA tree) parents).
Proof.
  intros H. failed H. destruct (trees s !! Tree_SHA tree); [discriminate|].
  injection H as _ <-. reflexivity.
Qed.

Lemma UpdateRef_ok ref force s x s' :
  Git_UpdateRef owner repo ref force s = (Ok x, s') ->
  s' = with_refs (logged s (UpdateRef (Ref ref) (Object_SHA ref) force))
         (<[Ref ref := Object_SHA ref]> (refs s)).
Proof.
  intros H. served H. destruct (refs s !! Ref ref); [|discriminate].
  injection H as _ <-. reflexivity.
Qed.

Lemma UpdateRef_err ref force s e s' :
  Git_UpdateRef owner repo ref force s = (Err e, s') ->
  s' = logged s (UpdateRef (Ref ref) (Object_SHA ref) force).
Proof.
  intros H. failed H. destruct (refs s !! Ref ref); [discriminate|].
  injection H as _ <-. reflexivity.
Qed.

End EndpointFacts.

Lemma tree_entries_from (files : list FileChange) (acc : list TreeEntry) :
  fold_left (fun treeEntries file =>
               let mode := if String.eqb (Mode file) "" then "100644"%string
                           else Mode file in
               treeEntries ++ [ {| te_Path := Path file; te_Mode := mode;
                                   te_Type := "blob";
                                   te_Content := Content file |} ])
            files acc
  = acc ++ map (fun file => {| te_Path := Path file;
                               te_Mode := if String.eqb (Mode file) "" then "100644"
                                          else Mode file;
                               te_Type := "blob"; te_Content := Content file |}) files.
Proof.
  revert acc. induction files as [|f files IH]; intros acc; cbn.
  - rewrite app_nil_r. reflexivity.
  - rewrite IH, <- app_assoc. reflexivity.
Qed.

Lemma tree_entries_map (files : list FileChange) :
  tree_entries files
  = map (fun file => {| te_Path := Path file;
                        te_Mode := if String.eqb (Mode file) "" then "100644"
                                   else Mode file;
                        te_Type := "blob"; te_Content := Content file |}) files.
Proof. apply (tree_entries_from files []). Qed.

Lemma overlay_app (base : gmap string Blob) (l1 l2 : list TreeEntry) :
  overlay base (l1 ++ l2) = overlay (overlay base l1) l2.
Proof. apply fold_left_app. Qed.

Lemma overlay_cons (base : gmap string Blob) (e : TreeEntry) (l : list TreeEntry) :
  overlay base (e :: l)
  = overlay (<[te_Path e := {| blob_mode := te_Mode e;
                               blob_content := te_Content e |}]> base) l.
Proof. reflexivity. Qed.

Lemma overlay_other (entries : list TreeEntry) (base : gmap string Blob) (p : string) :
  (forall e, In e entries -> te_Path e <> p) ->
  overlay base entries !! p = base !! p.
Proof.
  revert base. induction entries as [|e entries IH]; intros base Hp; [reflexivity|].
  rewrite overlay_cons, IH by (intros e' He'; apply Hp; right; exact He').
  apply lookup_insert_ne, Hp. left. reflexivity.
Qed.

(** Paths no change mentions keep the base tree's blob. *)
Lemma overlay_inherits (files : list FileChange) (base : gmap string Blob) (p : string) :
  (forall f, In f files -> Path f <> p) ->
  overlay base (tree_entries files) !! p = base !! p.
Proof.
  intros Hp. apply overlay_other. rewrite tree_entries_map.
  intros e He. apply in_map_iff in He as (f & <- & Hf). cbn. apply Hp, Hf.
Qed.

(** The last change to a path decides the blob there: its content, and its
    mode or 100644 when the mode is empty. *)
Lemma overlay_replaces (before after : list FileChange) (f : FileChange)
    (base : gmap string Blob) :
  (forall f', In f' after -> Path f' <> Path f) ->
  overlay base (tree_entries (before ++ f :: after)) !! Path f
  = Some {| blob_mode := if String.eqb (Mode f) "" then "100644" else Mode f;
            blob_content := Content f |}.
Proof.
  intros Hafter. rewrite tree_entries_map, map_app, overlay_app.
  cbn [map]. rewrite overlay_cons, overlay_other.
  - apply lookup_insert_eq.
  - intros e He. apply in_map_iff in He as (f' & <- & Hf'). apply Hafter, Hf'.
Qed.


Lemma CreateRef_exists owner repo (ref : Reference) (s : remote) :
  is_Some (refs s !! Ref ref) ->
  outage s (length (calls s)) = None ->
  Git_CreateRef owner repo ref s
  = (Err (ErrorResponse "POST" (api owner repo +:+ "/git/refs") 422
            "Reference already exists"),
     logged s (CreateRef (Ref ref) (Object_SHA ref))).
Proof.
  intros [sha Hsha] Hup. unfold Git_CreateRef, request. rewrite Hup. cbn.
  rewrite Hsha. reflexivity.
Qed.

Lemma CreateRef_ok owner repo (ref : Reference) (s s' : remote) (x : Reference) :
  Git_CreateRef owner repo ref s = (Ok x, s') ->
  refs s' !! Ref ref = Some (Object_SHA ref).
Proof.
  intros H. apply request_inv in H as [(e & _ & [=] & _)|[_ H]].
  cbn in H. destruct (refs s !! Ref ref); [discriminate|].
  destruct (commits s !! Object_SHA ref); [|discriminate].
  injection H as _ <-. cbn. apply lookup_insert_eq.
Qed.

(** [CreateBranch] when the call reaches the remote. *)
Lemma CreateBranch_reached (g : GitHubProvider) (name baseSHA : string) (s : remote) :
  let ref := ("refs/heads/" +:+ name)%string in
  let s1 := logged s (CreateRef ref baseSHA) in
  let missing := ErrorResponse "POST" (api (owner g) (repo g) +:+ "/git/refs") 422
                   "Object does not exist" in
  outage s (length (calls s)) = None ->
  CreateBranch g name baseSHA s =
    match refs s !! ref with
    | Some _ => (Ok tt, s1)
    | None =>
        match commits s !! baseSHA with
        | Some _ => (Ok tt, with_refs s1 (<[ref := baseSHA]> (refs s)))
        | None =>
            if strings_Contains missing "Reference already exists"
            then (Ok tt, s1)
            else (Err ("failed to create branch " +:+ name +:+ ": " +:+ missing), s1)
        end
    end.
Proof.
  intros ref s1 missing Hup. unfold CreateBranch, Git_CreateRef, request.
  rewrite Hup. cbn. fold ref. destruct (refs s !! ref).
  - rewrite ErrorResponse_contains_message. reflexivity.
  - destruct (commits s !! baseSHA); reflexivity.
Qed.

(** C8.  When the remote answers the creation of the reference with
    "Reference already exists", [CreateBranch] returns without error; so it
    does whenever the reference is already there and the remote is
    reachable, leaving the references as they are; and after a call that
    returned without error, a second call with the same name and base
    returns without error too. *)
Theorem CreateBranch_existing_reference
    (g : GitHubProvider) (name baseSHA : string) (s : remote) :
  let ref := {| Ref := "refs/heads/" +:+ name; Object_SHA := baseSHA |} in
  (forall s',
     Git_CreateRef (owner g) (repo g) ref s
     = (Err (ErrorResponse "POST" (api (owner g) (repo g) +:+ "/git/refs") 422
               "Reference already exists"), s') ->
     CreateBranch g name baseSHA s = (Ok tt, s'))
  /\ (is_Some (refs s !! Ref ref) ->
      outage s (length (calls s)) = None ->
      exists s', CreateBranch g name baseSHA s = (Ok tt, s') /\ refs s' = refs s)
  /\ (forall s1,
        outage s (length (calls s)) = None ->
        outage s (S (length (calls s))) = None ->
        CreateBranch g name baseSHA s = (Ok tt, s1) ->
        exists s2, CreateBranch g name baseSHA s1 = (Ok tt, s2)
                   /\ refs s2 = refs s1).
Proof.
  intros ref. split; [|split].
  - intros s' H. unfold CreateBranch. fold ref. rewrite H.
    rewrite ErrorResponse_contains_message. reflexivity.
  - intros [sha Hsha] Hup. rewrite CreateBranch_reached by exact Hup.
    cbn in Hsha. rewrite Hsha. eexists. split; reflexivity.
  - intros s1 Hup0 Hup1 Hfirst.
    rewrite CreateBranch_reached in Hfirst by exact Hup0.
    assert (forall s0, calls s0 = calls s ++ [CreateRef (Ref ref) baseSHA] ->
                       outage s0 = outage s ->
                       outage s0 (length (calls s0)) = None) as Hnext.
    { intros s0 Hc Ho. rewrite Hc, Ho, length_app. cbn.
      rewrite Nat.add_1_r. exact Hup1. }
    destruct (refs s !! ("refs/heads/" +:+ name)) as [sha|] eqn:Href.
    + injection Hfirst as <-.
      rewrite CreateBranch_reached by (apply Hnext; reflexivity).
      cbn. rewrite Href. eexists. split; reflexivity.
    + destruct (commits s !! baseSHA) as [c|] eqn:Hbase.
      * injection Hfirst as <-.
        rewrite CreateBranch_reached by (apply Hnext; reflexivity).
        cbn. rewrite lookup_insert_eq. eexists. split; reflexivity.
      * destruct (strings_Contains _ "Reference already exists") eqn:Hphrase;
          [|discriminate].
        injection Hfirst as <-.
        rewrite CreateBranch_reached by (apply Hnext; reflexivity).
        cbn. rewrite Href, Hbase, Hphrase. eexists. split; reflexivity.
Qed.

(** C9.  Once the remote has created the pull request,
    [CreatePullRequest] returns a response carrying its number and URLs,
    whatever happens to the calls adding labels and assignees (the fault
    plan of the remote is arbitrary). *)
Theorem CreatePullRequest_survives_side_effect_failures
    (g : GitHubProvider) (req : PRRequest) (s s1 : remote) (created : PullRequest) :
  PullRequests_Create (owner g) (repo g)
    {| np_Title := Title req; np_Body := Body req; np_Head := Head req;
       np_Base := Base req; np_Draft := Draft req |} s = (Ok created, s1) ->
  exists s',
    CreatePullRequest g req s
    = (Ok {| Number := pr_Number created; URL := pr_URL created;
             HTMLURL := pr_HTMLURL created |}, s').
Proof.
  intros Hcreate. unfold CreatePullRequest, bind, wrap, ret, nonfatal.
  rewrite Hcreate.
  destruct (0 <? length (Labels req))%nat, (0 <? length (Assignees req))%nat;
    eexists; reflexivity.
Qed.

End RemoteProtocol.


(** Creating the existing branch [fix] again, and creating a new branch
    twice. *)
Lemma CreateBranch_existing_reference_witness :
  (exists s', gitprovider.CreateBranch fixtures.provider "fix" "c0"
                (fixtures.repository fixtures.healthy) = (gitprovider.Ok tt, s'))
  /\ (exists s1 s2,
        gitprovider.CreateBranch fixtures.provider "sentry-fix-12345" "c0"
          (fixtures.repository fixtures.healthy) = (gitprovider.Ok tt, s1)
        /\ gitprovider.CreateBranch fixtures.provider "sentry-fix-12345" "c0" s1
           = (gitprovider.Ok tt, s2)).
Proof.
  split.
  - destruct (CreateBranch_existing_reference fixtures.provider "fix" "c0"
                (fixtures.repository fixtures.healthy)) as (_ & Hexists & _).
    destruct Hexists as (s' & Hrun & _);
      [vm_compute; eauto | reflexivity | exists s'; exact Hrun].
  - destruct (CreateBranch_existing_reference fixtures.provider "sentry-fix-12345"
                "c0" (fixtures.repository fixtures.healthy)) as (_ & _ & Htwice).
    destruct (gitprovider.CreateBranch fixtures.provider "sentry-fix-12345" "c0"
                (fixtures.repository fixtures.healthy)) as [[[]|e] s1] eqn:E.
    2:{ vm_compute in E. discriminate E. }
    destruct (Htwice s1 eq_refl eq_refl eq_refl) as (s2 & Hsecond & _).
    exists s1, s2. split; [reflexivity | exact Hsecond].
Defined.

(** A pull request with a label and an assignee against a remote that
    fails every call after the first: the response still carries number 1
    and the URLs. *)
Lemma CreatePullRequest_survives_side_effect_failures_witness :
  exists s',
    gitprovider.CreatePullRequest fixtures.provider fixtures.pr_request
      (fixtures.repository fixtures.down_after_first)
    = (gitprovider.Ok
         {| gitprovider.Number := 1;
            gitprovider.URL := "https://api.github.com/repos/acme/shop/pulls/1";
            gitprovider.HTMLURL := "https://github.com/acme/shop/pull/1" |}, s').
Proof.
  destruct (gitprovider.github.PullRequests_Create "acme" "shop"
              {| gitprovider.github.np_Title := "Fix";
                 gitprovider.github.np_Body := "Fixes the issue";
                 gitprovider.github.np_Head := "fix";
                 gitprovider.github.np_Base := "main";
                 gitprovider.github.np_Draft := false |}
              (fixtures.repository fixtures.down_after_first))
    as [[created|e] s1] eqn:E.
  2:{ vm_compute in E. discriminate E. }
  destruct (CreatePullRequest_survives_side_effect_failures fixtures.provider
              fixtures.pr_request _ _ _ E) as (s' & Hrun).
  exists s'. rewrite Hrun. vm_compute in E. injection E as <- _. reflexivity.
Defined.

(** ** The scenarios of the specification, end to end *)

(** A body signed with the shared secret passes the gate and its job is
    queued; the same body signed with another secret is answered 401 and
    the queue stays empty. *)
Example signed_created_webhook_is_queued :
  let body := bytes_of (fixtures.json_valid "created") in
  let gate := webhook.Middleware (webhook.NewSignatureVerifier "s3cret")
                (webhook.ServeHTTP fixtures.int_of_float64 fixtures.decode) in
  let request secret :=
    fixtures.signed_request (webhook.computeSignature secret body)
      (http.wire body None) in
  let queue := webhook.make_chan fixtures.float64 100 in
  (exists w q, gate http.NewRecorder (request "s3cret") queue = http.Return w q
               /\ http.Code w = 202 /\ webhook.buf q = [fixtures.testJob])
  /\ (exists w, gate http.NewRecorder (request "wrong") queue = http.Return w queue
                /\ http.Code w = 401).
Proof.
  split; [eexists _, _ | eexists]; vm_compute; repeat split.
Qed.

(** ** Remote repository protocol: the provider's other paths *)
Section ProviderOperations.

Import gitprovider gitprovider.github.

(** What a successful [CommitFiles] found and the state it leaves. *)
Lemma CommitFiles_success (g : GitHubProvider) (branch : string)
    (files : list FileChange) (message : string) (s s' : remote) (sha : string) :
  CommitFiles g branch files message s = (Ok sha, s') ->
  let ref := ("refs/heads/" +:+ branch)%string in
  exists parent pc base,
    refs s !! ref = Some parent
    /\ commits s !! parent = Some pc
    /\ base_tree s (Tree_SHA (Commit_Tree pc)) = Some base
    /\ sha = pretty (S (objects s))
    /\ refs s' = <[ref := sha]> (refs s)
    /\ commits s' = <[sha := {| SHA := sha; Message := message;
                                Commit_Tree := {| Tree_SHA := pretty (objects s) |};
                                Parents := [parent] |}]> (commits s)
    /\ trees s' = <[pretty (objects s) := overlay base (tree_entries files)]> (trees s)
    /\ pulls s' = pulls s
    /\ objects s' = S (S (objects s))
    /\ outage s' = outage s
    /\ length (calls s') = (length (calls s) + 5)%nat.
Proof.
  intros H ref. unfold CommitFiles, bind, wrap, ret in H. fold ref in H.
  destruct (Git_GetRef _ _ ref s) as [[x|e] s1] eqn:E1; [|discriminate].
  apply GetRef_ok in E1 as (-> & Hx & Hr).
  destruct (Git_GetCommit _ _ _ _) as [[pc|e] s2] eqn:E2; [|discriminate].
  apply GetCommit_ok in E2 as (-> & Hc). cbn in Hc.
  destruct (Git_CreateTree _ _ _ _ _) as [[t|e] s3] eqn:E3; [|discriminate].
  apply CreateTree_ok in E3 as (base & Hb & -> & ->).
  destruct (Git_CreateCommit _ _ _ _ _ _) as [[c|e] s4] eqn:E4; [|discriminate].
  apply CreateCommit_ok in E4 as (-> & ->).
  destruct (Git_UpdateRef _ _ _ _ _) as [[y|e] s5] eqn:E5; [|discriminate].
  apply UpdateRef_ok in E5 as ->.
  injection H as <- <-. cbn.
  exists (Object_SHA x), pc, base. rewrite Hx.
  repeat split; try assumption.
  rewrite !length_app. cbn. lia.
Qed.

(** The four shapes of the state [CommitFiles] can leave: nothing stored
    (a failure in the first three calls), an orphan tree (the commit could
    not be created), an orphan tree and commit (the reference could not be
    moved), or the commit landed. *)
Lemma CommitFiles_footprint (g : GitHubProvider) (branch : string)
    (files : list FileChange) (message : string) (s s' : remote)
    (r : result string) :
  CommitFiles g branch files message s = (r, s') ->
  let ref := ("refs/heads/" +:+ branch)%string in
  let tree_id := pretty (objects s) in
  let commit_id := pretty (S (objects s)) in
  pulls s' = pulls s /\ outage s' = outage s
  /\ ((exists e, r = Err e) /\ refs s' = refs s /\ commits s' = commits s
        /\ trees s' = trees s /\ objects s' = objects s
      \/ (exists e, r = Err e) /\ refs s' = refs s /\ commits s' = commits s
         /\ (exists t, trees s' = <[tree_id := t]> (trees s))
         /\ objects s' = S (objects s)
      \/ (exists c, commits s' = <[commit_id := c]> (commits s)
                    /\ SHA c = commit_id /\ Tree_SHA (Commit_Tree c) = tree_id)
         /\ (exists t, trees s' = <[tree_id := t]> (trees s))
         /\ objects s' = S (S (objects s))
         /\ ((exists e, r = Err e) /\ refs s' = refs s
             \/ r = Ok commit_id /\ refs s' = <[ref := commit_id]> (refs s))).
Proof.
  intros H ref tree_id commit_id.
  unfold CommitFiles, bind, wrap, ret in H. fold ref in H.
  destruct (Git_GetRef _ _ ref s) as [[x|e1] s1] eqn:E1.
  2:{ apply GetRef_err in E1 as ->. injection H as <- <-. cbn.
      split; [reflexivity|]. split; [reflexivity|]. left. repeat split. eauto. }
  apply GetRef_ok in E1 as (-> & Hx & Hr).
  destruct (Git_GetCommit _ _ _ _) as [[pc|e2] s2] eqn:E2.
  2:{ apply GetCommit_err in E2 as ->. injection H as <- <-. cbn.
      split; [reflexivity|]. split; [reflexivity|]. left. repeat split. eauto. }
  apply GetCommit_ok in E2 as (-> & Hc). cbn in Hc.
  destruct (Git_CreateTree _ _ _ _ _) as [[t|e3] s3] eqn:E3.
  2:{ apply CreateTree_err in E3 as ->. injection H as <- <-. cbn.
      split; [reflexivity|]. split; [reflexivity|]. left. repeat split. eauto. }
  apply CreateTree_ok in E3 as (base & Hb & -> & ->).
  destruct (Git_CreateCommit _ _ _ _ _ _) as [[c|e4] s4] eqn:E4.
  2:{ apply CreateCommit_err in E4 as ->. injection H as <- <-. cbn.
      split; [reflexivity|]. split; [reflexivity|]. right. left.
      repeat split; eauto. }
  apply CreateCommit_ok in E4 as (-> & ->).
  destruct (Git_UpdateRef _ _ _ _ _) as [[y|e5] s5] eqn:E5.
  - apply UpdateRef_ok in E5 as ->. injection H as <- <-. cbn.
    split; [reflexivity|]. split; [reflexivity|]. right. right.
    repeat split; eauto. right. rewrite Hx. split; reflexivity.
  - apply UpdateRef_err in E5 as ->. injection H as <- <-. cbn.
    split; [reflexivity|]. split; [reflexivity|]. right. right.
    repeat split; eauto.
Qed.

(** [CommitFiles] when the branch, its commit and the base tree exist and
    the remote answers five calls. *)
Lemma CommitFiles_progress (g : GitHubProvider) (branch : string)
    (files : list FileChange) (message : string) (s : remote)
    (parent : string) (pc : Commit) (base : gmap string Blob) :
  refs s !! ("refs/heads/" +:+ branch)%string = Some parent ->
  commits s !! parent = Some pc ->
  base_tree s (Tree_SHA (Commit_Tree pc)) = Some base ->
  (forall k, (k < 5)%nat -> outage s (length (calls s) + k) = None) ->
  exists s', CommitFiles g branch files message s = (Ok (pretty (S (objects s))), s').
Proof.
  intros Hr Hc Hb Hup.
  pose proof (Hup 0%nat ltac:(lia)) as H0. pose proof (Hup 1%nat ltac:(lia)) as H1.
  pose proof (Hup 2%nat ltac:(lia)) as H2. pose proof (Hup 3%nat ltac:(lia)) as H3.
  pose proof (Hup 4%nat ltac:(lia)) as H4.
  rewrite Nat.add_0_r in H0.
  unfold CommitFiles, bind, wrap, ret, Git_GetRef, Git_GetCommit, Git_CreateTree,
    Git_CreateCommit, Git_UpdateRef, request; cbn.
  rewrite H0; cbn. rewrite Hr; cbn.
  rewrite length_app; cbn. rewrite H1; cbn. rewrite Hc; cbn.
  rewrite !length_app; cbn. rewrite <- Nat.add_assoc; cbn. rewrite H2.
  change (base_tree _ ?bt) with (base_tree s bt). rewrite Hb; cbn.
  rewrite !length_app; cbn. rewrite <- !Nat.add_assoc; cbn. rewrite H3.
  rewrite lookup_insert_eq; cbn.
  rewrite !length_app; cbn. rewrite <- !Nat.add_assoc; cbn. rewrite H4.
  rewrite Hr. eauto.
Qed.

Lemma pretty_nat_neq (a b : nat) : a <> b -> pretty a <> pretty b.
Proof. intros Hne Heq. apply Hne. exact (pretty_nat_inj a b Heq). Qed.

Lemma base_tree_stored (s : remote) (id : string) :
  is_Some (trees s !! id) -> is_Some (base_tree s id).
Proof.
  unfold base_tree. destruct (String.eqb id ""); [eauto | auto].
Qed.

(** X18: objects are append-only. *)
Theorem CommitFiles_only_adds (g : GitHubProvider) (branch : string)
    (files : list FileChange) (message : string) (s s' : remote)
    (r : result string) :
  names_free s ->
  CommitFiles g branch files message s = (r, s') ->
  commits s ⊆ commits s'
  /\ trees s ⊆ trees s'
  /\ pulls s' = pulls s
  /\ (forall other, other <> ("refs/heads/" +:+ branch)%string ->
        refs s' !! other = refs s !! other)
  /\ (forall e, r = Err e -> refs s' = refs s).
Proof.
  intros Hfree H.
  destruct (Hfree (objects s) ltac:(lia)) as [_ Htree_free].
  destruct (Hfree (S (objects s)) ltac:(lia)) as [Hcommit_free _].
  destruct (CommitFiles_footprint _ _ _ _ _ _ _ H) as (Hpulls & _ & Hcases).
  destruct Hcases as
    [(_ & Hr & -> & -> & _)
    |[(_ & Hr & -> & (t & ->) & _)
     |((c & -> & _) & (t & ->) & _ & Hr)]].
  - rewrite Hr. repeat split; auto.
  - rewrite Hr. repeat split; auto. apply insert_subseteq, Htree_free.
  - repeat split; auto.
    + apply insert_subseteq, Hcommit_free.
    + apply insert_subseteq, Htree_free.
    + intros other Hother. destruct Hr as [[_ ->] | [_ ->]]; [reflexivity|].
      apply lookup_insert_ne. congruence.
    + intros e ->. destruct Hr as [[_ ->] | [[=] _]]. reflexivity.
Qed.

Lemma CreateBranch_footprint (g : GitHubProvider) (name baseSHA : string)
    (s s' : remote) (r : result unit) :
  CreateBranch g name baseSHA s = (r, s') ->
  let ref := ("refs/heads/" +:+ name)%string in
  commits s' = commits s /\ trees s' = trees s /\ objects s' = objects s
  /\ pulls s' = pulls s /\ outage s' = outage s
  /\ calls s' = calls s ++ [CreateRef ref baseSHA]
  /\ (refs s' = refs s
      \/ r = Ok tt /\ refs s !! ref = None /\ is_Some (commits s !! baseSHA)
         /\ refs s' = <[ref := baseSHA]> (refs s)).
Proof.
  intros H ref. unfold CreateBranch in H. fold ref in H.
  destruct (Git_CreateRef _ _ _ s) as [[x|e] s1] eqn:E.
  - injection H as <- <-.
    apply request_inv in E as [(e' & _ & [=] & _)|[_ E]]. cbn in E. fold ref in E.
    destruct (refs s !! ref) eqn:Href; [discriminate|].
    destruct (commits s !! baseSHA) eqn:Hbase; [|discriminate].
    injection E as _ <-. cbn. fold ref. repeat split. right. repeat split; eauto.
  - assert (s1 = logged s (CreateRef ref baseSHA)) as ->.
    { apply request_inv in E as [(e' & _ & _ & ->)|[_ E]]; [reflexivity|].
      cbn in E. fold ref in E. destruct (refs s !! ref); [injection E as _ <-; reflexivity|].
      destruct (commits s !! baseSHA); [discriminate|]. injection E as _ <-. reflexivity. }
    destruct (strings_Contains e _); injection H as <- <-; cbn; repeat split; left; reflexivity.
Qed.

Lemma GetLatestCommitSHA_run (g : GitHubProvider) (branch : string)
    (s s' : remote) (r : result string) :
  GetLatestCommitSHA g branch s = (r, s') ->
  s' = logged s (GetRef ("refs/heads/" +:+ branch)).
Proof.
  unfold GetLatestCommitSHA, bind, wrap, ret.
  destruct (Git_GetRef _ _ _ s) as [[x|e] s1] eqn:E; intros [= <- <-].
  - apply GetRef_ok in E as (-> & _). reflexivity.
  - apply GetRef_err in E as ->. reflexivity.
Qed.

Lemma GetLatestCommitSHA_found (g : GitHubProvider) (branch : string)
    (s : remote) (sha : string) :
  refs s !! ("refs/heads/" +:+ branch)%string = Some sha ->
  outage s (length (calls s)) = None ->
  GetLatestCommitSHA g branch s
  = (Ok sha, logged s (GetRef ("refs/heads/" +:+ branch))).
Proof.
  intros Href Hup. unfold GetLatestCommitSHA, bind, wrap, ret, Git_GetRef, request.
  rewrite Hup. cbn. rewrite Href. reflexivity.
Qed.

(** X16: [GetLatestCommitSHA] reads the branch reference and changes nothing
    but the call log. *)
Theorem GetLatestCommitSHA_reads_head (g : GitHubProvider) (branch : string)
    (s : remote) :
  let ref := ("refs/heads/" +:+ branch)%string in
  let s' := logged s (GetRef ref) in
  (forall sha, refs s !! ref = Some sha -> outage s (length (calls s)) = None ->
     GetLatestCommitSHA g branch s = (Ok sha, s'))
  /\ (refs s !! ref = None \/ is_Some (outage s (length (calls s))) ->
      exists cause,
        GetLatestCommitSHA g branch s
        = (Err (("failed to get ref for branch " +:+ branch +:+ ": ") +:+ cause), s'))
  /\ refs s' = refs s /\ commits s' = commits s /\ trees s' = trees s
  /\ pulls s' = pulls s.
Proof.
  intros ref s'. split; [|split; [|repeat split]].
  - intros sha Href Hup. apply GetLatestCommitSHA_found; assumption.
  - intros Hbad. unfold GetLatestCommitSHA, bind, wrap, ret, Git_GetRef, request.
    fold ref. destruct (outage s (length (calls s))) as [e|] eqn:Hup.
    + eexists. reflexivity.
    + destruct Hbad as [Href | [e He]]; [|discriminate].
      cbn. rewrite Href. eexists. reflexivity.
Qed.

(** X17: a branch that does not exist yet is created at the base commit. *)
Theorem CreateBranch_creates_branch (g : GitHubProvider) (name baseSHA : string)
    (s : remote) :
  let ref := ("refs/heads/" +:+ name)%string in
  refs s !! ref = None ->
  is_Some (commits s !! baseSHA) ->
  outage s (length (calls s)) = None ->
  outage s (S (length (calls s))) = None ->
  exists s1 s2,
    CreateBranch g name baseSHA s = (Ok tt, s1)
    /\ refs s1 = <[ref := baseSHA]> (refs s)
    /\ commits s1 = commits s /\ trees s1 = trees s
    /\ GetLatestCommitSHA g name s1 = (Ok baseSHA, s2).
Proof.
  intros ref Href [c Hc] Hup0 Hup1.
  rewrite CreateBranch_reached by exact Hup0. fold ref. rewrite Href, Hc.
  eexists _, _. split; [reflexivity|]. cbn. repeat split.
  apply GetLatestCommitSHA_found.
  - cbn. fold ref. apply lookup_insert_eq.
  - cbn. rewrite length_app. cbn. rewrite Nat.add_1_r. exact Hup1.
Qed.

(** X19: after a successful [CommitFiles] the branch head is the returned
    commit. *)
Theorem CommitFiles_then_head (g : GitHubProvider) (branch : string)
    (files : list FileChange) (message : string) (s s' : remote) (sha : string) :
  CommitFiles g branch files message s = (Ok sha, s') ->
  outage s (length (calls s) + 5) = None ->
  exists s'', GetLatestCommitSHA g branch s' = (Ok sha, s'').
Proof.
  intros H Hup.
  destruct (CommitFiles_success _ _ _ _ _ _ _ H)
    as (parent & pc & base & _ & _ & _ & _ & Hrefs & _ & _ & _ & _ & Hout & Hlen).
  eexists. apply GetLatestCommitSHA_found.
  - rewrite Hrefs. apply lookup_insert_eq.
  - rewrite Hout, Hlen. exact Hup.
Qed.

Lemma request_kept {A} (c : call) (serve : M A) (s s' : remote) (r : result A) :
  (forall s0 r0 s0', serve s0 = (r0, s0') ->
     refs s0' = refs s0 /\ commits s0' = commits s0 /\ trees s0' = trees s0
     /\ objects s0' = objects s0 /\ outage s0' = outage s0
     /\ calls s0' = calls s0) ->
  request c serve s = (r, s') ->
  refs s' = refs s /\ commits s' = commits s /\ trees s' = trees s
  /\ objects s' = objects s /\ outage s' = outage s
  /\ calls s' = calls s ++ [c].
Proof.
  intros Hserve H. apply request_inv in H as [(e & _ & _ & ->)|[_ H]].
  - repeat split.
  - apply Hserve in H as (-> & -> & -> & -> & -> & ->). repeat split.
Qed.

Lemma PullRequests_Create_kept (o r : string) (pull : NewPullRequest)
    (s s' : remote) (res : result PullRequest) :
  PullRequests_Create o r pull s = (res, s') ->
  refs s' = refs s /\ commits s' = commits s /\ trees s' = trees s
  /\ objects s' = objects s /\ outage s' = outage s
  /\ calls s' = calls s ++ [CreatePull pull].
Proof.
  apply request_kept. intros s0 r0 s0' H. cbn in H.
  repeat case_match; simplify_eq; repeat split.
Qed.

Lemma AddLabelsToIssue_kept (o r : string) (n : Z) (labels : list string)
    (s s' : remote) (res : result (list string)) :
  Issues_AddLabelsToIssue o r n labels s = (res, s') ->
  refs s' = refs s /\ commits s' = commits s /\ trees s' = trees s
  /\ objects s' = objects s /\ outage s' = outage s
  /\ calls s' = calls s ++ [AddLabelsToIssue n labels].
Proof.
  apply request_kept. intros s0 r0 s0' H. cbn in H.
  repeat case_match; simplify_eq; repeat split.
Qed.

Lemma AddAssignees_kept (o r : string) (n : Z) (assignees : list string)
    (s s' : remote) (res : result unit) :
  Issues_AddAssignees o r n assignees s = (res, s') ->
  refs s' = refs s /\ commits s' = commits s /\ trees s' = trees s
  /\ objects s' = objects s /\ outage s' = outage s
  /\ calls s' = calls s ++ [AddAssignees n assignees].
Proof.
  apply request_kept. intros s0 r0 s0' H. cbn in H.
  repeat case_match; simplify_eq; repeat split.
Qed.

Lemma CreatePullRequest_run (g : GitHubProvider) (req : PRRequest)
    (s s' : remote) (r : result PRResponse) :
  CreatePullRequest g req s = (r, s') ->
  let pull := {| np_Title := Title req; np_Body := Body req; np_Head := Head req;
                 np_Base := Base req; np_Draft := Draft req |} in
  refs s' = refs s /\ commits s' = commits s /\ trees s' = trees s
  /\ objects s' = objects s /\ outage s' = outage s
  /\ match r with
     | Err e =>
         calls s' = calls s ++ [CreatePull pull]
         /\ pulls s' = pulls s
         /\ exists cause, e = ("failed to create pull request: " +:+ cause)%string
     | Ok resp =>
         calls s' = calls s ++ CreatePull pull
                      :: match Labels req with
                         | [] => []
                         | _ => [AddLabelsToIssue (Number resp) (Labels req)]
                         end
                      ++ match Assignees req with
                         | [] => []
                         | _ => [AddAssignees (Number resp) (Assignees req)]
                         end
     end.
Proof.
  intros H pull. unfold CreatePullRequest, bind, wrap, ret, nonfatal in H.
  fold pull in H.
  destruct (PullRequests_Create _ _ pull s) as [[created|e] s1] eqn:E1.
  2:{ injection H as <- <-.
      pose proof (PullRequests_Create_kept _ _ _ _ _ _ E1)
        as (-> & -> & -> & -> & -> & ->).
      repeat split; eauto.
      apply request_inv in E1 as [(e' & _ & _ & ->)|[_ E1]]; [reflexivity|].
      cbn in E1. repeat case_match; simplify_eq; reflexivity. }
  pose proof (PullRequests_Create_kept _ _ _ _ _ _ E1)
    as (Hr1 & Hc1 & Ht1 & Ho1 & Hu1 & Hl1).
  destruct (Labels req) as [|l ls] eqn:Hlabels; cbn in H.
  - destruct (Assignees req) as [|a asg] eqn:Hassign; cbn in H.
    + injection H as <- <-. cbn. rewrite Hl1. repeat split; assumption.
    + destruct (Issues_AddAssignees _ _ _ _ s1) as [ra sa] eqn:E3; cbn in H.
      injection H as <- <-. cbn.
      pose proof (AddAssignees_kept _ _ _ _ _ _ _ E3)
        as (-> & -> & -> & -> & -> & ->).
      rewrite Hl1, <- app_assoc. repeat split; assumption.
  - destruct (Issues_AddLabelsToIssue _ _ _ _ s1) as [rl sl] eqn:E2; cbn in H.
    pose proof (AddLabelsToIssue_kept _ _ _ _ _ _ _ E2)
      as (Hr2 & Hc2 & Ht2 & Ho2 & Hu2 & Hl2).
    destruct (Assignees req) as [|a asg] eqn:Hassign; cbn in H.
    + injection H as <- <-. cbn. rewrite Hl2, Hl1, <- app_assoc.
      repeat split; congruence.
    + destruct (Issues_AddAssignees _ _ _ _ sl) as [ra sa] eqn:E3; cbn in H.
      injection H as <- <-. cbn.
      pose proof (AddAssignees_kept _ _ _ _ _ _ _ E3)
        as (-> & -> & -> & -> & -> & ->).
      rewrite Hl2, Hl1, <- !app_assoc. repeat split; congruence.
Qed.

(** X23: the provider's operations keep the repository well formed, whether
    they succeed or fail. *)
Theorem provider_keeps_remote_ok (g : GitHubProvider) (s : remote) :
  remote_ok s ->
  (forall branch files message r s',
     CommitFiles g branch files message s = (r, s') -> remote_ok s')
  /\ (forall name baseSHA r s',
        CreateBranch g name baseSHA s = (r, s') -> remote_ok s')
  /\ (forall branch r s', GetLatestCommitSHA g branch s = (r, s') -> remote_ok s')
  /\ (forall req r s', CreatePullRequest g req s = (r, s') -> remote_ok s').
Proof.
  intros [Hfree [Hrefs Hcommits]]. split; [|split; [|split]].
  - intros branch files message r s' H.
    destruct (Hfree (objects s) ltac:(lia)) as [_ Htree_free].
    destruct (Hfree (S (objects s)) ltac:(lia)) as [Hcommit_free _].
    assert (forall id c t, commits s !! id = Some c ->
              SHA c = id /\ is_Some (<[pretty (objects s) := t]> (trees s)
                                       !! Tree_SHA (Commit_Tree c))) as Hold.
    { intros id c t Hid. destruct (Hcommits id c Hid) as [Hs [t' Ht']].
      split; [exact Hs|]. exists t'.
      eapply lookup_weaken; [exact Ht' | apply insert_subseteq, Htree_free]. }
    destruct (CommitFiles_footprint _ _ _ _ _ _ _ H) as (_ & _ & Hcases).
    destruct Hcases as
      [(_ & Hr & Hc & Ht & Ho)
      |[(_ & Hr & Hc & (t & Ht) & Ho)
       |((c & Hc & Hsha & Htree) & (t & Ht) & Ho & Hr)]].
    + split; [|split].
      * intros k Hk. rewrite Hc, Ht. apply Hfree. lia.
      * rewrite Hr, Hc. exact Hrefs.
      * rewrite Hc, Ht. exact Hcommits.
    + split; [|split].
      * intros k Hk. rewrite Hc, Ht. destruct (Hfree k ltac:(lia)) as [Hck Htk].
        split; [exact Hck|]. rewrite lookup_insert_ne; [exact Htk|].
        apply pretty_nat_neq. lia.
      * rewrite Hr, Hc. exact Hrefs.
      * rewrite Hc, Ht. intros id c. apply Hold.
    + assert (forall id c', commits s' !! id = Some c' ->
                SHA c' = id /\ is_Some (trees s' !! Tree_SHA (Commit_Tree c')))
        as Hclosed.
      { rewrite Hc, Ht. intros id c' Hid.
        destruct (decide (pretty (S (objects s)) = id)) as [<-|Hne].
        - rewrite lookup_insert_eq in Hid. injection Hid as <-.
          split; [exact Hsha|]. rewrite Htree, lookup_insert_eq. eauto.
        - rewrite lookup_insert_ne in Hid by exact Hne. eapply Hold, Hid. }
      split; [|split; [|exact Hclosed]].
      * intros k Hk. rewrite Hc, Ht. destruct (Hfree k ltac:(lia)) as [Hck Htk].
        split; (rewrite lookup_insert_ne; [assumption|]); apply pretty_nat_neq; lia.
      * assert (forall rf sha, refs s !! rf = Some sha -> is_Some (commits s' !! sha))
          as Hkept.
        { intros rf sha Hsha'. destruct (Hrefs rf sha Hsha') as [c' Hc'].
          exists c'. rewrite Hc.
          eapply lookup_weaken; [exact Hc' | apply insert_subseteq, Hcommit_free]. }
        intros rf sha Hrf. destruct Hr as [[_ Heq] | [_ Heq]]; rewrite Heq in Hrf.
        -- eapply Hkept, Hrf.
        -- destruct (decide (("refs/heads/" +:+ branch)%string = rf)) as [<-|Hne].
           ++ rewrite lookup_insert_eq in Hrf. injection Hrf as <-.
              rewrite Hc, lookup_insert_eq. eauto.
           ++ rewrite lookup_insert_ne in Hrf by exact Hne. eapply Hkept, Hrf.
  - intros name baseSHA r s' H.
    destruct (CreateBranch_footprint _ _ _ _ _ _ H)
      as (Hc & Ht & Hobj & _ & _ & _ & Hr).
    split; [|split].
    + intros k Hk. rewrite Hc, Ht. apply Hfree. rewrite <- Hobj. exact Hk.
    + intros rf sha Hsha. rewrite Hc.
      destruct Hr as [Heq | (_ & _ & Hbase & Heq)]; rewrite Heq in Hsha.
      * eapply Hrefs, Hsha.
      * destruct (decide (("refs/heads/" +:+ name)%string = rf)) as [<-|Hne].
        -- rewrite lookup_insert_eq in Hsha. injection Hsha as <-. exact Hbase.
        -- rewrite lookup_insert_ne in Hsha by exact Hne. eapply Hrefs, Hsha.
    + rewrite Hc, Ht. exact Hcommits.
  - intros branch r s' H. apply GetLatestCommitSHA_run in H as ->.
    split; [exact Hfree | split; [exact Hrefs | exact Hcommits]].
  - intros req r s' H.
    destruct (CreatePullRequest_run _ _ _ _ _ H) as (Hr & Hc & Ht & Hobj & _).
    split; [|split].
    + intros k Hk. rewrite Hc, Ht. apply Hfree. rewrite <- Hobj. exact Hk.
    + rewrite Hr, Hc. exact Hrefs.
    + rewrite Hc, Ht. exact Hcommits.
Qed.

(** X21: the remote calls of [CreatePullRequest]. *)
Theorem CreatePullRequest_calls (g : GitHubProvider) (req : PRRequest)
    (s s' : remote) (r : result PRResponse) :
  CreatePullRequest g req s = (r, s') ->
  let pull := {| np_Title := Title req; np_Body := Body req; np_Head := Head req;
                 np_Base := Base req; np_Draft := Draft req |} in
  refs s' = refs s /\ commits s' = commits s /\ trees s' = trees s
  /\ match r with
     | Err e =>
         calls s' = calls s ++ [CreatePull pull]
         /\ pulls s' = pulls s
         /\ exists cause, e = ("failed to create pull request: " +:+ cause)%string
     | Ok resp =>
         calls s' = calls s ++ CreatePull pull
                      :: match Labels req with
                         | [] => []
                         | _ => [AddLabelsToIssue (Number resp) (Labels req)]
                         end
                      ++ match Assignees req with
                         | [] => []
                         | _ => [AddAssignees (Number resp) (Assignees req)]
                         end
     end.
Proof.
  intros H pull.
  destruct (CreatePullRequest_run g req s s' r H) as (Hr & Hc & Ht & _ & _ & Hcalls).
  repeat split; assumption.
Qed.

Lemma pretty_N_go_nonempty (x : N) (s : string) :
  s <> EmptyString -> pretty_N_go x s <> EmptyString.
Proof.
  revert s. induction (N.lt_wf_0 x) as [x _ IH]; intros s Hs.
  destruct (decide (x = 0)%N) as [->|Hx].
  - rewrite pretty_N_go_0. exact Hs.
  - rewrite pretty_N_go_step by lia. apply IH; [apply N.div_lt; lia | discriminate].
Qed.

Lemma pretty_nat_nonempty (n : nat) : pretty n <> EmptyString.
Proof.
  unfold pretty, pretty_nat, pretty, pretty_N.
  destruct (decide (N.of_nat n = 0)%N); [discriminate|].
  rewrite pretty_N_go_step by lia. apply pretty_N_go_nonempty. discriminate.
Qed.

Lemma base_tree_numbered (s : remote) (n : nat) :
  base_tree s (pretty n) = trees s !! pretty n.
Proof.
  unfold base_tree. destruct (String.eqb_spec (pretty n) "") as [Heq|_];
    [|reflexivity].
  destruct (pretty_nat_nonempty n Heq).
Qed.

(** X20: running [CommitFiles] again with the same arguments. *)
Theorem CommitFiles_retry (g : GitHubProvider) (branch : string)
    (files : list FileChange) (message : string) (s : remote) (head : string) :
  let ref := ("refs/heads/" +:+ branch)%string in
  closed s ->
  refs s !! ref = Some head ->
  (forall k, (k < 10)%nat -> outage s (length (calls s) + k) = None) ->
  exists sha1 s1 sha2 s2 c1 c2 base t2,
    CommitFiles g branch files message s = (Ok sha1, s1)
    /\ CommitFiles g branch files message s1 = (Ok sha2, s2)
    /\ sha1 <> sha2
    /\ commits s2 !! sha1 = Some c1 /\ Parents c1 = [head]
    /\ commits s2 !! sha2 = Some c2 /\ Parents c2 = [sha1]
    /\ refs s2 !! ref = Some sha2
    /\ (exists pc, commits s !! head = Some pc
                   /\ base_tree s (Tree_SHA (Commit_Tree pc)) = Some base)
    /\ trees s2 !! Tree_SHA (Commit_Tree c2) = Some t2
    /\ (forall p, (forall f, In f files -> Path f <> p) -> t2 !! p = base !! p)
    /\ (forall before f after, files = before ++ f :: after ->
          (forall f', In f' after -> Path f' <> Path f) ->
          t2 !! Path f
          = Some {| blob_mode := if String.eqb (Mode f) "" then "100644" else Mode f;
                    blob_content := Content f |}).
Proof.
  intros ref [Hrefs Hcommits] Hhead Hup.
  destruct (Hrefs ref head Hhead) as [pc Hpc].
  assert (is_Some (base_tree s (Tree_SHA (Commit_Tree pc)))) as [base0 Hbase0].
  { apply base_tree_stored. eapply Hcommits, Hpc. }
  destruct (CommitFiles_progress g branch files message s head pc base0 Hhead Hpc Hbase0)
    as [s1 Hrun1]; [intros k Hk; apply Hup; lia|].
  destruct (CommitFiles_success _ _ _ _ _ _ _ Hrun1)
    as (parent1 & pc1 & b1 & Hp1 & Hpc1 & Hb1 & _ & Hr1 & Hc1 & Ht1 & _ & Ho1 & Hu1 & Hl1).
  fold ref in Hp1. rewrite Hhead in Hp1. injection Hp1 as <-.
  rewrite Hpc in Hpc1. injection Hpc1 as <-.
  rewrite Hbase0 in Hb1. injection Hb1 as <-.
  set (sha1 := pretty (S (objects s))) in *.
  set (t1 := pretty (objects s)) in *.
  set (c1 := {| SHA := sha1; Message := message;
                Commit_Tree := {| Tree_SHA := t1 |}; Parents := [head] |}) in *.
  assert (refs s1 !! ref = Some sha1) as Hhead1
    by (rewrite Hr1; apply lookup_insert_eq).
  assert (commits s1 !! sha1 = Some c1) as Hpc1
    by (rewrite Hc1; apply lookup_insert_eq).
  assert (base_tree s1 (Tree_SHA (Commit_Tree c1))
          = Some (overlay base0 (tree_entries files))) as Hbase1.
  { cbn. unfold t1. rewrite base_tree_numbered, Ht1. apply lookup_insert_eq. }
  destruct (CommitFiles_progress g branch files message s1 sha1 c1 _ Hhead1 Hpc1 Hbase1)
    as [s2 Hrun2].
  { intros k Hk. rewrite Hu1, Hl1, <- Nat.add_assoc. apply Hup. lia. }
  destruct (CommitFiles_success _ _ _ _ _ _ _ Hrun2)
    as (parent2 & pc2 & b2 & Hp2 & Hpc2 & Hb2 & _ & Hr2 & Hc2 & Ht2 & _).
  fold ref in Hp2. rewrite Hhead1 in Hp2. injection Hp2 as <-.
  rewrite Hpc1 in Hpc2. injection Hpc2 as <-.
  rewrite Hbase1 in Hb2. injection Hb2 as <-.
  assert (sha1 <> pretty (S (objects s1))) as Hne.
  { apply pretty_nat_neq. lia. }
  eexists sha1, s1, _, s2, c1, _, base0, _.
  split; [exact Hrun1|]. split; [exact Hrun2|]. split; [exact Hne|].
  split; [rewrite Hc2, lookup_insert_ne by congruence; exact Hpc1|].
  split; [reflexivity|].
  split; [rewrite Hc2; apply lookup_insert_eq|].
  split; [reflexivity|].
  split; [rewrite Hr2; apply lookup_insert_eq|].
  split; [eauto|].
  split; [cbn; rewrite Ht2; apply lookup_insert_eq|].
  split.
  - intros p Hp. rewrite !overlay_inherits by exact Hp. reflexivity.
  - intros before f after -> Hafter. apply overlay_replaces, Hafter.
Qed.

Lemma amend_other (n : Z) (f : PullRequest -> PullRequest) (ps : list PullRequest) :
  (forall p, In p ps -> pr_Number p <> n) -> amend n f ps = ps.
Proof.
  intros Hps. unfold amend. induction ps as [|p ps IH]; [reflexivity|]. cbn.
  destruct (Z.eqb_spec (pr_Number p) n) as [Heq|_].
  - destruct (Hps p (or_introl eq_refl) Heq).
  - rewrite IH by (intros p' Hp'; apply Hps; right; exact Hp'). reflexivity.
Qed.

Lemma amend_last (n : Z) (f : PullRequest -> PullRequest)
    (ps : list PullRequest) (p : PullRequest) :
  (forall p', In p' ps -> pr_Number p' <> n) -> pr_Number p = n ->
  amend n f (ps ++ [p]) = ps ++ [f p].
Proof.
  intros Hps Hp. unfold amend. rewrite map_app. cbn.
  rewrite Hp, Z.eqb_refl. f_equal. apply (amend_other n f ps Hps).
Qed.

Lemma issue_exists_last (s : remote) (ps : list PullRequest) (p : PullRequest) :
  pulls s = ps ++ [p] -> issue_exists s (pr_Number p) = true.
Proof.
  intros Hs. unfold issue_exists. rewrite Hs, existsb_app. cbn.
  rewrite Z.eqb_refl, orb_true_r. reflexivity.
Qed.

Lemma AddLabelsToIssue_ok (o r : string) (n : Z) (labels : list string) (s : remote) :
  issue_exists s n = true -> outage s (length (calls s)) = None ->
  Issues_AddLabelsToIssue o r n labels s
  = (Ok labels,
     with_pulls (logged s (AddLabelsToIssue n labels))
       (amend n (fun p => {| pr_Number := pr_Number p; pr_URL := pr_URL p;
                             pr_HTMLURL := pr_HTMLURL p; pr_New := pr_New p;
                             pr_Labels := pr_Labels p ++ labels;
                             pr_Assignees := pr_Assignees p |}) (pulls s))).
Proof.
  intros Hex Hup. unfold Issues_AddLabelsToIssue, request. rewrite Hup.
  change (issue_exists (logged s _) n) with (issue_exists s n). rewrite Hex.
  reflexivity.
Qed.

Lemma AddAssignees_ok (o r : string) (n : Z) (assignees : list string) (s : remote) :
  issue_exists s n = true -> outage s (length (calls s)) = None ->
  Issues_AddAssignees o r n assignees s
  = (Ok tt,
     with_pulls (logged s (AddAssignees n assignees))
       (amend n (fun p => {| pr_Number := pr_Number p; pr_URL := pr_URL p;
                             pr_HTMLURL := pr_HTMLURL p; pr_New := pr_New p;
                             pr_Labels := pr_Labels p;
                             pr_Assignees := pr_Assignees p ++ assignees |})
          (pulls s))).
Proof.
  intros Hex Hup. unfold Issues_AddAssignees, request. rewrite Hup.
  change (issue_exists (logged s _) n) with (issue_exists s n). rewrite Hex.
  reflexivity.
Qed.

(** X22: with the remote reachable, labels and assignees end up on the new
    pull request and on no other. *)
Theorem CreatePullRequest_applies_labels (g : GitHubProvider) (req : PRRequest)
    (s : remote) :
  let n := Z.of_nat (S (length (pulls s))) in
  let pull := {| np_Title := Title req; np_Body := Body req; np_Head := Head req;
                 np_Base := Base req; np_Draft := Draft req |} in
  let created labels assignees :=
    {| pr_Number := n;
       pr_URL := api (owner g) (repo g) +:+ "/pulls/" +:+ pretty n;
       pr_HTMLURL := "https://github.com/" +:+ owner g +:+ "/" +:+ repo g
                       +:+ "/pull/" +:+ pretty n;
       pr_New := pull; pr_Labels := labels; pr_Assignees := assignees |} in
  is_Some (refs s !! ("refs/heads/" +:+ Head req)%string) ->
  is_Some (refs s !! ("refs/heads/" +:+ Base req)%string) ->
  (forall p, In p (pulls s) -> pr_Number p <> n) ->
  (forall k, (k < 3)%nat -> outage s (length (calls s) + k) = None) ->
  exists s',
    CreatePullRequest g req s
    = (Ok {| Number := n; URL := pr_URL (created [] []);
             HTMLURL := pr_HTMLURL (created [] []) |}, s')
    /\ pulls s' = pulls s ++ [created (Labels req) (Assignees req)].
Proof.
  intros n pull created [h Hh] [b Hb] Hnum Hup.
  pose proof (Hup 0%nat ltac:(lia)) as H0. pose proof (Hup 1%nat ltac:(lia)) as H1.
  pose proof (Hup 2%nat ltac:(lia)) as H2. rewrite Nat.add_0_r in H0.
  assert (PullRequests_Create (owner g) (repo g) pull s
          = (Ok (created [] []),
             with_pulls (logged s (CreatePull pull)) (pulls s ++ [created [] []])))
    as Hcreate.
  { unfold PullRequests_Create, request. rewrite H0. cbn. rewrite Hh, Hb. reflexivity. }
  unfold CreatePullRequest, bind, wrap, ret, nonfatal. fold pull.
  rewrite Hcreate. cbn [pr_Number pr_URL pr_HTMLURL created].
  set (s1 := with_pulls (logged s (CreatePull pull)) (pulls s ++ [created [] []])).
  assert (issue_exists s1 n = true) as Hex1
    by (apply (issue_exists_last s1 (pulls s) (created [] [])); reflexivity).
  assert (outage s1 (length (calls s1)) = None) as Hup1.
  { cbn. rewrite length_app. cbn. exact H1. }
  destruct (Labels req) as [|l ls] eqn:Hlabels; cbn [length Nat.ltb Nat.leb].
  - destruct (Assignees req) as [|a asg] eqn:Hassign; cbn [length Nat.ltb Nat.leb].
    + eexists. split; reflexivity.
    + rewrite AddAssignees_ok by assumption. eexists. split; [reflexivity|].
      subst s1. cbn [snd with_pulls pulls logged].
      rewrite amend_last by (exact Hnum || reflexivity). reflexivity.
  - rewrite AddLabelsToIssue_ok by assumption. cbn [snd].
    set (s2 := with_pulls _ _).
    assert (pulls s2 = pulls s ++ [created (l :: ls) []]) as Hp2.
    { subst s2 s1. cbn [snd with_pulls pulls logged].
      rewrite amend_last by (exact Hnum || reflexivity). reflexivity. }
    destruct (Assignees req) as [|a asg] eqn:Hassign; cbn [length Nat.ltb Nat.leb].
    + eexists. split; [reflexivity | exact Hp2].
    + rewrite AddAssignees_ok.
      * eexists. split; [reflexivity|]. cbn [snd with_pulls pulls]. rewrite Hp2.
        rewrite amend_last by (exact Hnum || reflexivity). reflexivity.
      * apply (issue_exists_last s2 (pulls s) (created (l :: ls) [])). exact Hp2.
      * cbn. rewrite !length_app. cbn. rewrite <- Nat.add_assoc. exact H2.
Qed.

End ProviderOperations.


(** The sample repository with store-given names is well formed. *)
Lemma numbered_repository_ok (plan : nat -> option string) :
  gitprovider.remote_ok (fixtures.numbered_repository plan).
Proof.
  split; [|split].
  - intros k Hk. cbn in Hk. cbn. split.
    + apply lookup_singleton_ne. change "1"%string with (pretty 1%nat).
      apply pretty_nat_neq. lia.
    + apply lookup_singleton_ne. change "0"%string with (pretty 0%nat).
      apply pretty_nat_neq. lia.
  - intros r sha Hr. cbn in Hr. cbn.
    apply lookup_insert_Some in Hr as [[_ <-]|[_ Hr]].
    + rewrite lookup_singleton_eq. eauto.
    + apply lookup_singleton_Some in Hr as [_ <-].
      rewrite lookup_singleton_eq. eauto.
  - intros id c Hc. cbn in Hc. apply lookup_singleton_Some in Hc as [<- <-].
    cbn. rewrite lookup_singleton_eq. eauto.
Qed.

Lemma CommitFiles_only_adds_witness :
  let s := fixtures.numbered_repository (fixtures.down_at 4) in
  exists e s',
    gitprovider.CommitFiles fixtures.provider "fix" fixtures.change "Fix README" s
    = (gitprovider.Err e, s')
    /\ gitprovider.github.commits s ⊆ gitprovider.github.commits s'
    /\ gitprovider.github.trees s ⊆ gitprovider.github.trees s'
    /\ gitprovider.github.refs s' = gitprovider.github.refs s.
Proof.
  intros s.
  destruct (gitprovider.CommitFiles fixtures.provider "fix" fixtures.change
              "Fix README" s) as [[sha|e] s'] eqn:E.
  { vm_compute in E. discriminate E. }
  destruct (CommitFiles_only_adds fixtures.provider "fix" fixtures.change
              "Fix README" s s' (gitprovider.Err e)
              (proj1 (numbered_repository_ok _)) E)
    as (Hc & Ht & _ & _ & Hr).
  exists e, s'. split; [reflexivity|]. split; [exact Hc|]. split; [exact Ht|].
  apply (Hr e). reflexivity.
Defined.

Lemma GetLatestCommitSHA_reads_head_witness :
  (exists s', gitprovider.GetLatestCommitSHA fixtures.provider "main"
                (fixtures.repository fixtures.healthy)
              = (gitprovider.Ok "c0"%string, s'))
  /\ (exists e s', gitprovider.GetLatestCommitSHA fixtures.provider "gone"
                    (fixtures.repository fixtures.healthy)
                  = (gitprovider.Err e, s')).
Proof.
  split.
  - destruct (GetLatestCommitSHA_reads_head fixtures.provider "main"
                (fixtures.repository fixtures.healthy)) as (Hfound & _).
    eexists. apply Hfound; reflexivity.
  - destruct (GetLatestCommitSHA_reads_head fixtures.provider "gone"
                (fixtures.repository fixtures.healthy)) as (_ & Hmissing & _).
    destruct Hmissing as [cause Hrun]; [left; reflexivity|].
    eexists _, _. exact Hrun.
Defined.

Lemma CreateBranch_creates_branch_witness :
  exists s1 s2,
    gitprovider.CreateBranch fixtures.provider "sentry-fix-12345" "c0"
      (fixtures.repository fixtures.healthy) = (gitprovider.Ok tt, s1)
    /\ gitprovider.GetLatestCommitSHA fixtures.provider "sentry-fix-12345" s1
       = (gitprovider.Ok "c0"%string, s2).
Proof.
  destruct (CreateBranch_creates_branch fixtures.provider "sentry-fix-12345" "c0"
              (fixtures.repository fixtures.healthy))
    as (s1 & s2 & Hrun & _ & _ & _ & Hhead);
    [reflexivity | vm_compute; eauto | reflexivity | reflexivity |].
  exists s1, s2. split; assumption.
Defined.

Lemma CommitFiles_then_head_witness :
  exists sha s' s'',
    gitprovider.CommitFiles fixtures.provider "fix" fixtures.change "Fix README"
      (fixtures.repository fixtures.healthy) = (gitprovider.Ok sha, s')
    /\ gitprovider.GetLatestCommitSHA fixtures.provider "fix" s'
       = (gitprovider.Ok sha, s'').
Proof.
  destruct (gitprovider.CommitFiles fixtures.provider "fix" fixtures.change
              "Fix README" (fixtures.repository fixtures.healthy))
    as [[sha|e] s'] eqn:E.
  2:{ vm_compute in E. discriminate E. }
  destruct (CommitFiles_then_head fixtures.provider "fix" fixtures.change
              "Fix README" _ s' sha E eq_refl) as [s'' Hhead].
  exists sha, s', s''. split; [reflexivity | exact Hhead].
Defined.

Lemma provider_keeps_remote_ok_witness :
  gitprovider.remote_ok
    (snd (gitprovider.CommitFiles fixtures.provider "fix" fixtures.change
            "Fix README" (fixtures.numbered_repository (fixtures.down_at 3)))).
Proof.
  destruct (provider_keeps_remote_ok fixtures.provider
              (fixtures.numbered_repository (fixtures.down_at 3))
              (numbered_repository_ok _)) as (Hcommit & _).
  apply (Hcommit "fix"%string fixtures.change "Fix README"%string
           (fst (gitprovider.CommitFiles fixtures.provider "fix" fixtures.change
                   "Fix README" (fixtures.numbered_repository (fixtures.down_at 3))))).
  apply surjective_pairing.
Defined.

Lemma CreatePullRequest_calls_witness :
  exists resp s',
    gitprovider.CreatePullRequest fixtures.provider fixtures.pr_request
      (fixtures.repository fixtures.down_after_first) = (gitprovider.Ok resp, s')
    /\ length (gitprovider.github.calls s') = 3%nat.
Proof.
  destruct (gitprovider.CreatePullRequest fixtures.provider fixtures.pr_request
              (fixtures.repository fixtures.down_after_first))
    as [[resp|e] s'] eqn:E.
  2:{ vm_compute in E. discriminate E. }
  destruct (CreatePullRequest_calls fixtures.provider fixtures.pr_request _ s' _ E)
    as (_ & _ & _ & Hcalls).
  exists resp, s'. split; [reflexivity|]. rewrite Hcalls. reflexivity.
Defined.

Lemma CommitFiles_retry_witness :
  exists sha1 s1 sha2 s2,
    gitprovider.CommitFiles fixtures.provider "fix" fixtures.change "Fix README"
      (fixtures.numbered_repository fixtures.healthy) = (gitprovider.Ok sha1, s1)
    /\ gitprovider.CommitFiles fixtures.provider "fix" fixtures.change "Fix README" s1
       = (gitprovider.Ok sha2, s2)
    /\ sha1 <> sha2
    /\ gitprovider.github.refs s2 !! "refs/heads/fix"%string = Some sha2.
Proof.
  destruct (CommitFiles_retry fixtures.provider "fix" fixtures.change "Fix README"
              (fixtures.numbered_repository fixtures.healthy) "1"
              (proj2 (numbered_repository_ok _)) eq_refl (fun _ _ => eq_refl))
    as (sha1 & s1 & sha2 & s2 & c1 & c2 & base & t2 & H1 & H2 & Hne & _ & _ & _ & _
        & Hhead & _).
  exists sha1, s1, sha2, s2. repeat split; assumption.
Defined.

Lemma CreatePullRequest_applies_labels_witness :
  exists resp s' p,
    gitprovider.CreatePullRequest fixtures.provider fixtures.pr_request
      (fixtures.repository fixtures.healthy) = (gitprovider.Ok resp, s')
    /\ gitprovider.github.pulls s' = [p]
    /\ gitprovider.github.pr_Labels p = ["sentry"%string]
    /\ gitprovider.github.pr_Assignees p = ["octocat"%string].
Proof.
  destruct (CreatePullRequest_applies_labels fixtures.provider fixtures.pr_request
              (fixtures.repository fixtures.healthy))
    as (s' & Hrun & Hpulls);
    [vm_compute; eauto | vm_compute; eauto | intros p [] | reflexivity |].
  eexists _, s', _. split; [exact Hrun|]. split; [exact Hpulls|].
  split; reflexivity.
Defined.

(** ** The buffered request body *)
Section BufferedBody.

Import webhook.

Lemma Read_shape (b : http.bodyReader) (n : nat) :
  (http.pos b <= length (http.data b))%nat ->
  exists chunk b' eof,
    http.Read b n = (chunk, b', eof)
    /\ chunk = firstn n (skipn (http.pos b) (http.data b))
    /\ http.data b' = http.data b
    /\ http.pos b' = (http.pos b + length chunk)%nat
    /\ (http.pos b' <= length (http.data b'))%nat.
Proof.
  intros Hpos. unfold http.Read.
  destruct (Nat.leb_spec (length (http.data b)) (http.pos b)) as [Hle | Hlt].
  - exists [], b, true. split; [reflexivity |]. split.
    { rewrite skipn_all2 by lia. destruct n; reflexivity. }
    cbn [length]. repeat split; lia.
  - eexists _, _, false. split; [reflexivity |]. split; [reflexivity |].
    cbn [http.data http.pos]. split; [reflexivity |]. split; [reflexivity |].
    rewrite length_firstn, length_skipn. lia.
Qed.

Lemma firstn_add_skip {A} (n m : nat) (l : list A) :
  firstn n l ++ firstn m (skipn (length (firstn n l)) l) = firstn (n + m) l.
Proof.
  revert l. induction n as [| n IH]; intros l; [reflexivity |].
  destruct l as [| a l]; cbn.
  - destruct m; reflexivity.
  - f_equal. apply IH.
Qed.

Lemma reads_spec (sizes : list nat) (b : http.bodyReader) :
  (http.pos b <= length (http.data b))%nat ->
  exists b',
    http.reads b sizes = (firstn (list_sum sizes) (skipn (http.pos b) (http.data b)), b')
    /\ http.data b' = http.data b
    /\ http.pos b'
       = Nat.min (length (http.data b)) (http.pos b + list_sum sizes)%nat.
Proof.
  revert b. induction sizes as [| n sizes IH]; intros b Hpos.
  - exists b. cbn. repeat split. lia.
  - destruct (Read_shape b n Hpos) as (chunk & b1 & eof & HR & Hchunk & Hd & Hp & Hok).
    destruct (IH b1 Hok) as (b' & Hrest & Hd' & Hp').
    exists b'. cbn [http.reads]. rewrite HR, Hrest. repeat split.
    + f_equal. rewrite Hd, Hp.
      change (list_sum (n :: sizes)) with (n + list_sum sizes)%nat.
      rewrite <- firstn_add_skip, <- Hchunk. f_equal. f_equal.
      rewrite Nat.add_comm. symmetry. apply skipn_skipn.
    + rewrite Hd'. exact Hd.
    + rewrite Hp', Hd, Hp, Hchunk, length_firstn, length_skipn.
      change (list_sum (n :: sizes)) with (n + list_sum sizes)%nat. lia.
Qed.

(** X2: the buffered body hands out its bytes in order, none skipped and
    none repeated, whatever the destination sizes; what [io.ReadAll] then
    collects is the rest. *)
Theorem bodyReader_reads_in_order (sizes : list nat) (b : http.bodyReader) :
  (http.pos b <= length (http.data b))%nat ->
  let unread := skipn (http.pos b) (http.data b) in
  exists b',
    http.reads b sizes = (firstn (list_sum sizes) unread, b')
    /\ http.ReadAll (http.NopCloser b') = (skipn (list_sum sizes) unread, None)
    /\ fst (http.reads b sizes) ++ fst (http.ReadAll (http.NopCloser b')) = unread.
Proof.
  intros Hpos unread.
  destruct (reads_spec sizes b Hpos) as (b' & Hreads & Hd & Hp).
  assert (Hall : http.ReadAll (http.NopCloser b')
                 = (skipn (list_sum sizes) unread, None)).
  { unfold http.ReadAll. f_equal.
    rewrite read_loop_rest by lia. cbn [app].
    rewrite Hd, Hp. subst unread. rewrite skipn_skipn.
    destruct (Nat.le_gt_cases (http.pos b + list_sum sizes) (length (http.data b))).
    - rewrite Nat.min_r by lia. f_equal. lia.
    - rewrite !skipn_all2 by lia. reflexivity. }
  exists b'. split; [exact Hreads |]. split; [exact Hall |].
  rewrite Hreads, Hall. cbn [fst]. apply firstn_skipn.
Qed.

Context {W : Type}.
Variable v : SignatureVerifier.

(** X3: the middleware calls the wrapped handler exactly when the signature
    header carries the HMAC of the body; the handler then sees the same
    method and headers and can read the whole body again.  Otherwise the
    handler has no part in the outcome. *)
Theorem Middleware_calls_next_iff_signed
    (w : http.ResponseRecorder) (r : http.Request) (st : W) :
  let signature := http.Get (http.Header r) "Sentry-Hook-Signature" in
  (forall body,
      http.ReadAll (http.Body r) = (body, None) ->
      signature = hex.EncodeToString (hmac.Sum (secret v) body) ->
      let r' := {| http.Method := http.Method r; http.Header := http.Header r;
                   http.Body := http.NopCloser (newBodyReader body) |} in
      http.ReadAll (http.Body r') = (body, None)
      /\ forall next : http.Handler W, Middleware v next w r st = next w r' st)
  /\ ((forall body, http.ReadAll (http.Body r) = (body, None) ->
         signature <> hex.EncodeToString (hmac.Sum (secret v) body)) ->
      exists w', forall next : http.Handler W,
        Middleware v next w r st = http.Return w' st).
Proof.
  intros signature. split.
  - intros body Hbody Hsig r'. split; [apply ReadAll_newBodyReader |].
    intros next. unfold Middleware. fold signature.
    assert (Hv : Verify v signature body = true) by (apply Verify_true_iff; exact Hsig).
    destruct (String.eqb_spec signature "") as [He | _].
    { rewrite He in Hv. discriminate. }
    rewrite Hbody, Hv. reflexivity.
  - intros Hbad. unfold Middleware. fold signature.
    destruct (String.eqb_spec signature "") as [He | Hne]; [eauto |].
    destruct (http.ReadAll (http.Body r)) as [body [e |]] eqn:Hbody; [eauto |].
    assert (Hv : Verify v signature body = false)
      by (apply Verify_false_iff, Hbad; reflexivity).
    rewrite Hv. eauto.
Qed.

End BufferedBody.

Section SignatureShape.

Import webhook.

Lemma EncodeToString_length (src : list byte) :
  String.length (hex.EncodeToString src) = (2 * length src)%nat.
Proof.
  induction src as [| b src IH]; [reflexivity |].
  cbn [length]. replace (2 * S (length src))%nat with (S (S (2 * length src))) by lia.
  rewrite <- IH. reflexivity.
Qed.

Lemma length_append (a b : string) :
  String.length (a +:+ b) = (String.length a + String.length b)%nat.
Proof.
  induction a as [| c a IH]; [reflexivity |].
  change (String c a +:+ b) with (String c (a +:+ b)).
  cbn [String.length]. rewrite IH. reflexivity.
Qed.

(** X1: an accepted signature is 64 characters long, so a signature with
    anything before or after the digest (a [sha256=] prefix, a newline) is
    rejected. *)
Theorem Verify_signature_is_bare_digest
    (v : SignatureVerifier) (signature : string) (body : list byte) :
  (Verify v signature body = true -> String.length signature = 64%nat)
  /\ (forall before after,
        (before <> EmptyString \/ after <> EmptyString) ->
        Verify v (before +:+ hex.EncodeToString (hmac.Sum (secret v) body) +:+ after)
          body = false).
Proof.
  split.
  - intros H. apply Verify_true_iff in H. rewrite H, EncodeToString_length, hmac_Sum_length.
    reflexivity.
  - intros before after Hne. apply Verify_false_iff. intros Heq.
    apply (f_equal String.length) in Heq.
    rewrite !length_append, EncodeToString_length, hmac_Sum_length in Heq.
    destruct Hne as [Hb | Ha].
    + destruct before; [congruence | cbn in Heq; lia].
    + destruct after; [congruence | cbn in Heq; lia].
Qed.

End SignatureShape.

(** ** The handler: responses and its effect on the queue *)
Section HandlerEffects.

Import webhook.

Context {float64 : Type}.
Variable int_of_float64 : float64 -> Z.
Variable json_Unmarshal : list byte -> option (SentryWebhook float64).

Abbreviation ServeHTTP := (ServeHTTP int_of_float64 json_Unmarshal).

Lemma Error_fresh (w : http.ResponseRecorder) (msg : string) (code : Z) :
  http.wroteHeader w = false ->
  http.Code (http.Error w msg code) = code
  /\ http.Written (http.Error w msg code)
     = http.Written w +:+ msg +:+ String "010"%char EmptyString.
Proof.
  intros Hw. unfold http.Error, http.Write, http.WriteHeader. rewrite Hw. cbn.
  split; reflexivity.
Qed.

(** X5: the handler's refusals: the status and text of each, and the queue
    left alone. *)
Theorem ServeHTTP_refusals
    (w : http.ResponseRecorder) (r : http.Request) (q : chan float64) :
  (http.Method r <> http.MethodPost ->
   ServeHTTP w r q = http.Return (http.Error w "method not allowed" 405) q)
  /\ (http.Method r = http.MethodPost ->
      forall partial e, http.ReadAll (http.Body r) = (partial, Some e) ->
      ServeHTTP w r q = http.Return (http.Error w "failed to read body" 400) q)
  /\ (http.Method r = http.MethodPost ->
      forall body, http.ReadAll (http.Body r) = (body, None) ->
      json_Unmarshal body = None ->
      ServeHTTP w r q = http.Return (http.Error w "invalid payload" 400) q)
  /\ (http.wroteHeader w = false ->
      forall msg code,
        http.Code (http.Error w msg code) = code
        /\ http.Written (http.Error w msg code)
           = http.Written w +:+ msg +:+ String "010"%char EmptyString).
Proof.
  repeat split.
  - intros Hm. unfold webhook.ServeHTTP.
    destruct (String.eqb_spec (http.Method r) http.MethodPost); [contradiction | reflexivity].
  - intros Hm partial e Hbody. unfold webhook.ServeHTTP.
    rewrite Hm, Hbody. reflexivity.
  - intros Hm body Hbody Hjson. unfold webhook.ServeHTTP.
    rewrite Hm, Hbody, Hjson. reflexivity.
  - apply Error_fresh; assumption.
  - apply Error_fresh; assumption.
Qed.

Lemma trySend_Some (q q' : chan float64) (j : Job float64) :
  chan_ok q -> trySend q j = Some q' ->
  chan_ok q' /\ cap q' = cap q
  /\ taken q' ++ buf q' = taken q ++ buf q ++ [j]
  /\ ((length (buf q) < cap q)%nat \/ (0 < recvq q)%nat).
Proof.
  intros [Hlen Hpark] H. unfold trySend in H.
  destruct (recvq q) as [| n] eqn:Hr.
  - destruct (Nat.ltb_spec (length (buf q)) (cap q)) as [Hlt | Hge]; [| discriminate].
    injection H as <-. unfold chan_ok. cbn.
    split; [split; [rewrite length_app; cbn; lia | left; reflexivity] |].
    split; [reflexivity |]. split; [reflexivity | left; exact Hlt].
  - destruct Hpark as [Hz | Hb]; [discriminate |].
    injection H as <-. unfold chan_ok. cbn. rewrite Hb in *.
    split; [split; [exact Hlen | right; reflexivity] |].
    split; [reflexivity |]. split; [| right; lia].
    rewrite app_nil_r. reflexivity.
Qed.

Lemma ServeHTTP_cases
    (w : http.ResponseRecorder) (r : http.Request) (q : chan float64) :
  http.state_of (ServeHTTP w r q) = q
  \/ exists body wh issue parsed q',
       http.Method r = http.MethodPost
       /\ http.ReadAll (http.Body r) = (body, None)
       /\ json_Unmarshal body = Some wh
       /\ Data_Issue (Data wh) = Some issue
       /\ (Action wh = "created"%string \/ Action wh = "triggered"%string)
       /\ ParseWebhook int_of_float64 wh = Some parsed
       /\ trySend q {| Webhook := wh; Job_ParsedError := parsed |} = Some q'
       /\ ServeHTTP w r q
          = http.Return (http.Write (http.WriteHeader w http.StatusAccepted)
                           status_queued) q'.
Proof.
  unfold webhook.ServeHTTP.
  destruct (String.eqb_spec (http.Method r) http.MethodPost) as [Hm | Hm]; [| left; reflexivity].
  cbn [negb].
  destruct (http.ReadAll (http.Body r)) as [body [e |]] eqn:Hbody; [left; reflexivity |].
  destruct (json_Unmarshal body) as [wh |] eqn:Hjson; [| left; reflexivity].
  destruct (Data_Issue (Data wh)) as [issue |] eqn:Hissue; [| left; reflexivity].
  destruct (String.eqb_spec (Action wh) "created") as [Hc | Hc];
    destruct (String.eqb_spec (Action wh) "triggered") as [Ht | Ht]; cbn [negb andb];
    try (left; reflexivity).
  all: destruct (ParseWebhook int_of_float64 wh) as [parsed |] eqn:Hparse; [| left; reflexivity].
  all: destruct (trySend q _) as [q' |] eqn:Hsend; [| left; reflexivity].
  all: right; exists body, wh, issue, parsed, q'; repeat split; auto.
Qed.

(** X6: what one request can do to the job queue: nothing, or add one job
    at the end. *)
Theorem ServeHTTP_queue_effect
    (w : http.ResponseRecorder) (r : http.Request) (q : chan float64) :
  chan_ok q ->
  let q' := http.state_of (ServeHTTP w r q) in
  chan_ok q' /\ cap q' = cap q
  /\ (q' = q
      \/ exists body wh parsed,
           http.Method r = http.MethodPost
           /\ http.ReadAll (http.Body r) = (body, None)
           /\ json_Unmarshal body = Some wh
           /\ (Action wh = "created"%string \/ Action wh = "triggered"%string)
           /\ ParseWebhook int_of_float64 wh = Some parsed
           /\ trySend q {| Webhook := wh; Job_ParsedError := parsed |} = Some q'
           /\ taken q' ++ buf q'
              = taken q ++ buf q ++ [ {| Webhook := wh; Job_ParsedError := parsed |} ]).
Proof.
  intros Hok q'. subst q'.
  destruct (ServeHTTP_cases w r q)
    as [-> | (body & wh & issue & parsed & q' & Hm & Hbody & Hjson & _ & Hact & Hparse & Hsend & ->)].
  - repeat split; try apply Hok. left. reflexivity.
  - cbn [http.state_of].
    destruct (trySend_Some q q' _ Hok Hsend) as (Hok' & Hcap & Hhist & _).
    split; [exact Hok' |]. split; [exact Hcap |].
    right. exists body, wh, parsed. repeat split; assumption.
Qed.

(** X4: behind the signature middleware, a request changes the queue or reaches
    the handler's panic only if it carries the HMAC of its body. *)
Theorem gate_protects_queue
    (v : SignatureVerifier) (w : http.ResponseRecorder) (r : http.Request)
    (q : chan float64) :
  let out := Middleware v ServeHTTP w r q in
  let signed :=
    exists body, http.ReadAll (http.Body r) = (body, None)
                 /\ http.Get (http.Header r) "Sentry-Hook-Signature"
                    = hex.EncodeToString (hmac.Sum (secret v) body) in
  (http.state_of out <> q -> signed)
  /\ (forall reason w' q', out = http.Panic reason w' q' -> signed)
  /\ (~ signed ->
      exists w', out = http.Return w' q
                 /\ (http.wroteHeader w = false ->
                     http.Code w' = 401 \/ http.Code w' = 400)).
Proof.
  intros out signed.
  assert (Hcases : signed
                   \/ exists w', out = http.Return w' q
                                 /\ (http.wroteHeader w = false ->
                                     http.Code w' = 401 \/ http.Code w' = 400)).
  { subst out signed. unfold Middleware.
    destruct (String.eqb_spec (http.Get (http.Header r) "Sentry-Hook-Signature") "")
      as [He | Hne].
    { right. eexists. split; [reflexivity |]. intros Hw. left.
      apply Error_fresh, Hw. }
    destruct (http.ReadAll (http.Body r)) as [body [e |]] eqn:Hbody.
    { right. eexists. split; [reflexivity |]. intros Hw. right.
      apply Error_fresh, Hw. }
    destruct (Verify v _ body) eqn:Hv.
    - left. exists body. split; [reflexivity |]. apply Verify_true_iff, Hv.
    - right. eexists. split; [reflexivity |]. intros Hw. left.
      apply Error_fresh, Hw. }
  repeat split.
  - intros Hq. destruct Hcases as [Hs | (w' & Hout & _)]; [exact Hs |].
    rewrite Hout in Hq. contradiction Hq. reflexivity.
  - intros reason w' q' Hout. destruct Hcases as [Hs | (w'' & Hout' & _)]; [exact Hs |].
    rewrite Hout' in Hout. discriminate.
  - intros Hns. destruct Hcases as [Hs | H]; [contradiction | exact H].
Qed.

End HandlerEffects.

(** ** The normalizer: frame fields and entries *)
Section NormalizerFields.

Import webhook.

Context {float64 : Type}.
Variable int_of_float64 : float64 -> Z.

(** X7: each frame field is copied when the payload holds it with the
    expected JSON type and is left at its zero value when the type is
    another; four fields of [Frame] are never filled. *)
Theorem ParseWebhook_frame_fields
    (wh : SentryWebhook float64) (pe : ParsedError) (i : nat)
    (fm : gmap string (jvalue float64)) :
  ParseWebhook int_of_float64 wh = Some pe ->
  exception_frames wh !! i = Some fm ->
  exists fr,
    Frames pe !! i = Some fr
    /\ (forall s, fm !! "filename"%string = Some (JString s) -> Filename fr = s)
    /\ (forall s, fm !! "absPath"%string = Some (JString s) -> AbsPath fr = s)
    /\ (forall s, fm !! "function"%string = Some (JString s) -> Function_ fr = s)
    /\ (forall s, fm !! "module"%string = Some (JString s) -> Module_ fr = s)
    /\ (forall f, fm !! "lineNo"%string = Some (JNumber f) ->
          LineNo fr = int_of_float64 f)
    /\ (forall f, fm !! "colNo"%string = Some (JNumber f) ->
          ColNo fr = int_of_float64 f)
    /\ (forall x, fm !! "filename"%string = Some x ->
          (forall s, x <> JString s) -> Filename fr = EmptyString)
    /\ (forall x, fm !! "absPath"%string = Some x ->
          (forall s, x <> JString s) -> AbsPath fr = EmptyString)
    /\ (forall x, fm !! "function"%string = Some x ->
          (forall s, x <> JString s) -> Function_ fr = EmptyString)
    /\ (forall x, fm !! "module"%string = Some x ->
          (forall s, x <> JString s) -> Module_ fr = EmptyString)
    /\ (forall x, fm !! "lineNo"%string = Some x ->
          (forall f, x <> JNumber f) -> LineNo fr = 0)
    /\ (forall x, fm !! "colNo"%string = Some x ->
          (forall f, x <> JNumber f) -> ColNo fr = 0)
    /\ (forall x, fm !! "inApp"%string = Some x ->
          (forall b, x <> JBool b) -> InApp fr = false)
    /\ Package fr = EmptyString /\ Frame_Platform fr = EmptyString
    /\ PreContext fr = [] /\ PostContext fr = [].
Proof.
  intros Hparse Hfm.
  exists (frame_of int_of_float64 fm). split.
  { rewrite (ParseWebhook_Frames int_of_float64 wh pe Hparse).
    apply lookup_map_frame, Hfm. }
  unfold frame_of, getBool. cbn.
  repeat split.
  1-6: intros s ->; reflexivity.
  all: intros x -> Hx; destruct x; try reflexivity; exfalso; eapply Hx; reflexivity.
Qed.

Lemma range_entries_frames (entries : list (Entry float64)) :
  range_entries int_of_float64 [] entries
  = map (frame_of int_of_float64)
      (flat_map (fun e => flat_map stack_frames (exception_values e)) entries).
Proof. apply (range_entries_spec int_of_float64 entries []). Qed.

(** X8: the frames of an event are those of its entries, entry by entry in
    order; an entry that is not an exception, or whose data is not an
    object, and a payload without an event give none. *)
Theorem ParseWebhook_frames_by_entry
    (action : string) (actor : Actor) (issue : Issue) (ev : Event float64) :
  let wh event :=
    {| Action := action;
       Data := {| Data_Issue := Some issue; Data_Event := event |};
       Webhook_Actor := actor |} in
  let with_entries es :=
    Some {| EventID := EventID ev; Entries := es; Message := Message ev;
            Event_Platform := Event_Platform ev; Event_Title := Event_Title ev;
            Event_Type := Event_Type ev |} in
  let frames event :=
    from_option Frames [] (ParseWebhook int_of_float64 (wh event)) in
  (forall es1 es2,
      frames (with_entries (es1 ++ es2))
      = frames (with_entries es1) ++ frames (with_entries es2))
  /\ (forall e, Entry_Type e <> "exception"%string -> frames (with_entries [e]) = [])
  /\ (forall e, (forall m, Entry_Data e <> JObject m) -> frames (with_entries [e]) = [])
  /\ frames (with_entries []) = []
  /\ frames None = [].
Proof.
  intros wh with_entries frames.
  assert (Hframes : forall es,
             frames (with_entries es) = range_entries int_of_float64 [] es)
    by reflexivity.
  repeat split.
  - intros es1 es2. rewrite !Hframes, !range_entries_frames, flat_map_app, map_app.
    reflexivity.
  - intros e Hne. rewrite Hframes. cbn.
    destruct (String.eqb_spec (Entry_Type e) "exception"); [contradiction | reflexivity].
  - intros e Hne. rewrite Hframes. cbn.
    destruct (String.eqb (Entry_Type e) "exception"); [| reflexivity].
    destruct (Entry_Data e); try reflexivity. exfalso. eapply Hne. reflexivity.
Qed.

End NormalizerFields.

(** ** Splitting and trimming *)
Section Splitting.

Abbreviation chars := list_ascii_of_string.

Lemma chars_cons (c : ascii) (s : string) : chars (String c s) = c :: chars s.
Proof. reflexivity. Qed.

Lemma append_cons (c : ascii) (a b : string) :
  String c a +:+ b = String c (a +:+ b).
Proof. reflexivity. Qed.

Lemma chars_append (a b : string) : chars (a +:+ b) = chars a ++ chars b.
Proof.
  induction a as [| c a IH]; [reflexivity |].
  rewrite append_cons, !chars_cons, IH. reflexivity.
Qed.

Lemma append_nil_r (a : string) : a +:+ EmptyString = a.
Proof.
  induction a as [| c a IH]; [reflexivity |]. rewrite append_cons, IH. reflexivity.
Qed.

Lemma append_assoc (a b c : string) : (a +:+ b) +:+ c = a +:+ (b +:+ c).
Proof.
  induction a as [| x a IH]; [reflexivity |]. rewrite !append_cons, IH. reflexivity.
Qed.

Variable sep : ascii.

Lemma genSplit_nonempty (k : nat) (s : string) : genSplit k s sep <> [].
Proof.
  revert k. induction s as [| c s IH]; intros k; [discriminate |].
  destruct k as [| k]; [discriminate |]. cbn [genSplit].
  destruct (Ascii.eqb c sep); [discriminate |].
  destruct (genSplit (S k) s sep); discriminate.
Qed.

Lemma genSplit_free (k : nat) (s : string) :
  ~ In sep (chars s) -> genSplit k s sep = [s].
Proof.
  revert k. induction s as [| c s IH]; intros k Hfree; [reflexivity |].
  destruct k as [| k]; [reflexivity |]. cbn [genSplit].
  rewrite chars_cons in Hfree.
  destruct (Ascii.eqb_spec c sep) as [-> | Hne]; [exfalso; apply Hfree; left; reflexivity |].
  rewrite IH by (intros Hin; apply Hfree; right; exact Hin). reflexivity.
Qed.

Lemma genSplit_cut (k : nat) (a b : string) :
  ~ In sep (chars a) ->
  genSplit (S k) (a +:+ String sep b) sep = a :: genSplit k b sep.
Proof.
  induction a as [| c a IH]; intros Hfree.
  - change (EmptyString +:+ String sep b) with (String sep b).
    cbn [genSplit]. rewrite Ascii.eqb_refl. reflexivity.
  - rewrite append_cons. cbn [genSplit]. rewrite chars_cons in Hfree.
    destruct (Ascii.eqb_spec c sep) as [-> | Hne]; [exfalso; apply Hfree; left; reflexivity |].
    rewrite IH by (intros Hin; apply Hfree; right; exact Hin). reflexivity.
Qed.

Lemma genSplit_fuel (k1 k2 : nat) (s : string) :
  (String.length s <= k1)%nat -> (String.length s <= k2)%nat ->
  genSplit k1 s sep = genSplit k2 s sep.
Proof.
  revert k1 k2. induction s as [| c s IH]; intros k1 k2 H1 H2; [reflexivity |].
  cbn [String.length] in H1, H2.
  destruct k1 as [| k1]; [lia |]. destruct k2 as [| k2]; [lia |].
  cbn [genSplit]. destruct (Ascii.eqb c sep).
  - f_equal. apply IH; lia.
  - rewrite (IH (S k1) (S k2)) by lia. reflexivity.
Qed.

Lemma genSplit_append (k k1 k2 : nat) (s1 s2 : string) :
  (String.length s1 <= k1)%nat -> (String.length s2 <= k2)%nat ->
  (String.length s1 + 1 + String.length s2 <= k)%nat ->
  genSplit k (s1 +:+ String sep s2) sep = genSplit k1 s1 sep ++ genSplit k2 s2 sep.
Proof.
  revert k k1. induction s1 as [| c s1 IH]; intros k k1 H1 H2 H.
  - change (EmptyString +:+ String sep s2) with (String sep s2).
    cbn [String.length] in H. destruct k as [| k]; [lia |].
    cbn [genSplit]. rewrite Ascii.eqb_refl.
    destruct k1; cbn [genSplit app]; f_equal; apply genSplit_fuel; lia.
  - rewrite append_cons. cbn [String.length] in H1, H.
    destruct k as [| k]; [lia |]. destruct k1 as [| k1]; [lia |].
    cbn [genSplit]. destruct (Ascii.eqb c sep).
    + cbn [app]. f_equal. apply IH; lia.
    + rewrite (IH (S k) (S k1)) by lia.
      destruct (genSplit (S k1) s1 sep) eqn:E; [| reflexivity].
      exfalso. exact (genSplit_nonempty _ _ E).
Qed.

Lemma Split_free (s : string) :
  ~ In sep (chars s) -> strings_Split s sep = [s].
Proof. apply genSplit_free. Qed.

Lemma Split_append (s1 s2 : string) :
  strings_Split (s1 +:+ String sep s2) sep
  = strings_Split s1 sep ++ strings_Split s2 sep.
Proof.
  unfold strings_Split. apply genSplit_append; try lia.
  rewrite length_append. cbn [String.length]. lia.
Qed.

Lemma genSplit_pieces_free (k : nat) (s : string) :
  (String.length s <= k)%nat ->
  Forall (fun piece => ~ In sep (chars piece)) (genSplit k s sep).
Proof.
  revert k. induction s as [| c s IH]; intros k Hk.
  - repeat constructor. intros [].
  - cbn [String.length] in Hk. destruct k as [| k]; [lia |].
    cbn [genSplit]. destruct (Ascii.eqb_spec c sep) as [-> | Hne].
    + constructor; [intros [] | apply IH; lia].
    + specialize (IH (S k) ltac:(lia)).
      destruct (genSplit (S k) s sep) as [| piece pieces].
      * repeat constructor. intros [H | []]. congruence.
      * inversion IH as [| ? ? Hp Hps]; subst. constructor; [| exact Hps].
        rewrite chars_cons. intros [H | H]; [congruence | exact (Hp H)].
Qed.

Lemma Split_pieces_free (s : string) :
  Forall (fun piece => ~ In sep (chars piece)) (strings_Split s sep).
Proof. apply genSplit_pieces_free. lia. Qed.

Lemma SplitN_2_free (s : string) :
  ~ In sep (chars s) -> strings_SplitN s sep 2 = [s].
Proof.
  intros Hfree. unfold strings_SplitN. cbn [Z.eqb Z.ltb Z.compare].
  apply genSplit_free, Hfree.
Qed.

Lemma SplitN_2_cut (a b : string) :
  ~ In sep (chars a) -> strings_SplitN (a +:+ String sep b) sep 2 = [a; b].
Proof.
  intros Hfree. unfold strings_SplitN. cbn [Z.eqb Z.ltb Z.compare].
  rewrite length_append. cbn [String.length].
  replace (Z.to_nat (Z.min 2 (Z.of_nat (String.length a + S (String.length b)) + 1)) - 1)%nat
    with 1%nat by lia.
  rewrite genSplit_cut by exact Hfree. destruct b; reflexivity.
Qed.

Lemma first_cut (s : string) :
  In sep (chars s) ->
  exists a b, s = a +:+ String sep b /\ ~ In sep (chars a).
Proof.
  induction s as [| c s IH]; intros Hin; [destruct Hin |].
  destruct (Ascii.ascii_dec c sep) as [-> | Hne].
  - exists EmptyString, s. split; [reflexivity | intros []].
  - destruct Hin as [H | H]; [congruence |].
    destruct (IH H) as (a & b & -> & Hfree).
    exists (String c a), b. split; [reflexivity |].
    rewrite chars_cons. intros [H' | H']; [congruence | exact (Hfree H')].
Qed.

(** [SplitN(s, sep, 2)]: cut at the first separator, if there is one. *)
Lemma SplitN_2 (s : string) :
  (~ In sep (chars s) /\ strings_SplitN s sep 2 = [s])
  \/ (exists a b, s = a +:+ String sep b /\ ~ In sep (chars a)
                  /\ strings_SplitN s sep 2 = [a; b]).
Proof.
  destruct (in_dec Ascii.ascii_dec sep (chars s)) as [Hin | Hfree].
  - right. destruct (first_cut s Hin) as (a & b & -> & Hfree). exists a, b.
    split; [reflexivity |]. split; [exact Hfree | apply SplitN_2_cut, Hfree].
  - left. split; [exact Hfree | apply SplitN_2_free, Hfree].
Qed.

Lemma Split_Join (pieces : list string) :
  pieces <> [] ->
  Forall (fun piece => ~ In sep (chars piece)) pieces ->
  strings_Split (strings_Join pieces sep) sep = pieces.
Proof.
  induction pieces as [| e rest IH]; intros Hne Hfree; [contradiction |].
  inversion Hfree as [| ? ? He Hrest]; subst.
  destruct rest as [| e' rest].
  - apply Split_free, He.
  - change (strings_Join (e :: e' :: rest) sep)
      with (e +:+ String sep (strings_Join (e' :: rest) sep)).
    rewrite Split_append, (Split_free e He), IH by (discriminate || exact Hrest).
    reflexivity.
Qed.

End Splitting.

Section Trimming.

Lemma graphic_not_space (c : ascii) :
  config.graphic c = true ->
  (utf8.RuneSelf <=? utf8.code c) = false /\ asciiSpace (utf8.code c) = false.
Proof.
  unfold config.graphic, utf8.RuneSelf, asciiSpace. intros H.
  apply andb_true_iff in H as [H1 H2].
  apply Z.leb_le in H1. apply Z.leb_le in H2.
  split; [apply Z.leb_gt; lia |].
  repeat (apply orb_false_iff; split); apply Z.eqb_neq; lia.
Qed.

Lemma skip_ascii_space_graphic (c : ascii) (p : list ascii) :
  config.graphic c = true -> skip_ascii_space (c :: p) = (c :: p, false).
Proof.
  intros H. destruct (graphic_not_space c H) as [H1 H2].
  cbn [skip_ascii_space]. rewrite H1, H2. reflexivity.
Qed.

Lemma TrimSpace_bytes_graphic (p : list ascii) :
  Forall (fun c => config.graphic c = true) p -> TrimSpace_bytes p = p.
Proof.
  intros Hall. unfold TrimSpace_bytes.
  destruct p as [| c p]; [reflexivity |].
  rewrite skip_ascii_space_graphic by (inversion Hall; assumption).
  assert (Hrev : Forall (fun c => config.graphic c = true) (rev (c :: p)))
    by (apply Forall_rev; exact Hall).
  destruct (rev (c :: p)) as [| d q] eqn:E.
  - apply (f_equal (@length ascii)) in E. rewrite length_rev in E. discriminate.
  - rewrite skip_ascii_space_graphic by (inversion Hrev; assumption).
    rewrite <- E. apply rev_involutive.
Qed.

Lemma TrimSpace_graphic (s : string) :
  Forall (fun c => config.graphic c = true) (list_ascii_of_string s) ->
  strings_TrimSpace s = s.
Proof.
  intros H. unfold strings_TrimSpace. rewrite TrimSpace_bytes_graphic by exact H.
  apply string_of_list_ascii_of_string.
Qed.

Lemma skip_ascii_space_suffix (p rest : list ascii) (slow : bool) :
  skip_ascii_space p = (rest, slow) ->
  exists pre, p = pre ++ rest
              /\ Forall (fun c => asciiSpace (utf8.code c) = true) pre.
Proof.
  revert rest slow. induction p as [| c p IH]; intros rest slow H.
  - injection H as <- <-. exists []. split; [reflexivity | constructor].
  - cbn [skip_ascii_space] in H.
    destruct (utf8.RuneSelf <=? utf8.code c).
    { injection H as <- <-. exists []. split; [reflexivity | constructor]. }
    destruct (asciiSpace (utf8.code c)) eqn:Hsp.
    + destruct (IH _ _ H) as (pre & -> & Hpre). exists (c :: pre).
      split; [reflexivity | constructor; assumption].
    + injection H as <- <-. exists []. split; [reflexivity | constructor].
Qed.

Lemma trim_left_suffix (f : Z -> bool) (fuel : nat) (p : list ascii) :
  exists pre, p = pre ++ trim_left f fuel p.
Proof.
  revert p. induction fuel as [| fuel IH]; intros p.
  - exists p. cbn. rewrite app_nil_r. reflexivity.
  - cbn [trim_left]. destruct p as [| c p]; [exists []; reflexivity |].
    destruct (utf8.DecodeRune (c :: p)) as [r size].
    destruct (f r); [| exists []; reflexivity].
    destruct (IH (skipn size (c :: p))) as (pre & Hpre).
    exists (firstn size (c :: p) ++ pre).
    rewrite <- app_assoc, <- Hpre. symmetry. apply firstn_skipn.
Qed.

Lemma TrimRightFunc_prefix (f : Z -> bool) (p : list ascii) :
  exists post, p = strings_TrimRightFunc f p ++ post.
Proof.
  unfold strings_TrimRightFunc.
  destruct (last_index f (length p) p) as [i |]; [| exists p; reflexivity].
  destruct (utf8.RuneSelf <=? utf8.code (nth i p zero)).
  - destruct (utf8.DecodeRune (skipn i p)) as [r wid].
    exists (skipn (i + wid) p). symmetry. apply firstn_skipn.
  - exists (skipn (S i) p). symmetry. apply firstn_skipn.
Qed.

(** What [TrimSpace] returns is a piece of its argument. *)
Lemma TrimSpace_bytes_infix (p : list ascii) :
  exists pre post, p = pre ++ TrimSpace_bytes p ++ post.
Proof.
  unfold TrimSpace_bytes.
  destruct (skip_ascii_space p) as [rest slow] eqn:E1.
  destruct (skip_ascii_space_suffix _ _ _ E1) as (pre & -> & _).
  destruct slow.
  - unfold strings_TrimFunc, strings_TrimLeftFunc.
    destruct (trim_left_suffix unicode.IsSpace (length rest) rest) as (pre' & Hpre').
    destruct (TrimRightFunc_prefix unicode.IsSpace
                (trim_left unicode.IsSpace (length rest) rest)) as (post & Hpost).
    exists (pre ++ pre'), post.
    rewrite <- app_assoc. f_equal.
    etransitivity; [exact Hpre' |]. f_equal. exact Hpost.
  - destruct (skip_ascii_space (rev rest)) as [tser slow'] eqn:E2.
    destruct (skip_ascii_space_suffix _ _ _ E2) as (erp & Hrev & _).
    apply (f_equal (@rev ascii)) in Hrev. rewrite rev_involutive, rev_app_distr in Hrev.
    destruct slow'.
    + destruct (TrimRightFunc_prefix unicode.IsSpace (rev tser)) as (post & Hpost).
      exists pre, (post ++ rev erp). rewrite Hrev. f_equal.
      rewrite app_assoc. f_equal. exact Hpost.
    + exists pre, (rev erp). rewrite Hrev. reflexivity.
Qed.

Lemma TrimSpace_chars (s : string) (c : ascii) :
  In c (list_ascii_of_string (strings_TrimSpace s)) ->
  In c (list_ascii_of_string s).
Proof.
  unfold strings_TrimSpace. rewrite list_ascii_of_string_of_list_ascii.
  destruct (TrimSpace_bytes_infix (list_ascii_of_string s)) as (pre & post & H).
  intros Hin. rewrite H. apply in_or_app. right. apply in_or_app. left. exact Hin.
Qed.

Lemma skip_ascii_space_blank (p : list ascii) :
  Forall (fun c => asciiSpace (utf8.code c) = true) p ->
  skip_ascii_space p = ([], false).
Proof.
  induction 1 as [| c p Hc _ IH]; [reflexivity |].
  cbn [skip_ascii_space]. rewrite Hc.
  assert (Hlow : (utf8.RuneSelf <=? utf8.code c) = false).
  { unfold asciiSpace in Hc. unfold utf8.RuneSelf. apply Z.leb_gt.
    repeat (apply orb_true_iff in Hc as [Hc | Hc]); apply Z.eqb_eq in Hc; lia. }
  rewrite Hlow. exact IH.
Qed.

Lemma TrimSpace_blank (s : string) :
  Forall (fun c => asciiSpace (utf8.code c) = true) (list_ascii_of_string s) ->
  strings_TrimSpace s = EmptyString.
Proof.
  intros H. unfold strings_TrimSpace, TrimSpace_bytes.
  rewrite skip_ascii_space_blank by exact H. reflexivity.
Qed.

End Trimming.

Section TrimmedEnds.

Lemma asciiSpace_IsSpace (z : Z) :
  asciiSpace z = true -> z < 128 /\ unicode.IsSpace z = true.
Proof.
  unfold asciiSpace. intros H.
  repeat (apply orb_true_iff in H as [H | H]);
    apply Z.eqb_eq in H; subst z; split; reflexivity.
Qed.

Lemma high_not_space (z : Z) : 128 <= z -> asciiSpace z = false.
Proof.
  unfold asciiSpace. intros H.
  rewrite !(proj2 (Z.eqb_neq _ _)) by lia. reflexivity.
Qed.

Lemma first_low (z : Z) : z < 194 -> utf8.first z = None.
Proof.
  unfold utf8.first. intros H.
  repeat match goal with
         | |- context [(?a <=? z)%Z] => rewrite (proj2 (Z.leb_gt a z)) by lia
         | |- context [(z =? ?a)%Z] => rewrite (proj2 (Z.eqb_neq z a)) by lia
         end.
  reflexivity.
Qed.

Lemma first_Some (z : Z) (sz : nat) (lo hi : Z) :
  utf8.first z = Some (sz, lo, hi) -> 128 <= lo /\ (2 <= sz <= 4)%nat.
Proof.
  unfold utf8.first. intros H.
  repeat match type of H with
         | (if ?b then _ else _) = _ =>
             destruct b; [injection H as <- <- <-; split; lia |]
         end.
  discriminate.
Qed.

Lemma DecodeRune_ascii (c : ascii) (q : list ascii) :
  utf8.code c < 128 -> utf8.DecodeRune (c :: q) = (utf8.code c, 1%nat).
Proof.
  intros H. unfold utf8.DecodeRune. rewrite first_low by lia.
  unfold utf8.RuneSelf. destruct (Z.ltb_spec (utf8.code c) 128); [reflexivity | lia].
Qed.

Lemma DecodeRune_width (c : ascii) (q : list ascii) (r : Z) (wid : nat) :
  utf8.DecodeRune (c :: q) = (r, wid) ->
  (1 <= wid <= length (c :: q))%nat
  /\ (128 <= utf8.code c -> 128 <= utf8.code (nth (wid - 1) (c :: q) zero)).
Proof.
  unfold utf8.DecodeRune.
  destruct (utf8.first (utf8.code c)) as [[[sz lo] hi] |] eqn:Ef.
  - apply first_Some in Ef as [Hlo Hsz].
    destruct (Nat.ltb_spec (length (c :: q)) sz) as [Hlen | Hlen].
    { intros [= <- <-]. cbn. split; [lia | auto]. }
    destruct ((utf8.code (nth 1 (c :: q) zero) <? lo)
              || (hi <? utf8.code (nth 1 (c :: q) zero))) eqn:E1.
    { intros [= <- <-]. cbn. split; [lia | auto]. }
    apply orb_false_iff in E1 as [E1 _]. apply Z.ltb_ge in E1.
    destruct (Nat.leb_spec sz 2) as [H2 | H2].
    { intros [= <- <-]. split; [lia |]. intros _. cbn [Nat.sub]. lia. }
    destruct (utf8.cont (utf8.code (nth 2 (c :: q) zero))) eqn:E2; cbn [negb].
    2:{ intros [= <- <-]. cbn. split; [lia | auto]. }
    unfold utf8.cont in E2. apply andb_true_iff in E2 as [E2 _]. apply Z.leb_le in E2.
    destruct (Nat.leb_spec sz 3) as [H3 | H3].
    { intros [= <- <-]. split; [lia |]. intros _. cbn [Nat.sub]. lia. }
    destruct (utf8.cont (utf8.code (nth 3 (c :: q) zero))) eqn:E3; cbn [negb].
    2:{ intros [= <- <-]. cbn. split; [lia | auto]. }
    unfold utf8.cont in E3. apply andb_true_iff in E3 as [E3 _]. apply Z.leb_le in E3.
    intros [= <- <-]. split; [lia |]. intros _. cbn [Nat.sub]. lia.
  - destruct (utf8.code c <? utf8.RuneSelf); intros [= <- <-]; cbn; split; try lia; auto.
Qed.

Lemma back_le (fuel : nat) (p : list ascii) (start lim : Z) :
  utf8.back fuel p start lim <= start.
Proof.
  revert start. induction fuel as [| fuel IH]; intros start; cbn [utf8.back]; [lia |].
  destruct (start <? lim); [lia |].
  destruct (utf8.RuneStart _); [lia |].
  specialize (IH (start - 1)). lia.
Qed.

Lemma skipn_nth {A} (n : nat) (l : list A) (d : A) :
  (n < length l)%nat -> skipn n l = nth n l d :: skipn (S n) l.
Proof.
  revert l. induction n as [| n IH]; intros [| a l] H; cbn in H; try lia.
  - reflexivity.
  - cbn [skipn nth]. rewrite (IH l) by lia. reflexivity.
Qed.

Lemma nth_firstn_lt {A} (n i : nat) (l : list A) (d : A) :
  (i < n)%nat -> nth i (firstn n l) d = nth i l d.
Proof.
  revert i l. induction n as [| n IH]; intros i l H; [lia |].
  destruct l as [| a l]; [destruct i; reflexivity |].
  destruct i as [| i]; [reflexivity |]. cbn. apply IH. lia.
Qed.

Lemma nth_skipn {A} (n i : nat) (l : list A) (d : A) :
  nth i (skipn n l) d = nth (n + i) l d.
Proof.
  revert l. induction n as [| n IH]; intros l; [reflexivity |].
  destruct l as [| a l]; [destruct i; reflexivity |]. cbn. apply IH.
Qed.

Lemma firstn_last {A} (n : nat) (l q : list A) (c d : A) :
  (1 <= n <= length l)%nat -> firstn n l = q ++ [c] -> c = nth (n - 1) l d.
Proof.
  intros Hn H.
  assert (Hlen : length q = (n - 1)%nat).
  { apply (f_equal (@length A)) in H.
    rewrite length_firstn, length_app in H. cbn in H. lia. }
  rewrite <- (nth_firstn_lt n (n - 1) l d) by lia.
  rewrite H, app_nth2 by lia. rewrite Hlen, Nat.sub_diag. reflexivity.
Qed.

Lemma DecodeLastRune_spec (p : list ascii) (r : Z) (size : nat) :
  p <> [] ->
  utf8.DecodeLastRune p = (r, size) ->
  (1 <= size <= length p)%nat
  /\ (utf8.code (nth (length p - size) p zero) < 128 ->
      r = utf8.code (nth (length p - size) p zero)).
Proof.
  intros Hne. unfold utf8.DecodeLastRune.
  assert (Hlen : (1 <= length p)%nat) by (destruct p; [contradiction | cbn; lia]).
  destruct (Z.eqb_spec (Z.of_nat (length p)) 0) as [H0 | _]; [lia |].
  replace (Z.to_nat (Z.of_nat (length p) - 1)) with (length p - 1)%nat by lia.
  unfold utf8.RuneSelf, utf8.UTFMax.
  destruct (Z.ltb_spec (utf8.code (nth (length p - 1) p zero)) 128) as [Hl | Hl].
  { intros [= <- <-]. split; [lia | auto]. }
  set (start0 := utf8.back 4 p (Z.of_nat (length p) - 2)
                   (Z.max 0 (Z.of_nat (length p) - 4))).
  assert (Hstart0 : start0 <= Z.of_nat (length p) - 2) by apply back_le.
  set (start := if start0 <? 0 then 0 else start0).
  assert (Hstart : 0 <= start < Z.of_nat (length p)).
  { subst start. destruct (Z.ltb_spec start0 0); lia. }
  rewrite (skipn_nth (Z.to_nat start) p zero) by lia.
  destruct (utf8.DecodeRune _) as [r' size'] eqn:Ed.
  destruct (DecodeRune_width _ _ _ _ Ed) as [Hw _].
  cbn [length] in Hw. rewrite length_skipn in Hw.
  destruct (Z.eqb_spec (start + Z.of_nat size') (Z.of_nat (length p))) as [He | He];
    cbn [negb]; intros [= <- <-].
  - split; [lia |].
    replace (length p - size')%nat with (Z.to_nat start) by lia.
    intros Hascii. rewrite DecodeRune_ascii in Ed by exact Hascii.
    injection Ed as <- _. reflexivity.
  - split; [lia |]. intros Hascii. lia.
Qed.

Lemma last_index_spec (f : Z -> bool) (fuel : nat) (p : list ascii) (i : nat) :
  last_index f fuel p = Some i ->
  (i < length p)%nat
  /\ (utf8.code (nth i p zero) < 128 -> f (utf8.code (nth i p zero)) = false).
Proof.
  revert p. induction fuel as [| fuel IH]; intros p; [discriminate |].
  cbn [last_index]. destruct p as [| c q] eqn:Ep; [discriminate |]. rewrite <- Ep.
  assert (Hne : p <> []) by (rewrite Ep; discriminate).
  clear Ep c q.
  destruct (utf8.DecodeLastRune p) as [r size] eqn:Ed.
  destruct (DecodeLastRune_spec p r size Hne Ed) as [Hsize Hascii].
  destruct (f r) eqn:Hf.
  - intros H. destruct (IH _ H) as [Hi Hi'].
    rewrite length_firstn in Hi.
    rewrite nth_firstn_lt in Hi' by lia.
    split; [lia | exact Hi'].
  - intros [= <-]. split; [lia |]. intros Hlow. rewrite <- (Hascii Hlow). exact Hf.
Qed.

Lemma TrimRightFunc_last (p q : list ascii) (c : ascii) :
  strings_TrimRightFunc unicode.IsSpace p = q ++ [c] ->
  asciiSpace (utf8.code c) = false.
Proof.
  unfold strings_TrimRightFunc.
  destruct (last_index unicode.IsSpace (length p) p) as [i |] eqn:Ei.
  2:{ intros H. destruct q; discriminate. }
  destruct (last_index_spec _ _ _ _ Ei) as [Hi Hlow].
  unfold utf8.RuneSelf.
  destruct (Z.leb_spec 128 (utf8.code (nth i p zero))) as [Hhigh | Hascii].
  - rewrite (skipn_nth i p zero) by exact Hi.
    destruct (utf8.DecodeRune _) as [r wid] eqn:Ed.
    destruct (DecodeRune_width _ _ _ _ Ed) as [Hw Hlast].
    rewrite <- (skipn_nth i p zero) in Hw, Hlast by exact Hi.
    rewrite length_skipn in Hw. rewrite nth_skipn in Hlast.
    intros H. apply (firstn_last _ _ _ _ zero) in H; [| lia].
    apply high_not_space. rewrite H.
    replace (i + wid - 1)%nat with (i + (wid - 1))%nat by lia.
    apply Hlast, Hhigh.
  - intros H. apply (firstn_last _ _ _ _ zero) in H; [| lia].
    replace (S i - 1)%nat with i in H by lia.
    destruct (asciiSpace (utf8.code c)) eqn:Hsp; [| reflexivity].
    apply asciiSpace_IsSpace in Hsp as [_ Hsp].
    rewrite H, Hlow in Hsp by lia. discriminate.
Qed.

Lemma trim_left_head (fuel : nat) (p q : list ascii) (c : ascii) :
  trim_left unicode.IsSpace fuel p = c :: q -> asciiSpace (utf8.code c) = false.
Proof.
  revert p. induction fuel as [| fuel IH]; intros p; [discriminate |].
  cbn [trim_left]. destruct p as [| c0 p0] eqn:Ep; [discriminate |].
  destruct (utf8.DecodeRune (c0 :: p0)) as [r size] eqn:Ed.
  destruct (unicode.IsSpace r) eqn:Hr; [apply IH |].
  intros [= <- <-].
  destruct (asciiSpace (utf8.code c0)) eqn:Hsp; [| reflexivity].
  apply asciiSpace_IsSpace in Hsp as [Hlow Hsp].
  rewrite DecodeRune_ascii in Ed by exact Hlow. injection Ed as <- _.
  rewrite Hsp in Hr. discriminate.
Qed.

Lemma skip_ascii_space_head (p q : list ascii) (c : ascii) (slow : bool) :
  skip_ascii_space p = (c :: q, slow) -> asciiSpace (utf8.code c) = false.
Proof.
  induction p as [| c0 p IH]; [discriminate |].
  cbn [skip_ascii_space]. unfold utf8.RuneSelf.
  destruct (Z.leb_spec 128 (utf8.code c0)) as [Hhigh | Hlow].
  { intros [= <- <- <-]. apply high_not_space, Hhigh. }
  destruct (asciiSpace (utf8.code c0)) eqn:Hsp; [exact IH |].
  intros [= <- <- <-]. exact Hsp.
Qed.

Lemma prefix_head {A} (l l' post q : list A) (c : A) :
  l = l' ++ post -> l' = c :: q -> exists q', l = c :: q'.
Proof. intros -> ->. eexists. reflexivity. Qed.

Lemma TrimSpace_bytes_ends (p rest : list ascii) (c : ascii) :
  TrimSpace_bytes p = c :: rest \/ TrimSpace_bytes p = rest ++ [c] ->
  asciiSpace (utf8.code c) = false.
Proof.
  unfold TrimSpace_bytes.
  destruct (skip_ascii_space p) as [body slow] eqn:E1.
  destruct slow.
  - unfold strings_TrimFunc, strings_TrimLeftFunc.
    intros [H | H]; [| exact (TrimRightFunc_last _ _ _ H)].
    destruct (TrimRightFunc_prefix unicode.IsSpace
                (trim_left unicode.IsSpace (length body) body)) as (post & Hpost).
    destruct (prefix_head _ _ _ _ _ Hpost H) as (q' & Hq').
    exact (trim_left_head _ _ _ _ Hq').
  - destruct (skip_ascii_space (rev body)) as [tser slow'] eqn:E2.
    destruct (skip_ascii_space_suffix _ _ _ E2) as (erp & Hrev & _).
    apply (f_equal (@rev ascii)) in Hrev. rewrite rev_involutive, rev_app_distr in Hrev.
    assert (Hhead : forall q, rev tser = c :: q -> asciiSpace (utf8.code c) = false).
    { intros q Hq. rewrite Hq in Hrev. rewrite Hrev in E1.
      exact (skip_ascii_space_head _ _ _ _ E1). }
    destruct slow'.
    + intros [H | H]; [| exact (TrimRightFunc_last _ _ _ H)].
      destruct (TrimRightFunc_prefix unicode.IsSpace (rev tser)) as (post & Hpost).
      destruct (prefix_head _ _ _ _ _ Hpost H) as (q' & Hq').
      exact (Hhead _ Hq').
    + intros [H | H]; [exact (Hhead _ H) |].
      apply (f_equal (@rev ascii)) in H.
      rewrite rev_involutive, rev_app_distr in H. cbn in H. rewrite H in E2.
      exact (skip_ascii_space_head _ _ _ _ E2).
Qed.

Lemma TrimSpace_trimmed (s : string) : trimmed (strings_TrimSpace s).
Proof.
  unfold trimmed, strings_TrimSpace. intros c rest.
  rewrite list_ascii_of_string_of_list_ascii. apply TrimSpace_bytes_ends.
Qed.

End TrimmedEnds.

(** ** The configuration *)
Section Configuration.

Import config.

Abbreviation no_mapping :=
  (@Err (list RepoMapping)
     (errors_New "REPO_MAPPINGS must contain at least one mapping")).

Lemma first_mapping_Some (ms : list RepoMapping) (p : string) (m : RepoMapping) :
  first_mapping ms p = Some m <->
  exists before after,
    ms = before ++ m :: after /\ SentryProject m = p
    /\ Forall (fun m' => SentryProject m' <> p) before.
Proof.
  induction ms as [| m0 ms IH]; cbn [first_mapping].
  - split; [discriminate |]. intros (before & after & H & _). destruct before; discriminate.
  - destruct (String.eqb_spec (SentryProject m0) p) as [He | Hne].
    + split.
      * intros [= <-]. exists [], ms. repeat split; [exact He | constructor].
      * intros (before & after & H & Hm & Hbefore).
        destruct before as [| b before]; [injection H as -> _; reflexivity |].
        injection H as -> _. inversion Hbefore; contradiction.
    + rewrite IH. split.
      * intros (before & after & -> & Hm & Hbefore).
        exists (m0 :: before), after. repeat split; [exact Hm | constructor; assumption].
      * intros (before & after & H & Hm & Hbefore).
        destruct before as [| b before]; [injection H as -> _; contradiction |].
        injection H as -> ->. exists before, after.
        repeat split; [exact Hm | inversion Hbefore; assumption].
Qed.

Lemma first_mapping_None (ms : list RepoMapping) (p : string) :
  first_mapping ms p = None <-> Forall (fun m' => SentryProject m' <> p) ms.
Proof.
  induction ms as [| m0 ms IH]; cbn [first_mapping].
  - split; [constructor | reflexivity].
  - destruct (String.eqb_spec (SentryProject m0) p) as [He | Hne].
    + split; [discriminate |]. intros H. inversion H; contradiction.
    + rewrite IH. split; [constructor; assumption | intros H; inversion H; assumption].
Qed.

(** X9: [GetRepoMapping] returns the first mapping of the project, in the
    order of the configuration, and nothing exactly when no mapping names
    the project. *)
Theorem GetRepoMapping_first_match (c : Config) (sentryProject : string) :
  (forall m, GetRepoMapping c sentryProject = Some m <->
     exists before after,
       RepoMappings c = before ++ m :: after
       /\ SentryProject m = sentryProject
       /\ Forall (fun m' => SentryProject m' <> sentryProject) before)
  /\ (GetRepoMapping c sentryProject = None <->
      Forall (fun m' => SentryProject m' <> sentryProject) (RepoMappings c)).
Proof.
  split; [intros m; apply first_mapping_Some | apply first_mapping_None].
Qed.

Lemma range_pairs_acc (pairs : list string) (acc : list RepoMapping) :
  range_pairs pairs acc
  = match range_pairs pairs [] with
    | Ok ms => Ok (acc ++ ms)
    | Err e => Err e
    end.
Proof.
  revert acc. induction pairs as [| pair0 rest IH]; intros acc.
  - cbn. rewrite app_nil_r. reflexivity.
  - cbn [range_pairs].
    destruct (String.eqb (strings_TrimSpace pair0) ""); [apply IH |].
    destruct (strings_SplitN (strings_TrimSpace pair0) ":" 2) as [| p0 [| p1 [| ? ?]]];
      try reflexivity.
    destruct (strings_SplitN (strings_TrimSpace p1) "/" 2) as [| r0 [| r1 [| ? ?]]];
      try reflexivity.
    rewrite IH. rewrite (IH ([] ++ _)).
    destruct (range_pairs rest []); [| reflexivity].
    rewrite <- app_assoc. reflexivity.
Qed.

Lemma range_pairs_app (l1 l2 : list string) (acc : list RepoMapping) :
  range_pairs (l1 ++ l2) acc
  = match range_pairs l1 acc with
    | Ok ms => range_pairs l2 ms
    | Err e => Err e
    end.
Proof.
  revert acc. induction l1 as [| pair0 rest IH]; intros acc; [reflexivity |].
  cbn [app range_pairs].
  destruct (String.eqb (strings_TrimSpace pair0) ""); [apply IH |].
  destruct (strings_SplitN (strings_TrimSpace pair0) ":" 2) as [| p0 [| p1 [| ? ?]]];
    try reflexivity.
  destruct (strings_SplitN (strings_TrimSpace p1) "/" 2) as [| r0 [| r1 [| ? ?]]];
    try reflexivity.
  apply IH.
Qed.

Lemma range_pairs_error (pairs : list string) (acc : list RepoMapping) (e : error) :
  range_pairs pairs acc = Err e -> forall text, e <> errors_New text.
Proof.
  revert acc. induction pairs as [| pair0 rest IH]; intros acc H text; [discriminate |].
  cbn [range_pairs] in H.
  destruct (String.eqb (strings_TrimSpace pair0) ""); [exact (IH _ H text) |].
  destruct (strings_SplitN (strings_TrimSpace pair0) ":" 2) as [| p0 [| p1 [| ? ?]]];
    try (injection H as <-; discriminate).
  destruct (strings_SplitN (strings_TrimSpace p1) "/" 2) as [| r0 [| r1 [| ? ?]]];
    try (injection H as <-; discriminate).
  exact (IH _ H text).
Qed.

(** [parseRepoMappings] in terms of its loop. *)
Lemma parseRepoMappings_Ok (s : string) (ms : list RepoMapping) :
  parseRepoMappings s = Ok ms <->
  range_pairs (strings_Split s ",") [] = Ok ms /\ ms <> [].
Proof.
  unfold parseRepoMappings.
  destruct (range_pairs (strings_Split s ",") []) as [[| m ms'] | e].
  - split; [discriminate | intros [[= <-] H]; contradiction].
  - split; [intros [= <-]; split; [reflexivity | discriminate] | intros [H _]; exact H].
  - split; [discriminate | intros [H _]; discriminate].
Qed.

Lemma parseRepoMappings_none (s : string) :
  parseRepoMappings s = no_mapping <-> range_pairs (strings_Split s ",") [] = Ok [].
Proof.
  unfold parseRepoMappings.
  destruct (range_pairs (strings_Split s ",") []) as [[| m ms'] | e] eqn:E.
  - split; reflexivity.
  - split; discriminate.
  - split; [| discriminate]. intros [= ->].
    exfalso. exact (range_pairs_error _ _ _ E _ eq_refl).
Qed.

Lemma parseRepoMappings_Err (s : string) (e : error) :
  parseRepoMappings s = Err e -> Err e <> no_mapping ->
  range_pairs (strings_Split s ",") [] = Err e.
Proof.
  unfold parseRepoMappings.
  destruct (range_pairs (strings_Split s ",") []) as [[| m ms'] | e'].
  - intros [= <-] H. contradiction H. reflexivity.
  - discriminate.
  - intros H _. exact H.
Qed.

(** X11: a mapping list written in two parts joined by a comma parses to
    the mappings of the first part followed by those of the second; the
    first malformed pair decides the error, and a part without any pair
    counts for nothing. *)
Theorem parseRepoMappings_concat (s1 s2 : string) :
  let both := parseRepoMappings (s1 +:+ "," +:+ s2) in
  (forall ms1 ms2, parseRepoMappings s1 = Ok ms1 -> parseRepoMappings s2 = Ok ms2 ->
     both = Ok (ms1 ++ ms2))
  /\ (forall ms1, parseRepoMappings s1 = Ok ms1 -> parseRepoMappings s2 = no_mapping ->
        both = Ok ms1)
  /\ (forall ms1 e, parseRepoMappings s1 = Ok ms1 -> parseRepoMappings s2 = Err e ->
        Err e <> no_mapping -> both = Err e)
  /\ (parseRepoMappings s1 = no_mapping -> both = parseRepoMappings s2)
  /\ (forall e, parseRepoMappings s1 = Err e -> Err e <> no_mapping -> both = Err e).
Proof.
  intros both.
  assert (Hboth : both
                  = match range_pairs (strings_Split s1 ",") [] with
                    | Ok ms1 =>
                        match range_pairs (strings_Split s2 ",") ms1 with
                        | Ok [] => no_mapping
                        | r => r
                        end
                    | Err e => Err e
                    end).
  { subst both. unfold parseRepoMappings.
    change (s1 +:+ "," +:+ s2) with (s1 +:+ String "," s2).
    rewrite Split_append, range_pairs_app.
    destruct (range_pairs (strings_Split s1 ",") []); reflexivity. }
  rewrite Hboth. clear Hboth both.
  repeat split.
  - intros ms1 ms2 H1 H2.
    apply parseRepoMappings_Ok in H1 as [-> Hne1].
    apply parseRepoMappings_Ok in H2 as [H2 Hne2].
    rewrite range_pairs_acc, H2.
    destruct ms1; [contradiction | reflexivity].
  - intros ms1 H1 H2.
    apply parseRepoMappings_Ok in H1 as [-> Hne1].
    apply parseRepoMappings_none in H2.
    rewrite range_pairs_acc, H2, app_nil_r.
    destruct ms1; [contradiction | reflexivity].
  - intros ms1 e H1 H2 Hne.
    apply parseRepoMappings_Ok in H1 as [-> Hne1].
    apply parseRepoMappings_Err in H2; [| exact Hne].
    rewrite range_pairs_acc, H2. reflexivity.
  - intros H1. apply parseRepoMappings_none in H1. rewrite H1. reflexivity.
  - intros e H1 Hne. apply parseRepoMappings_Err in H1; [| exact Hne].
    rewrite H1. reflexivity.
Qed.

(** X10: a single pair: what each shape of it parses to. *)
Theorem parseRepoMappings_single (s : string) :
  ~ In ","%char (list_ascii_of_string s) ->
  let pair1 := strings_TrimSpace s in
  (pair1 = EmptyString -> parseRepoMappings s = no_mapping)
  /\ (pair1 <> EmptyString -> ~ In ":"%char (list_ascii_of_string pair1) ->
      parseRepoMappings s = Err (invalid_repo_mapping_format pair1))
  /\ (forall project path,
        pair1 = project +:+ ":" +:+ path ->
        ~ In ":"%char (list_ascii_of_string project) ->
        let repoPath := strings_TrimSpace path in
        (~ In "/"%char (list_ascii_of_string repoPath) ->
         parseRepoMappings s = Err (invalid_repo_path_format repoPath))
        /\ (forall owner repo,
              repoPath = owner +:+ "/" +:+ repo ->
              ~ In "/"%char (list_ascii_of_string owner) ->
              parseRepoMappings s
              = Ok [ {| SentryProject := strings_TrimSpace project;
                        Owner := strings_TrimSpace owner;
                        Repo := strings_TrimSpace repo |} ])).
Proof.
  intros Hfree pair1.
  unfold parseRepoMappings. rewrite (Split_free _ s Hfree). cbn [range_pairs].
  fold pair1. generalize pair1. clear pair1. intros pair1.
  split; [| split].
  - intros ->. reflexivity.
  - intros Hne Hcolon.
    destruct (String.eqb_spec pair1 "") as [He | _]; [contradiction |].
    rewrite (SplitN_2_free _ pair1 Hcolon). reflexivity.
  - intros project path -> Hproject.
    destruct (String.eqb_spec (project +:+ ":" +:+ path) "") as [He | _].
    { destruct project; discriminate. }
    change (project +:+ ":" +:+ path) with (project +:+ String ":" path).
    rewrite (SplitN_2_cut _ project path Hproject).
    generalize (strings_TrimSpace path). intros repoPath.
    split.
    + intros Hslash. rewrite (SplitN_2_free _ repoPath Hslash). reflexivity.
    + intros owner repo -> Howner.
      change (owner +:+ "/" +:+ repo) with (owner +:+ String "/" repo).
      rewrite (SplitN_2_cut _ owner repo Howner). reflexivity.
Qed.

End Configuration.

Section ConfigurationFormat.

Import config.

Abbreviation chars := list_ascii_of_string.

Lemma plain_graphic (seps : list ascii) (s : string) :
  plain seps s -> Forall (fun c => graphic c = true) (chars s).
Proof. unfold plain. apply List.Forall_impl. intros c [H _]. exact H. Qed.

Lemma plain_free (seps : list ascii) (s : string) (sep : ascii) :
  plain seps s -> In sep seps -> ~ In sep (chars s).
Proof.
  unfold plain. intros H Hsep Hin.
  rewrite List.Forall_forall in H. destruct (H sep Hin) as [_ Hno]. exact (Hno Hsep).
Qed.

Lemma graphic_append (a b : string) :
  Forall (fun c => graphic c = true) (chars a) ->
  Forall (fun c => graphic c = true) (chars b) ->
  Forall (fun c => graphic c = true) (chars (a +:+ b)).
Proof. intros Ha Hb. rewrite chars_append. apply Forall_app; split; assumption. Qed.

Lemma graphic_cons (c : ascii) (b : string) :
  graphic c = true ->
  Forall (fun c => graphic c = true) (chars b) ->
  Forall (fun c => graphic c = true) (chars (String c b)).
Proof. intros Hc Hb. constructor; assumption. Qed.

(** One well-formed pair goes through the loop body unchanged. *)
Lemma range_pairs_formatted (m : RepoMapping) (rest : list string)
    (acc : list RepoMapping) :
  plain [","; ":"]%char (SentryProject m) ->
  plain [","; "/"]%char (Owner m) ->
  plain [","]%char (Repo m) ->
  range_pairs (format_mapping m :: rest) acc = range_pairs rest (acc ++ [m]).
Proof.
  intros Hp Ho Hr. destruct m as [project owner repo]. cbn [SentryProject Owner Repo] in *.
  unfold format_mapping. cbn [SentryProject Owner Repo range_pairs].
  change (project +:+ ":" +:+ owner +:+ "/" +:+ repo)
    with (project +:+ String ":" (owner +:+ String "/" repo)).
  assert (Hgp := plain_graphic _ _ Hp).
  assert (Hgo := plain_graphic _ _ Ho).
  assert (Hgr := plain_graphic _ _ Hr).
  assert (Hpath : Forall (fun c => graphic c = true)
                    (chars (owner +:+ String "/" repo))).
  { apply graphic_append; [exact Hgo | apply graphic_cons; [reflexivity | exact Hgr]]. }
  rewrite (TrimSpace_graphic (project +:+ String ":" (owner +:+ String "/" repo)))
    by (apply graphic_append; [exact Hgp | apply graphic_cons; [reflexivity | exact Hpath]]).
  destruct (String.eqb_spec (project +:+ String ":" (owner +:+ String "/" repo)) "")
    as [He | _].
  { destruct project; discriminate. }
  rewrite SplitN_2_cut by (apply (plain_free _ _ _ Hp); right; left; reflexivity).
  rewrite (TrimSpace_graphic project Hgp), (TrimSpace_graphic _ Hpath).
  rewrite SplitN_2_cut by (apply (plain_free _ _ _ Ho); right; left; reflexivity).
  rewrite (TrimSpace_graphic owner Hgo), (TrimSpace_graphic repo Hgr).
  reflexivity.
Qed.

Abbreviation well_formed m :=
  (plain [","; ":"]%char (SentryProject m)
   /\ plain [","; "/"]%char (Owner m)
   /\ plain [","]%char (Repo m)).

Lemma format_mapping_comma_free (m : RepoMapping) :
  well_formed m -> ~ In ","%char (chars (format_mapping m)).
Proof.
  intros (Hp & Ho & Hr). unfold format_mapping.
  change (SentryProject m +:+ ":" +:+ Owner m +:+ "/" +:+ Repo m)
    with (SentryProject m +:+ String ":" (Owner m +:+ String "/" (Repo m))).
  rewrite chars_append, chars_cons, chars_append, chars_cons.
  intros Hin.
  apply in_app_or in Hin as [Hin | [Hin | Hin]].
  - exact (plain_free _ _ _ Hp ltac:(left; reflexivity) Hin).
  - discriminate.
  - apply in_app_or in Hin as [Hin | [Hin | Hin]].
    + exact (plain_free _ _ _ Ho ltac:(left; reflexivity) Hin).
    + discriminate.
    + exact (plain_free _ _ _ Hr ltac:(left; reflexivity) Hin).
Qed.

(** X12: a list of mappings written in the documented format reads back as
    the same list. *)
Theorem parseRepoMappings_format (ms : list RepoMapping) :
  ms <> [] ->
  Forall (fun m => well_formed m) ms ->
  parseRepoMappings (format_mappings ms) = Ok ms.
Proof.
  intros Hne Hall. apply parseRepoMappings_Ok. split; [| exact Hne].
  unfold format_mappings. rewrite Split_Join.
  - assert (Hloop : forall acc,
               range_pairs (map format_mapping ms) acc = Ok (acc ++ ms)).
    { clear Hne. induction Hall as [| m ms (Hp & Ho & Hr) _ IH]; intros acc.
      - cbn. rewrite app_nil_r. reflexivity.
      - cbn [map]. rewrite range_pairs_formatted by assumption.
        rewrite IH, <- app_assoc. reflexivity. }
    apply (Hloop []).
  - destruct ms; [contradiction | discriminate].
  - apply List.Forall_map. revert Hall. apply List.Forall_impl. intros m.
    apply format_mapping_comma_free.
Qed.

Lemma TrimSpace_free (s : string) (c : ascii) :
  ~ In c (chars s) -> ~ In c (chars (strings_TrimSpace s)).
Proof. intros H Hin. apply H, TrimSpace_chars, Hin. Qed.

Lemma append_free_l (a b : string) (c : ascii) :
  ~ In c (chars (a +:+ b)) -> ~ In c (chars a).
Proof. rewrite chars_append. intros H Hin. apply H, in_or_app. left. exact Hin. Qed.

Lemma append_free_r (a b : string) (c d : ascii) :
  ~ In c (chars (a +:+ String d b)) -> ~ In c (chars b).
Proof.
  rewrite chars_append, chars_cons. intros H Hin.
  apply H, in_or_app. right. right. exact Hin.
Qed.

Abbreviation separated m :=
  (~ In ","%char (chars (SentryProject m))
   /\ ~ In ":"%char (chars (SentryProject m))
   /\ ~ In ","%char (chars (Owner m))
   /\ ~ In "/"%char (chars (Owner m))
   /\ ~ In ","%char (chars (Repo m))
   /\ trimmed (SentryProject m) /\ trimmed (Owner m) /\ trimmed (Repo m)).

Lemma range_pairs_separated (pairs : list string) (acc ms : list RepoMapping) :
  Forall (fun piece => ~ In ","%char (chars piece)) pairs ->
  Forall (fun m => separated m) acc ->
  range_pairs pairs acc = Ok ms ->
  Forall (fun m => separated m) ms
  /\ (length ms <= length acc + length pairs)%nat.
Proof.
  intros Hpairs. revert acc.
  induction Hpairs as [| pair0 rest Hfree _ IH]; intros acc Hacc H.
  - injection H as <-. split; [exact Hacc | cbn; lia].
  - cbn [range_pairs] in H.
    destruct (String.eqb (strings_TrimSpace pair0) "").
    { destruct (IH _ Hacc H) as [H1 H2]. split; [exact H1 | cbn; lia]. }
    apply (TrimSpace_free _ _) in Hfree.
    destruct (SplitN_2 ":" (strings_TrimSpace pair0))
      as [[_ E] | (a & b & Eab & Ha & E)]; rewrite E in H; [discriminate |].
    rewrite Eab in Hfree.
    assert (Hb := append_free_r _ _ _ _ Hfree).
    apply append_free_l in Hfree.
    apply (TrimSpace_free _ _) in Hb.
    destruct (SplitN_2 "/" (strings_TrimSpace b))
      as [[_ E'] | (o & r & Eor & Ho & E')]; rewrite E' in H; [discriminate |].
    rewrite Eor in Hb.
    assert (Hr := append_free_r _ _ _ _ Hb).
    apply append_free_l in Hb.
    assert (Hacc' : Forall (fun m => separated m)
                      (acc ++ [ {| SentryProject := strings_TrimSpace a;
                                   Owner := strings_TrimSpace o;
                                   Repo := strings_TrimSpace r |} ])).
    { apply Forall_app. split; [exact Hacc |].
      constructor; [| constructor]. cbn [SentryProject Owner Repo].
      repeat split; first [apply TrimSpace_trimmed | apply TrimSpace_free; assumption]. }
    destruct (IH _ Hacc' H) as [H1 H2].
    split; [exact H1 |]. rewrite length_app in H2. cbn in *. lia.
Qed.

(** X13: what comes out of [parseRepoMappings]: at least one mapping, at
    most one per comma-separated piece, and fields free of the separators
    that delimit them and of ASCII space at either end. *)
Theorem parseRepoMappings_fields (s : string) (ms : list RepoMapping) :
  parseRepoMappings s = Ok ms ->
  ms <> []
  /\ (length ms <= length (strings_Split s ","))%nat
  /\ Forall (fun m => separated m) ms.
Proof.
  intros H. apply parseRepoMappings_Ok in H as [H Hne].
  destruct (range_pairs_separated _ [] ms (Split_pieces_free "," s) (List.Forall_nil _) H)
    as [H1 H2].
  split; [exact Hne |]. split; [exact H2 | exact H1].
Qed.

(** X14: [Load]: the required variables are checked in a fixed order, and a
    configuration that loads has every required field filled. *)
Theorem Load_checks (env : gmap string string) :
  let get := os_Getenv env in
  (get "SENTRY_WEBHOOK_SECRET" = EmptyString ->
   Load env = Err (errors_New "SENTRY_WEBHOOK_SECRET is required"))
  /\ (get "SENTRY_WEBHOOK_SECRET" <> EmptyString ->
      get "GITHUB_TOKEN" = EmptyString ->
      Load env = Err (errors_New "GITHUB_TOKEN is required"))
  /\ (get "SENTRY_WEBHOOK_SECRET" <> EmptyString ->
      get "GITHUB_TOKEN" <> EmptyString ->
      get "REPO_MAPPINGS" = EmptyString ->
      Load env = Err (errors_New "REPO_MAPPINGS is required"))
  /\ (get "SENTRY_WEBHOOK_SECRET" <> EmptyString ->
      get "GITHUB_TOKEN" <> EmptyString ->
      get "REPO_MAPPINGS" <> EmptyString ->
      forall e, parseRepoMappings (get "REPO_MAPPINGS") = Err e -> Load env = Err e)
  /\ (forall cfg, Load env = Ok cfg ->
        SentryWebhookSecret cfg = get "SENTRY_WEBHOOK_SECRET"
        /\ SentryWebhookSecret cfg <> EmptyString
        /\ GitHubToken cfg = get "GITHUB_TOKEN"
        /\ GitHubToken cfg <> EmptyString
        /\ AnthropicAPIKey cfg = get "ANTHROPIC_API_KEY"
        /\ Port cfg = (if String.eqb (get "PORT") "" then "8080" else get "PORT")
        /\ Port cfg <> EmptyString
        /\ parseRepoMappings (get "REPO_MAPPINGS") = Ok (RepoMappings cfg)
        /\ RepoMappings cfg <> []).
Proof.
  intros get. unfold Load, getEnv. fold get.
  destruct (String.eqb_spec (get "SENTRY_WEBHOOK_SECRET") "") as [Hs | Hs].
  { repeat split; try contradiction; try discriminate. }
  destruct (String.eqb_spec (get "GITHUB_TOKEN") "") as [Ht | Ht].
  { repeat split; try contradiction; try discriminate. }
  destruct (String.eqb_spec (get "REPO_MAPPINGS") "") as [Hm | Hm].
  { repeat split; try contradiction; try discriminate. }
  destruct (parseRepoMappings (get "REPO_MAPPINGS")) as [ms | e] eqn:Hparse.
  - split; [contradiction |]. split; [contradiction |]. split; [contradiction |].
    split; [discriminate |].
    intros cfg [= <-]. cbn.
    repeat split; try assumption.
    + destruct (String.eqb_spec (get "PORT") ""); reflexivity.
    + destruct (String.eqb_spec (get "PORT") ""); [discriminate | assumption].
    + apply parseRepoMappings_Ok in Hparse as [_ Hne]. exact Hne.
  - split; [contradiction |]. split; [contradiction |]. split; [contradiction |].
    split; [intros _ _ _ e' [= <-]; reflexivity | discriminate].
Qed.

End ConfigurationFormat.

(** ** The job processor *)
Section Dispatch.

Import config.

Context {float64 Fix : Type}.
Variable pipeline_Run : string -> string -> webhook.ParsedError -> option Fix.

(** X15: what [processJob] asks for: nothing for a project without a
    mapping; otherwise one pipeline run on the repository of the first
    mapping of the project, and a pull request on that same repository
    only when the run gave a fix. *)
Theorem processJob_dispatch (cfg : Config) (job : webhook.Job float64) :
  let parsed := webhook.Job_ParsedError job in
  let slug := webhook.ProjectSlug parsed in
  (Forall (fun m => SentryProject m <> slug) (RepoMappings cfg) ->
   server.processJob pipeline_Run cfg job = [])
  /\ (forall before m after,
        RepoMappings cfg = before ++ m :: after ->
        SentryProject m = slug ->
        Forall (fun m' => SentryProject m' <> slug) before ->
        let repoURL := "https://github.com/" +:+ Owner m +:+ "/" +:+ Repo m +:+ ".git" in
        server.processJob pipeline_Run cfg job
        = server.RunPipeline repoURL (GitHubToken cfg) parsed
            :: match pipeline_Run repoURL (GitHubToken cfg) parsed with
               | None => []
               | Some fix_ =>
                   [ server.CreatePullRequest
                       {| gitprovider.owner := Owner m; gitprovider.repo := Repo m |}
                       parsed fix_ ]
               end).
Proof.
  intros parsed slug. unfold server.processJob, GetRepoMapping. fold parsed. fold slug.
  split.
  - intros Hnone. apply first_mapping_None in Hnone. rewrite Hnone. reflexivity.
  - intros before m after Hms Hm Hbefore.
    assert (Hfirst : first_mapping (RepoMappings cfg) slug = Some m).
    { apply first_mapping_Some. exists before, after. repeat split; assumption. }
    rewrite Hfirst. reflexivity.
Qed.

End Dispatch.

(** ** The properties above on sample inputs *)

Lemma bodyReader_reads_in_order_witness :
  exists b',
    http.reads (webhook.newBodyReader (bytes_of "payload")) [3; 2]%nat
    = (bytes_of "paylo", b')
    /\ http.ReadAll (http.NopCloser b') = (bytes_of "ad", None).
Proof.
  destruct (bodyReader_reads_in_order [3; 2]%nat
              (webhook.newBodyReader (bytes_of "payload")))
    as (b' & H1 & H2 & _); [cbn; lia |].
  exists b'. split; [exact H1 | exact H2].
Defined.

Lemma Middleware_calls_next_iff_signed_witness :
  let v := webhook.NewSignatureVerifier fixtures.test_secret in
  let body := fixtures.body_created in
  let r := fixtures.signed_request
             (webhook.computeSignature fixtures.test_secret body)
             (http.wire body None) in
  webhook.Middleware v fixtures.handlerCalled http.NewRecorder r false
  = fixtures.handlerCalled http.NewRecorder
      {| http.Method := "POST"; http.Header := http.Header r;
         http.Body := http.NopCloser (webhook.newBodyReader body) |} false.
Proof.
  intros v body r.
  destruct (Middleware_calls_next_iff_signed v http.NewRecorder r false) as [H _].
  destruct (H body) as [_ Hnext]; [reflexivity | vm_compute; reflexivity |].
  apply Hnext.
Defined.

Lemma Verify_signature_is_bare_digest_witness :
  let v := webhook.NewSignatureVerifier fixtures.test_secret in
  let body := fixtures.body_created in
  webhook.Verify v
    ("sha256=" +:+ hex.EncodeToString (hmac.Sum (webhook.secret v) body) +:+ "")
    body = false.
Proof.
  intros v body.
  destruct (Verify_signature_is_bare_digest v "" body) as [_ H].
  apply (H "sha256="%string ""%string). left. discriminate.
Defined.

Lemma ServeHTTP_refusals_witness :
  webhook.ServeHTTP fixtures.int_of_float64 fixtures.decode http.NewRecorder
    fixtures.get_request fixtures.full_queue
  = http.Return (http.Error http.NewRecorder "method not allowed" 405)
      fixtures.full_queue.
Proof.
  destruct (ServeHTTP_refusals fixtures.int_of_float64 fixtures.decode
              http.NewRecorder fixtures.get_request fixtures.full_queue) as [H _].
  apply H. discriminate.
Defined.

Lemma ServeHTTP_queue_effect_witness :
  let q := webhook.make_chan fixtures.float64 100 in
  let q' := http.state_of
              (webhook.ServeHTTP fixtures.int_of_float64 fixtures.decode
                 http.NewRecorder (fixtures.post (fixtures.json_valid "created")) q) in
  webhook.chan_ok q' /\ webhook.cap q' = 100%nat.
Proof.
  intros q q'.
  destruct (ServeHTTP_queue_effect fixtures.int_of_float64 fixtures.decode
              http.NewRecorder (fixtures.post (fixtures.json_valid "created")) q)
    as (H1 & H2 & _).
  - split; [cbn; lia | left; reflexivity].
  - split; [exact H1 | exact H2].
Defined.

Lemma gate_protects_queue_witness :
  let v := webhook.NewSignatureVerifier fixtures.test_secret in
  exists w',
    webhook.Middleware v
      (webhook.ServeHTTP fixtures.int_of_float64 fixtures.decode)
      http.NewRecorder fixtures.unsigned_broken_request fixtures.full_queue
    = http.Return w' fixtures.full_queue.
Proof.
  intros v.
  destruct (gate_protects_queue fixtures.int_of_float64 fixtures.decode v
              http.NewRecorder fixtures.unsigned_broken_request fixtures.full_queue)
    as (_ & _ & H).
  destruct H as (w' & Hout & _).
  - intros (body & Hbody & _). cbn in Hbody. discriminate Hbody.
  - exists w'. exact Hout.
Defined.

Lemma ParseWebhook_frame_fields_witness :
  exists pe fr,
    webhook.ParseWebhook fixtures.int_of_float64 fixtures.frames_envelope = Some pe
    /\ webhook.Frames pe !! 0%nat = Some fr
    /\ webhook.Filename fr = "app.py"%string
    /\ webhook.LineNo fr = 42
    /\ webhook.Package fr = EmptyString.
Proof.
  eexists.
  destruct (ParseWebhook_frame_fields fixtures.int_of_float64
              fixtures.frames_envelope _ 0%nat fixtures.frameA eq_refl eq_refl)
    as (fr & Hfr & Hfile & _ & _ & _ & Hline & _ & _ & _ & _ & _ & _ & _ & _ & Hpkg & _).
  exists fr. split; [reflexivity |]. split; [exact Hfr |].
  split; [apply Hfile; reflexivity |].
  split; [exact (Hline (QArith_base.Qmake 42 1) eq_refl) | exact Hpkg].
Defined.

Lemma ParseWebhook_frames_by_entry_witness :
  from_option webhook.Frames []
    (webhook.ParseWebhook fixtures.int_of_float64
       (fixtures.envelope "created" (Some fixtures.testIssue)
          (Some {| webhook.EventID := ""; webhook.Message := "";
                   webhook.Event_Platform := ""; webhook.Event_Title := "";
                   webhook.Event_Type := "";
                   webhook.Entries :=
                     [ {| webhook.Entry_Type := "breadcrumbs";
                          webhook.Entry_Data := webhook.JObject ∅ |} ] |})))
  = [].
Proof.
  destruct (ParseWebhook_frames_by_entry fixtures.int_of_float64 "created"
              fixtures.zeroActor fixtures.testIssue fixtures.framesEvent)
    as (_ & H & _).
  apply (H {| webhook.Entry_Type := "breadcrumbs";
              webhook.Entry_Data := webhook.JObject ∅ |}).
  discriminate.
Defined.

Lemma GetRepoMapping_first_match_witness :
  config.GetRepoMapping fixtures.configuration "test-project"
  = Some {| config.SentryProject := "test-project"; config.Owner := "acme";
            config.Repo := "shop" |}
  /\ config.GetRepoMapping fixtures.configuration "unknown" = None.
Proof.
  destruct (GetRepoMapping_first_match fixtures.configuration "test-project")
    as [H _].
  destruct (GetRepoMapping_first_match fixtures.configuration "unknown")
    as [_ H'].
  split.
  - apply H. eexists [_], []. split; [reflexivity |]. split; [reflexivity |].
    constructor; [discriminate | constructor].
  - apply H'. repeat constructor; discriminate.
Defined.

Lemma parseRepoMappings_concat_witness :
  config.parseRepoMappings ("my-project:myorg/myrepo" +:+ "," +:+ "test-project:acme/shop")
  = config.Ok fixtures.repo_mappings.
Proof.
  destruct (parseRepoMappings_concat "my-project:myorg/myrepo" "test-project:acme/shop")
    as [H _].
  apply (H [_] [_]); vm_compute; reflexivity.
Defined.

Lemma parseRepoMappings_single_witness :
  config.parseRepoMappings " my-project : myorg / myrepo "
  = config.Ok [ {| config.SentryProject := "my-project"; config.Owner := "myorg";
                   config.Repo := "myrepo" |} ]
  /\ config.parseRepoMappings "my-project" 
     = config.Err (config.invalid_repo_mapping_format "my-project")
  /\ config.parseRepoMappings "my-project:myorg" 
     = config.Err (config.invalid_repo_path_format "myorg").
Proof.
  split; [| split].
  - destruct (parseRepoMappings_single " my-project : myorg / myrepo ")
      as (_ & _ & H).
    { vm_compute. intuition discriminate. }
    destruct (H "my-project "%string " myorg / myrepo"%string) as [_ H'].
    { reflexivity. }
    { vm_compute. intuition discriminate. }
    apply (H' "myorg "%string " myrepo"%string).
    + reflexivity.
    + vm_compute. intuition discriminate.
  - destruct (parseRepoMappings_single "my-project") as (_ & H & _).
    { vm_compute. intuition discriminate. }
    apply H; [vm_compute; discriminate | vm_compute; intuition discriminate].
  - destruct (parseRepoMappings_single "my-project:myorg") as (_ & _ & H).
    { vm_compute. intuition discriminate. }
    destruct (H "my-project"%string "myorg"%string) as [H' _].
    { reflexivity. }
    { vm_compute. intuition discriminate. }
    apply H'. vm_compute. intuition discriminate.
Defined.

Lemma plain_sample :
  Forall (fun m => config.plain [","; ":"]%char (config.SentryProject m)
                   /\ config.plain [","; "/"]%char (config.Owner m)
                   /\ config.plain [","]%char (config.Repo m))
    fixtures.repo_mappings.
Proof.
  unfold config.plain.
  repeat (constructor || split || (cbn; intuition discriminate)).
Defined.

Lemma parseRepoMappings_format_witness :
  config.parseRepoMappings "my-project:myorg/myrepo,test-project:acme/shop"
  = config.Ok fixtures.repo_mappings.
Proof.
  apply (parseRepoMappings_format fixtures.repo_mappings); [discriminate |].
  exact plain_sample.
Defined.

Lemma parseRepoMappings_fields_witness :
  fixtures.repo_mappings <> []
  /\ (length fixtures.repo_mappings
      <= length (strings_Split fixtures.loose_mappings ","))%nat.
Proof.
  destruct (parseRepoMappings_fields fixtures.loose_mappings fixtures.repo_mappings)
    as (H1 & H2 & _); [vm_compute; reflexivity |].
  split; [exact H1 | exact H2].
Defined.

Lemma Load_checks_witness :
  config.Load ∅ = config.Err (config.errors_New "SENTRY_WEBHOOK_SECRET is required")
  /\ config.Load {[ "SENTRY_WEBHOOK_SECRET"%string := fixtures.test_secret ]}
     = config.Err (config.errors_New "GITHUB_TOKEN is required")
  /\ config.RepoMappings fixtures.configuration <> [].
Proof.
  split; [| split].
  - destruct (Load_checks ∅) as [H _]. apply H. reflexivity.
  - destruct (Load_checks {[ "SENTRY_WEBHOOK_SECRET"%string := fixtures.test_secret ]})
      as (_ & H & _).
    apply H; [vm_compute; discriminate | reflexivity].
  - destruct (Load_checks fixtures.environment) as (_ & _ & _ & _ & H).
    destruct (H fixtures.configuration) as (_ & _ & _ & _ & _ & _ & _ & _ & Hne);
      [vm_compute; reflexivity | exact Hne].
Defined.

Lemma processJob_dispatch_witness :
  server.processJob fixtures.failing_pipeline fixtures.configuration fixtures.testJob
  = [ server.RunPipeline "https://github.com/acme/shop.git" "ghp_token"
        (webhook.Job_ParsedError fixtures.testJob) ]
  /\ server.processJob fixtures.fixing_pipeline fixtures.configuration fixtures.testJob
     = [ server.RunPipeline "https://github.com/acme/shop.git" "ghp_token"
           (webhook.Job_ParsedError fixtures.testJob);
         server.CreatePullRequest fixtures.provider
           (webhook.Job_ParsedError fixtures.testJob)
           "fix for https://github.com/acme/shop.git"%string ].
Proof.
  assert (Hbefore : Forall (fun m' => config.SentryProject m' <> "test-project"%string)
                      [ {| config.SentryProject := "my-project";
                           config.Owner := "myorg"; config.Repo := "myrepo" |} ])
    by (constructor; [discriminate | constructor]).
  split.
  - destruct (processJob_dispatch fixtures.failing_pipeline fixtures.configuration
                fixtures.testJob) as [_ H].
    exact (H [_] {| config.SentryProject := "test-project"; config.Owner := "acme";
                    config.Repo := "shop" |} [] eq_refl eq_refl Hbefore).
  - destruct (processJob_dispatch fixtures.fixing_pipeline fixtures.configuration
                fixtures.testJob) as [_ H].
    exact (H [_] {| config.SentryProject := "test-project"; config.Owner := "acme";
                    config.Repo := "shop" |} [] eq_refl eq_refl Hbefore).
Defined.

